(** * Resource reconciliation in OneCloud: route-table sync and rule comparison

    A shallow embedding of the route-table synchronisation of
    [pkg/compute/models] ([SyncRouteTables] and the functions it calls, in
    src/pkg/compute/models/loadbalancerclusterresource.go, lines 618-766) and
    of the routines it rests on.

    What is embedded from the source: [routeTableBasename],
    [newRouteTableFromCloud], [insertFromCloud], [syncRemoveCloudRouteTable],
    [SyncWithCloudRouteTable] and [SyncRouteTables]; the validation of
    routes ([SRoute.Validate], [SRoutes.Validate]), the loops of
    [PerformAddRoutes] and [PerformDelRoutes], and [PerformPurge] (module
    [RouteTables]).

    What the sources call but do not contain is modelled from the
    specification, and every such definition says so: the set comparator and
    the [SyncResult] of package [compare] (module [Compare]), the calls on
    the ORM, the audit log and the metadata table (module [Store]), and the
    security-rule comparator [CompareRules], of which the sources hold one
    test only (module [SecRules]).

    Four small pieces of other packages are embedded from their sources as
    well: [union] and [tagValUnion] of the monitor's data sources (module
    [DataSource]), [JoinPath] and [ParseResponse] of [httputils] (module
    [HttpUtils]), the conversions between disk and server creation inputs
    (module [DiskApi])
    and the driver registry and validations of the suggestion rules (module
    [SuggestRules]).

    Layout: the data model and the operations come first, the theorems about
    them afterwards. *)

From stdpp Require Import gmap strings list fin_maps pretty sorting.
From Stdlib Require Import Ascii.

(** ** Errors

    Go's [error] values.  The sync code never inspects an error, it only
    forwards it into the [SyncResult]; the constructors keep the causes the
    specification's error taxonomy distinguishes. *)
Inductive error : Type :=
  | AmbiguousKeyError (key : string)
  | ValidationError (msg : string)
  | TransientIOError (msg : string).

Global Instance error_eq_dec : EqDecision error.
Proof. solve_decision. Defined.

(** What a call does: it returns, or it panics. *)
Inductive Outcome (A : Type) : Type :=
  | Panics
  | Returns (a : A).
Arguments Panics {A}.
Arguments Returns {A} a.

(** * The set comparator ([yunion.io/x/pkg/util/compare]) *)
Module Compare.

(** Modelled from the spec: [compare.SyncResult] is declared in the
    [compare] package, which is not among the sources.  The specification
    describes it as an accumulator of counts (added, updated, deleted) and of
    errors with their cause per category; the method names are those
    [SyncRouteTables] calls. *)
Record SyncResult : Type := mkSyncResult {
  AddCnt : nat;
  AddErrs : list error;
  UpdateCnt : nat;
  UpdateErrs : list error;
  DelCnt : nat;
  DelErrs : list error;
  PassErrs : list error
}.

(** Go's zero value [compare.SyncResult{}]. *)
Definition emptyResult : SyncResult := mkSyncResult 0 [] 0 [] 0 [] [].

(** Modelled from the spec: the methods of [compare.SyncResult] that
    [SyncRouteTables] calls; the package is not among the sources.  [Error]
    records a pass-level error; [Add], [Update] and [Delete] count one
    success, [AddError], [UpdateError] and [DeleteError] record one per-item
    error with its cause. *)
Definition Error (err : error) (r : SyncResult) : SyncResult :=
  mkSyncResult (AddCnt r) (AddErrs r) (UpdateCnt r) (UpdateErrs r)
               (DelCnt r) (DelErrs r) (PassErrs r ++ [err]).

Definition Add (r : SyncResult) : SyncResult :=
  mkSyncResult (S (AddCnt r)) (AddErrs r) (UpdateCnt r) (UpdateErrs r)
               (DelCnt r) (DelErrs r) (PassErrs r).

Definition AddError (err : error) (r : SyncResult) : SyncResult :=
  mkSyncResult (AddCnt r) (AddErrs r ++ [err]) (UpdateCnt r) (UpdateErrs r)
               (DelCnt r) (DelErrs r) (PassErrs r).

Definition Update (r : SyncResult) : SyncResult :=
  mkSyncResult (AddCnt r) (AddErrs r) (S (UpdateCnt r)) (UpdateErrs r)
               (DelCnt r) (DelErrs r) (PassErrs r).

Definition UpdateError (err : error) (r : SyncResult) : SyncResult :=
  mkSyncResult (AddCnt r) (AddErrs r) (UpdateCnt r) (UpdateErrs r ++ [err])
               (DelCnt r) (DelErrs r) (PassErrs r).

Definition Delete (r : SyncResult) : SyncResult :=
  mkSyncResult (AddCnt r) (AddErrs r) (UpdateCnt r) (UpdateErrs r)
               (S (DelCnt r)) (DelErrs r) (PassErrs r).

Definition DeleteError (err : error) (r : SyncResult) : SyncResult :=
  mkSyncResult (AddCnt r) (AddErrs r) (UpdateCnt r) (UpdateErrs r)
               (DelCnt r) (DelErrs r ++ [err]) (PassErrs r).

(** The number of per-item errors of each category. *)
Definition AddErrCnt (r : SyncResult) : nat := length (AddErrs r).
Definition UpdateErrCnt (r : SyncResult) : nat := length (UpdateErrs r).
Definition DelErrCnt (r : SyncResult) : nat := length (DelErrs r).

Section Comparator.
Context {T U : Type}.
Variable keyT : T → string.
Variable keyU : U → string.

(** Modelled from the spec: the key → index map the comparator builds for
    one side. *)
Definition key_index {A : Type} (key : A → string) (xs : list A)
  : gmap string nat :=
  list_to_map (zip (key <$> xs) (seq 0 (length xs))).

(** Modelled from the spec: the duplicate-key check; the first key that
    occurs twice, if any. *)
Fixpoint duplicate_key (ks : list string) : option string :=
  match ks with
  | [] => None
  | k :: rest => if bool_decide (k ∈ rest) then Some k else duplicate_key rest
  end.

(** Modelled from the spec: the remote partner of a local element, that is
    the remote element the index map stores under the local element's key;
    and the pairs of all local elements that have one, in local order. *)
Definition partner (remote : list U) (x : T) : option U :=
  j ← key_index keyU remote !! keyT x; remote !! j.

Definition common_pairs (local : list T) (remote : list U) : list (T * U) :=
  omap (λ x, y ← partner remote x; Some (x, y)) local.

(** Modelled from the spec: [compare.CompareSets] is not among the sources
    (only its call in [SyncRouteTables] is).  The specification gives the
    algorithm: a key → index map is built for each side; a key present
    only in [local] goes to removed, a key present only in [remote] to
    added, a key present in both is paired into commonLocal/commonRemote
    at matching indices, the pairs in the order of appearance in [local];
    a duplicate key on either side fails with [AmbiguousKeyError].
    The result is (removed, commondb, commonext, added). *)
Definition CompareSets (local : list T) (remote : list U)
  : error + (list T * list T * list U * list U) :=
  match duplicate_key (keyT <$> local), duplicate_key (keyU <$> remote) with
  | Some k, _ => inl (AmbiguousKeyError k)
  | None, Some k => inl (AmbiguousKeyError k)
  | None, None =>
      let lidx := key_index keyT local in
      let ridx := key_index keyU remote in
      let pairs := common_pairs local remote in
      inr (filter (λ x, ridx !! keyT x = None) local,
           pairs.*1, pairs.*2,
           filter (λ y, lidx !! keyU y = None) remote)
  end.
End Comparator.

End Compare.

(** * The local store and its collaborators ([cloudcommon/db], [cloudprovider]) *)
Module Store.

(** [SRoute] (source lines 260-265) and [SRouteTable] (lines 340-347) of
    [pkg/compute/models]; the embedded base structs
    ([SVirtualResourceBase], [SExternalizedResourceBase],
    [SVpcResourceBase]) are flattened into the fields the sync code reads or
    writes.  [Routes] is a pointer in Go; the sync code always stores a
    non-nil one.  [Type] is a keyword here, hence [route_Type] and
    [rt_Type]. *)
Record SRoute : Type := mkRoute {
  route_Type : string;
  Cidr : string;
  NextHopType : string;
  NextHopId : string
}.

Record SRouteTable : Type := mkRouteTable {
  Id : string;
  Name : string;
  Description : string;
  ProjectId : string;
  DomainId : string;
  ExternalId : string;
  VpcId : string;
  rt_Type : string;
  Routes : list SRoute
}.

(** [SVpc], as far as the sync code reads it ([vpc.Id], [vpc.Name]). *)
Record SVpc : Type := mkVpc {
  vpc_Id : string;
  vpc_Name : string
}.

(** [mcclient.TokenCredential], as far as the sync code asks it. *)
Record TokenCredential : Type := mkCred {
  GetProjectId : string;
  GetProjectDomainId : string
}.

(** [cloudprovider.ICloudRoute] and [cloudprovider.ICloudRouteTable]: the
    read-only snapshot fetched from the provider, one field per getter the
    sync code calls ([GetIRoutes] may fail).  [GetMetadata] is what
    [syncMetadata] reads. *)
Record ICloudRoute : Type := mkCloudRoute {
  cr_GetType : string;
  cr_GetCidr : string;
  cr_GetNextHopType : string;
  cr_GetNextHop : string
}.

Record ICloudRouteTable : Type := mkCloudRouteTable {
  GetGlobalId : string;
  GetName : string;
  GetDescription : string;
  GetType : string;
  GetIRoutes : error + list ICloudRoute;
  GetMetadata : list (string * string)
}.

Global Instance SRoute_eq_dec : EqDecision SRoute.
Proof. solve_decision. Defined.
Global Instance SRouteTable_eq_dec : EqDecision SRouteTable.
Proof. solve_decision. Defined.

(** The audit actions of [db.OpsLog]: [ACT_CREATE] is named in
    [insertFromCloud]; the other two stand for what [LogSyncUpdate] and a
    delete record. *)
Inductive Action : Type := ACT_CREATE | ACT_SYNC_UPDATE | ACT_DELETE.

Global Instance Action_eq_dec : EqDecision Action.
Proof. solve_decision. Defined.

(** The calls the sync pass makes on the store that write: the three
    mutations with their outcome, the audit logger and the metadata
    synchroniser. *)
Inductive Call : Type :=
  | CallDelete (id : string) (ok : bool)
  | CallUpdate (id : string) (ok : bool)
  | CallInsert (id : string) (ok : bool)
  | CallOpsLog (act : Action) (id : string)
  | CallSyncMetadata (id : string).

Global Instance Call_eq_dec : EqDecision Call.
Proof. solve_decision. Defined.

(** The state a pass runs in: the rows of [route_tables_tbl], the audit log,
    the metadata table, and the calls made so far in program order. *)
Record World : Type := mkWorld {
  route_tables_tbl : list SRouteTable;
  opslogs : list (Action * string);
  metadata : gmap string (list (string * string));
  calls : list Call
}.

(** What the collaborators answer.  Every store and provider call may fail;
    which ones do is outside the sync code, so it is a parameter of the
    pass: the error of the initial query, of [GenerateName], of
    [ValidateDeleteCondition], of the delete, the update and the insert (none
    when the call succeeds), the identifier a new row receives, and whether
    the audit logger and the metadata table accept a write. *)
Record Env : Type := mkEnv {
  fetch_error : option error;
  name_error : string → option error;
  validate_delete : SRouteTable → option error;
  delete_error : SRouteTable → option error;
  update_error : SRouteTable → option error;
  insert_error : SRouteTable → option error;
  gen_uuid : list SRouteTable → string;
  opslog_ok : Action → string → bool;
  metadata_ok : string → bool
}.

(** The state monad the pass is written in. *)
Definition M (A : Type) : Type := World → A * World.

Global Instance M_ret : MRet M := λ A a w, (a, w).
Global Instance M_bind : MBind M := λ A B f m w, let '(a, w') := m w in f a w'.

Definition get_tbl : M (list SRouteTable) := λ w, (route_tables_tbl w, w).

Definition put_tbl (tbl : list SRouteTable) : M unit := λ w,
  (tt, mkWorld tbl (opslogs w) (metadata w) (calls w)).

Definition record_call (c : Call) : M unit := λ w,
  (tt, mkWorld (route_tables_tbl w) (opslogs w) (metadata w) (calls w ++ [c])).

Definition append_opslog (act : Action) (id : string) : M unit := λ w,
  (tt, mkWorld (route_tables_tbl w) (opslogs w ++ [(act, id)]) (metadata w) (calls w)).

Definition modify_metadata
    (f : gmap string (list (string * string)) → gmap string (list (string * string)))
  : M unit := λ w,
  (tt, mkWorld (route_tables_tbl w) (opslogs w) (f (metadata w)) (calls w)).

(** Modelled from the spec: [db.FetchModelObjects] with the query
    [vpc_id = vpcId] is not among the sources.  The local store's
    [Query(scope)] returns the local resources of the scope, or fails. *)
Definition FetchModelObjects (env : Env) (vpcId : string)
  : M (error + list SRouteTable) :=
  match fetch_error env with
  | Some err => mret (inl err)
  | None => tbl ← get_tbl; mret (inr (filter (λ rt, VpcId rt = vpcId) tbl))
  end.

(** Modelled from the spec: the names [GenerateName] tries for a basename,
    the basename itself and then the basename with the suffixes -1, -2, ...
    (basename + uniqueness suffix). *)
Definition suffixed (basename : string) (i : nat) : string :=
  basename +:+ "-" +:+ pretty i.

Definition name_candidates (basename : string) (n : nat) : list string :=
  basename :: (suffixed basename <$> seq 1 n).

(** Modelled from the spec: the first candidate no row holds. *)
Definition free_name (used : list string) (basename : string) : option string :=
  snd <$> list_find (λ c, c ∉ used) (name_candidates basename (length used)).

(** Modelled from the spec: [db.GenerateName] is not among the sources.  The
    specification asks for a deterministic basename + uniqueness suffix
    strategy: the basename when no row holds it, otherwise the first suffixed
    candidate that is free.  A table of n rows leaves one of the n + 1
    candidates free, so the last branch is never taken (lemma
    [free_name_total]). *)
Definition GenerateName (env : Env) (basename : string) : M (error + string) :=
  match name_error env basename with
  | Some err => mret (inl err)
  | None =>
      tbl ← get_tbl;
      match free_name (Name <$> tbl) basename with
      | Some newName => mret (inr newName)
      | None => mret (inl (TransientIOError "no free name"))
      end
  end.

(** Modelled from the spec: [db.OpsLog.LogEvent] is not among the sources.
    It appends an audit log entry; it returns nothing, so a failure to write
    the entry is invisible to the caller. *)
Definition OpsLog_LogEvent (env : Env) (act : Action) (id : string) : M unit :=
  record_call (CallOpsLog act id);;
  if opslog_ok env act id then append_opslog act id else mret tt.

(** Modelled from the spec: [syncMetadata] is not among the sources.  It
    copies the remote resource's metadata onto the local row; its outcome is
    not returned. *)
Definition syncMetadata (env : Env) (rt : SRouteTable) (ext : ICloudRouteTable)
  : M unit :=
  record_call (CallSyncMetadata (Id rt));;
  if metadata_ok env (Id rt)
  then modify_metadata (λ m, <[Id rt := GetMetadata ext]> m)
  else mret tt.

(** Modelled from the spec: the row as the store keeps it, that is the new
    row with its identifier set. *)
Definition inserted_row (env : Env) (tbl : list SRouteTable) (rt : SRouteTable)
  : SRouteTable :=
  mkRouteTable (gen_uuid env tbl) (Name rt) (Description rt) (ProjectId rt)
    (DomainId rt) (ExternalId rt) (VpcId rt) (rt_Type rt) (Routes rt).

(** Modelled from the spec: [TableSpec().Insert] is not among the sources.
    It gives the row its identifier and appends it to the table, or fails
    and leaves the table as it was. *)
Definition Insert (env : Env) (rt : SRouteTable) : M (error + SRouteTable) :=
  tbl ← get_tbl;
  let row := inserted_row env tbl rt in
  match insert_error env rt with
  | Some err => record_call (CallInsert (Id row) false);; mret (inl err)
  | None =>
      record_call (CallInsert (Id row) true);;
      put_tbl (tbl ++ [row]);;
      mret (inr row)
  end.

(** Modelled from the spec: the fields an update changed (the diff
    [db.UpdateWithLock] answers and [LogSyncUpdate] receives), by column. *)
Definition update_diff (old new : SRouteTable) : list string :=
  (if decide (VpcId old = VpcId new) then [] else ["vpc_id"]) ++
  (if decide (rt_Type old = rt_Type new) then [] else ["type"]) ++
  (if decide (Routes old = Routes new) then [] else ["routes"]).

(** Modelled from the spec: [db.UpdateWithLock] is not among the sources.
    [self'] is [self] after the update closure has run; the row with
    [self]'s identifier is replaced by it, or the call fails and leaves the
    table as it was. *)
Definition UpdateWithLock (env : Env) (self self' : SRouteTable)
  : M (error + list string) :=
  match update_error env self with
  | Some err => record_call (CallUpdate (Id self) false);; mret (inl err)
  | None =>
      record_call (CallUpdate (Id self) true);;
      tbl ← get_tbl;
      put_tbl ((λ rt, if decide (Id rt = Id self) then self' else rt) <$> tbl);;
      mret (inr (update_diff self self'))
  end.

(** Modelled from the spec: [SVirtualResourceBase.Delete] is not among the
    sources.  The specification has a successful delete remove the local
    resource, append an audit log entry and synchronise the associated
    metadata (here: drop the row's metadata); a failure of the store is
    surfaced as it is and leaves the table as it was. *)
Definition SVirtualResourceBase_Delete (env : Env) (rt : SRouteTable)
  : M (option error) :=
  match delete_error env rt with
  | Some err => record_call (CallDelete (Id rt) false);; mret (Some err)
  | None =>
      record_call (CallDelete (Id rt) true);;
      tbl ← get_tbl;
      put_tbl (filter (λ r, Id r ≠ Id rt) tbl);;
      OpsLog_LogEvent env ACT_DELETE (Id rt);;
      record_call (CallSyncMetadata (Id rt));;
      (if metadata_ok env (Id rt)
       then modify_metadata (λ m, delete (Id rt) m)
       else mret tt);;
      mret None
  end.

End Store.

(** * Route-table synchronisation ([pkg/compute/models], route tables) *)
Module RouteTables.
Import Store.

(** [routeTableBasename] (source lines 714-722). *)
Definition routeTableBasename (name vpcName : string) : string :=
  if decide (name ≠ "") then name
  else if decide (vpcName ≠ "") then "rtbl-" +:+ vpcName
  else "rtbl".

(** The [SRoute] built from a cloud route in the loop of
    [newRouteTableFromCloud] (lines 682-690). *)
Definition route_of_cloud (cloudRoute : ICloudRoute) : SRoute :=
  mkRoute (cr_GetType cloudRoute) (cr_GetCidr cloudRoute)
          (cr_GetNextHopType cloudRoute) (cr_GetNextHop cloudRoute).

(** [newRouteTableFromCloud] (lines 675-712): the routes are read first,
    then the name is generated; either step may fail.  The new row has no
    identifier yet. *)
Definition newRouteTableFromCloud (env : Env) (userCred : TokenCredential)
    (vpc : SVpc) (cloudRouteTable : ICloudRouteTable) : M (error + SRouteTable) :=
  match GetIRoutes cloudRouteTable with
  | inl err => mret (inl err)
  | inr cloudRoutes =>
      let routes := route_of_cloud <$> cloudRoutes in
      let basename := routeTableBasename (GetName cloudRouteTable) (vpc_Name vpc) in
      newName ← GenerateName env basename;
      match newName with
      | inl err => mret (inl err)
      | inr newName =>
          mret (inr (mkRouteTable "" newName (GetDescription cloudRouteTable)
                       (GetProjectId userCred) (GetProjectDomainId userCred)
                       (GetGlobalId cloudRouteTable) (vpc_Id vpc)
                       (GetType cloudRouteTable) routes))
      end
  end.

(** [insertFromCloud] (lines 724-734). *)
Definition insertFromCloud (env : Env) (userCred : TokenCredential)
    (vpc : SVpc) (cloudRouteTable : ICloudRouteTable) : M (error + SRouteTable) :=
  routeTable ← newRouteTableFromCloud env userCred vpc cloudRouteTable;
  match routeTable with
  | inl err => mret (inl err)
  | inr routeTable =>
      inserted ← Insert env routeTable;
      match inserted with
      | inl err => mret (inl err)
      | inr routeTable =>
          OpsLog_LogEvent env ACT_CREATE (Id routeTable);;
          mret (inr routeTable)
      end
  end.

(** [RealDelete] (lines 497-499): the base struct's [Delete]. *)
Definition RealDelete (env : Env) (rt : SRouteTable) : M (option error) :=
  SVirtualResourceBase_Delete env rt.

(** [ValidateDeleteCondition] is inherited from the base struct, which is
    not among the sources; its answer is a parameter of the pass. *)
Definition ValidateDeleteCondition (env : Env) (self : SRouteTable)
  : option error :=
  validate_delete env self.

(** [syncRemoveCloudRouteTable] (lines 736-746); the object lock it takes
    and releases is not modelled. *)
Definition syncRemoveCloudRouteTable (env : Env) (self : SRouteTable)
  : M (option error) :=
  match ValidateDeleteCondition env self with
  | Some err => mret (Some err)
  | None => RealDelete env self
  end.

(** [PerformPurge] (lines 482-495).  [provider] is what
    [rt.GetCloudprovider()] answers: nil, or a provider with its enabled
    flag.  The first component of the Go result is always nil; the error is
    answered.  The invalid-status error is a [ValidationError] here. *)
Definition PerformPurge (env : Env) (provider : option bool) (rt : SRouteTable)
  : M (option error) :=
  match ValidateDeleteCondition env rt with
  | Some err => mret (Some err)
  | None =>
      match provider with
      | Some true =>
          mret (Some (ValidationError
                        "Cannot purge route_table on enabled cloud provider"))
      | _ => RealDelete env rt
      end
  end.

(** [self] after the update closure of [SyncWithCloudRouteTable] has run:
    the VPC, the type and the routes are overwritten. *)
Definition updated_row (self : SRouteTable) (vpc : SVpc) (routeTable : SRouteTable)
  : SRouteTable :=
  mkRouteTable (Id self) (Name self) (Description self) (ProjectId self)
    (DomainId self) (ExternalId self) (vpc_Id vpc) (rt_Type routeTable)
    (Routes routeTable).

(** [SyncWithCloudRouteTable] (lines 748-766); it answers the row as
    updated in place (the receiver is a pointer into [commondb]). *)
Definition SyncWithCloudRouteTable (env : Env) (userCred : TokenCredential)
    (self : SRouteTable) (vpc : SVpc) (cloudRouteTable : ICloudRouteTable)
  : M (error + SRouteTable) :=
  routeTable ← newRouteTableFromCloud env userCred vpc cloudRouteTable;
  match routeTable with
  | inl err => mret (inl err)
  | inr routeTable =>
      diff ← UpdateWithLock env self (updated_row self vpc routeTable);
      match diff with
      | inl err => mret (inl err)
      | inr _ =>
          OpsLog_LogEvent env ACT_SYNC_UPDATE (Id self);;
          mret (inr (updated_row self vpc routeTable))
      end
  end.

(** The three loops of [SyncRouteTables] (lines 640-647, 649-659 and
    661-671), each over its bucket in index order, threading the result
    lists and the [SyncResult]. *)
Definition Acc : Type :=
  (list SRouteTable * list ICloudRouteTable * Compare.SyncResult)%type.

Fixpoint removeLoop (env : Env) (removed : list SRouteTable)
    (syncResult : Compare.SyncResult) : M Compare.SyncResult :=
  match removed with
  | [] => mret syncResult
  | rt :: rest =>
      err ← syncRemoveCloudRouteTable env rt;
      removeLoop env rest
        (match err with
         | Some err => Compare.DeleteError err syncResult
         | None => Compare.Delete syncResult
         end)
  end.

Fixpoint updateLoop (env : Env) (userCred : TokenCredential) (vpc : SVpc)
    (common : list (SRouteTable * ICloudRouteTable)) (acc : Acc) : M Acc :=
  match common with
  | [] => mret acc
  | (rt, ext) :: rest =>
      let '(localRouteTables, remoteRouteTables, syncResult) := acc in
      updated ← SyncWithCloudRouteTable env userCred rt vpc ext;
      match updated with
      | inl err =>
          updateLoop env userCred vpc rest
            (localRouteTables, remoteRouteTables, Compare.UpdateError err syncResult)
      | inr rt' =>
          syncMetadata env rt' ext;;
          updateLoop env userCred vpc rest
            (localRouteTables ++ [rt'], remoteRouteTables ++ [ext],
             Compare.Update syncResult)
      end
  end.

Fixpoint addLoop (env : Env) (userCred : TokenCredential) (vpc : SVpc)
    (added : list ICloudRouteTable) (acc : Acc) : M Acc :=
  match added with
  | [] => mret acc
  | ext :: rest =>
      let '(localRouteTables, remoteRouteTables, syncResult) := acc in
      routeTableNew ← insertFromCloud env userCred vpc ext;
      match routeTableNew with
      | inl err =>
          addLoop env userCred vpc rest
            (localRouteTables, remoteRouteTables, Compare.AddError err syncResult)
      | inr routeTableNew =>
          syncMetadata env routeTableNew ext;;
          addLoop env userCred vpc rest
            (localRouteTables ++ [routeTableNew], remoteRouteTables ++ [ext],
             Compare.Add syncResult)
      end
  end.

(** The apply phase: deletions, then updates, then insertions. *)
Definition applyBuckets (env : Env) (userCred : TokenCredential) (vpc : SVpc)
    (removed commondb : list SRouteTable) (commonext added : list ICloudRouteTable)
  : M Acc :=
  syncResult ← removeLoop env removed Compare.emptyResult;
  acc ← updateLoop env userCred vpc (zip commondb commonext) ([], [], syncResult);
  addLoop env userCred vpc added acc.

(** [SyncRouteTables] (lines 618-673).  A nil slice is [None]; the two
    slices returned on the normal path are made with [make] and are never
    nil.  The class lock taken on entry and released by [defer] is not
    modelled.  [commondb] and [commonext] come out of [CompareSets] with the
    same length, and the update loop reads them at the same index. *)
Definition SyncRouteTables (env : Env) (userCred : TokenCredential) (vpc : SVpc)
    (cloudRouteTables : list ICloudRouteTable)
  : M (option (list SRouteTable) * option (list ICloudRouteTable) * Compare.SyncResult) :=
  dbRouteTables ← FetchModelObjects env (vpc_Id vpc);
  match dbRouteTables with
  | inl err => mret (None, None, Compare.Error err Compare.emptyResult)
  | inr dbRouteTables =>
      match Compare.CompareSets ExternalId GetGlobalId dbRouteTables cloudRouteTables with
      | inl err => mret (None, None, Compare.Error err Compare.emptyResult)
      | inr (removed, commondb, commonext, added) =>
          '(localRouteTables, remoteRouteTables, syncResult) ←
            applyBuckets env userCred vpc removed commondb commonext added;
          mret (Some localRouteTables, Some remoteRouteTables, syncResult)
      end
  end.

(** ** Validating routes ([SRoute.Validate], [SRoutes.Validate]) *)

(** What the calls into Go's [net] package answer: [net.ParseCIDR] gives the
    network of a CIDR in its textual form ([ipNet.String()]) or an error;
    [net.ParseIP(s).To4()] is nil or not. *)
Record NetLib : Type := mkNetLib {
  net_ParseCIDR : string → error + string;
  net_ParseIP_To4 : string → bool
}.

(** Go's [strings.Index]: the position of the first occurrence, -1 if there
    is none. *)
Definition strings_Index (s substr : string) : Z :=
  match String.index 0 substr s with
  | Some i => Z.of_nat i
  | None => -1
  end.

(** [SRoute.Validate] (lines 267-282): the error, if any, and the route as
    the call leaves it (the receiver is a pointer; a CIDR is rewritten to
    its network). *)
Definition SRoute_Validate (net : NetLib) (route : SRoute)
  : option error * SRoute :=
  if decide (0 < strings_Index (Cidr route) "/")%Z then
    match net_ParseCIDR net (Cidr route) with
    | inl err => (Some err, route)
    | inr ipNet =>
        (None, mkRoute (route_Type route) ipNet (NextHopType route) (NextHopId route))
    end
  else if net_ParseIP_To4 net (Cidr route) then (None, route)
  else (Some (ValidationError ("invalid addr " +:+ Cidr route)), route).

(** The loop of [SRoutes.Validate] (lines 302-314), with the set of CIDRs
    seen so far; the routes are answered as the loop leaves them, the ones
    after a failure untouched. *)
Fixpoint validateRoutesLoop (net : NetLib) (found : gset string)
    (routes : list SRoute) : option error * list SRoute :=
  match routes with
  | [] => (None, [])
  | route :: rest =>
      match SRoute_Validate net route with
      | (Some err, route') => (Some err, route' :: rest)
      | (None, route') =>
          if decide (Cidr route' ∈ found)
          then (Some (ValidationError ("duplicate route cidr " +:+ Cidr route')),
                route' :: rest)
          else
            let '(err, rest') := validateRoutesLoop net ({[Cidr route']} ∪ found) rest in
            (err, route' :: rest')
      end
  end.

(** [SRoutes.Validate] (lines 296-315).  The receiver is a pointer to a
    slice, [None] when nil; the branch for a nil receiver stores through
    it.  The elements are taken to be non-nil. *)
Definition SRoutes_Validate (net : NetLib) (routes : option (list SRoute))
  : Outcome (option error * list SRoute) :=
  match routes with
  | None => Panics
  | Some routes => Returns (validateRoutesLoop net ∅ routes)
  end.

(** A route as [SRoute.Validate] leaves it. *)
Definition validated (net : NetLib) (route : SRoute) : SRoute :=
  (SRoute_Validate net route).2.

(** ** Editing the routes of a table by hand

    [PerformAddRoutes] and [PerformDelRoutes] copy the routes of the table,
    edit the copy in a loop and store it with [db.Update]; the loops are
    embedded here as functions on the list of routes. *)

(** The merge loop of [PerformAddRoutes] (lines 533-544): a route is
    appended unless a route with its CIDR is already there. *)
Definition addRoute (routes : list SRoute) (add : SRoute) : list SRoute :=
  if decide (Cidr add ∈ Cidr <$> routes) then routes else routes ++ [add].

Definition PerformAddRoutes_routes (routes adds : list SRoute) : list SRoute :=
  foldl addRoute routes adds.

(** The loop of [PerformDelRoutes] (lines 568-579): for each CIDR the routes
    are scanned from the last to the first, system routes are skipped, and
    the first route found with that CIDR is cut out. *)
Fixpoint cut_first (cidr : string) (rs : list SRoute) : list SRoute :=
  match rs with
  | [] => []
  | r :: rest =>
      if decide (route_Type r = "system") then r :: cut_first cidr rest
      else if decide (Cidr r = cidr) then rest
      else r :: cut_first cidr rest
  end.

Definition delRoute (routes : list SRoute) (cidr : string) : list SRoute :=
  reverse (cut_first cidr (reverse routes)).

Definition PerformDelRoutes_routes (routes : list SRoute) (cidrs : list string)
  : list SRoute :=
  foldl delRoute routes cidrs.

(** ** Vocabulary of the statements about a pass *)

(** The local route tables of a VPC, as [SyncRouteTables] fetches them. *)
Definition dbRouteTablesOf (vpc : SVpc) (w : World) : list SRouteTable :=
  filter (λ rt, VpcId rt = vpc_Id vpc) (route_tables_tbl w).

(** The three mutations of the store, and which of them a call is. *)
Inductive Op : Type := OpDelete | OpUpdate | OpInsert.

Definition store_op (c : Call) : option Op :=
  match c with
  | CallDelete _ _ => Some OpDelete
  | CallUpdate _ _ => Some OpUpdate
  | CallInsert _ _ => Some OpInsert
  | CallOpsLog _ _ | CallSyncMetadata _ => None
  end.

Definition op_rank (o : Op) : nat :=
  match o with OpDelete => 0 | OpUpdate => 1 | OpInsert => 2 end.

(** The audit entries a run of calls asks for, and those of them the logger
    manages to write. *)
Definition logged (cs : list Call) : list (Action * string) :=
  omap (λ c, match c with CallOpsLog act id => Some (act, id) | _ => None end) cs.

Definition persisted (env : Env) (cs : list Call) : list (Action * string) :=
  filter (λ e, opslog_ok env e.1 e.2 = true) (logged cs).

(** The calls of the delete loop: per item nothing (validation refused), a
    failed delete, or a delete followed by its audit entry and metadata
    step.  Likewise for the update and the insert loop. *)
Inductive delete_trace : list Call → Prop :=
  | delete_trace_nil : delete_trace []
  | delete_trace_failed id cs :
      delete_trace cs → delete_trace (CallDelete id false :: cs)
  | delete_trace_done id cs :
      delete_trace cs →
      delete_trace (CallDelete id true :: CallOpsLog ACT_DELETE id
                      :: CallSyncMetadata id :: cs).

Inductive update_trace : list Call → Prop :=
  | update_trace_nil : update_trace []
  | update_trace_failed id cs :
      update_trace cs → update_trace (CallUpdate id false :: cs)
  | update_trace_done id cs :
      update_trace cs →
      update_trace (CallUpdate id true :: CallOpsLog ACT_SYNC_UPDATE id
                      :: CallSyncMetadata id :: cs).

Inductive insert_trace : list Call → Prop :=
  | insert_trace_nil : insert_trace []
  | insert_trace_failed id cs :
      insert_trace cs → insert_trace (CallInsert id false :: cs)
  | insert_trace_done id cs :
      insert_trace cs →
      insert_trace (CallInsert id true :: CallOpsLog ACT_CREATE id
                      :: CallSyncMetadata id :: cs).

(** What [syncRemoveCloudRouteTable] answers for a row: it depends on the
    collaborators only, not on the state. *)
Definition delete_outcome (env : Env) (rt : SRouteTable) : option error :=
  match validate_delete env rt with
  | Some err => Some err
  | None => delete_error env rt
  end.

(** Results that differ in the counters of one category only. *)
Definition same_but_delete (r r' : Compare.SyncResult) : Prop :=
  Compare.AddCnt r' = Compare.AddCnt r ∧ Compare.AddErrs r' = Compare.AddErrs r
  ∧ Compare.UpdateCnt r' = Compare.UpdateCnt r
  ∧ Compare.UpdateErrs r' = Compare.UpdateErrs r
  ∧ Compare.PassErrs r' = Compare.PassErrs r.

Definition same_but_update (r r' : Compare.SyncResult) : Prop :=
  Compare.AddCnt r' = Compare.AddCnt r ∧ Compare.AddErrs r' = Compare.AddErrs r
  ∧ Compare.DelCnt r' = Compare.DelCnt r ∧ Compare.DelErrs r' = Compare.DelErrs r
  ∧ Compare.PassErrs r' = Compare.PassErrs r.

Definition same_but_add (r r' : Compare.SyncResult) : Prop :=
  Compare.UpdateCnt r' = Compare.UpdateCnt r
  ∧ Compare.UpdateErrs r' = Compare.UpdateErrs r
  ∧ Compare.DelCnt r' = Compare.DelCnt r ∧ Compare.DelErrs r' = Compare.DelErrs r
  ∧ Compare.PassErrs r' = Compare.PassErrs r.

(** The names of the rows the add loop appends: each is what [free_name]
    answers for the remote's basename against the table as it stands when
    the row is inserted. *)
Fixpoint generated_names (vpc : SVpc) (tbl : list SRouteTable)
    (rows : list SRouteTable) (exts : list ICloudRouteTable) : Prop :=
  match rows, exts with
  | [], [] => True
  | row :: rows', ext :: exts' =>
      free_name (Name <$> tbl)
        (routeTableBasename (GetName ext) (vpc_Name vpc)) = Some (Name row)
      ∧ ExternalId row = GetGlobalId ext
      ∧ VpcId row = vpc_Id vpc
      ∧ generated_names vpc (tbl ++ [row]) rows' exts'
  | _, _ => False
  end.

(** The same collaborators, with other answers of the audit logger and the
    metadata synchroniser. *)
Definition with_side_effects (log_ok : Action → string → bool)
    (meta_ok : string → bool) (env : Env) : Env :=
  mkEnv (fetch_error env) (name_error env) (validate_delete env)
        (delete_error env) (update_error env) (insert_error env)
        (gen_uuid env) log_ok meta_ok.

(** The worlds the side effects leave behind. *)
Definition with_calls (w : World) (cs : list Call) : World :=
  mkWorld (route_tables_tbl w) (opslogs w) (metadata w) (calls w ++ cs).

Definition logged_world (env : Env) (act : Action) (id : string) (w : World)
  : World :=
  mkWorld (route_tables_tbl w)
    (if opslog_ok env act id then opslogs w ++ [(act, id)] else opslogs w)
    (metadata w) (calls w ++ [CallOpsLog act id]).

Definition synced_world (env : Env) (rt : SRouteTable) (ext : ICloudRouteTable)
    (w : World) : World :=
  mkWorld (route_tables_tbl w) (opslogs w)
    (if metadata_ok env (Id rt) then <[Id rt := GetMetadata ext]> (metadata w)
     else metadata w)
    (calls w ++ [CallSyncMetadata (Id rt)]).

(** The rows of the other VPCs are the given ones, in the given order. *)
Definition others_kept (vpc : SVpc) (others : list SRouteTable) (w : World) : Prop :=
  filter (λ rt, VpcId rt ≠ vpc_Id vpc) (route_tables_tbl w) = others.

(** What [PerformDelRoutes] keeps of a list of routes with distinct CIDRs. *)
Definition survives (cidrs : list string) (r : SRoute) : Prop :=
  route_Type r = "system" ∨ Cidr r ∉ cidrs.

Global Instance survives_dec cidrs r : Decision (survives cidrs r).
Proof. unfold survives. apply _. Defined.

(** A local row that holds what the remote table shows: the remote's key,
    the VPC of the pass, and the remote's type and routes. *)
Definition in_sync (vpc : SVpc) (rt : SRouteTable) (ext : ICloudRouteTable) : Prop :=
  ExternalId rt = GetGlobalId ext
  ∧ VpcId rt = vpc_Id vpc
  ∧ rt_Type rt = GetType ext
  ∧ ∃ cloudRoutes,
      GetIRoutes ext = inr cloudRoutes ∧ Routes rt = route_of_cloud <$> cloudRoutes.

(** A row of the table after a pass that stems from a row before it: the
    identifier, the name, the description, the owner and the key are the
    same, and the row is the same altogether unless it was a row of the
    VPC. *)
Definition same_identity (vpc : SVpc) (old new : SRouteTable) : Prop :=
  Id new = Id old ∧ Name new = Name old ∧ Description new = Description old
  ∧ ProjectId new = ProjectId old ∧ DomainId new = DomainId old
  ∧ ExternalId new = ExternalId old
  ∧ (new = old ∨ VpcId old = vpc_Id vpc).

(** What the update loop does to a row of the table: nothing, or it
    replaces it by the updated form of a row of the bucket that has its
    identifier. *)
Definition rewritten (vpc : SVpc) (selves : list SRouteTable)
    (r r' : SRouteTable) : Prop :=
  r' = r ∨ ∃ self routeTable,
             self ∈ selves ∧ Id self = Id r ∧ r' = updated_row self vpc routeTable.

(** Collaborators that never fail: the store answers every query and
    accepts every delete, update and insert, and a name is always found. *)
Definition never_fails (env : Env) : Prop :=
  fetch_error env = None
  ∧ (∀ basename, name_error env basename = None)
  ∧ (∀ rt, validate_delete env rt = None)
  ∧ (∀ rt, delete_error env rt = None)
  ∧ (∀ rt, update_error env rt = None)
  ∧ (∀ rt, insert_error env rt = None).

(** A remote table whose routes can be read. *)
Definition readable (ext : ICloudRouteTable) : Prop :=
  ∃ cloudRoutes, GetIRoutes ext = inr cloudRoutes.

End RouteTables.

(** * The security-rule comparator ([pkg/cloudprovider], [CompareRules])

    Of this comparator the sources hold one test, [TestAliyunRuleSync]
    (src/unnamed/part_002), which calls it with nine arguments and binds
    five rule sets.  Everything in this module is modelled from the
    specification (its sections 3 and 4.2). *)
Module SecRules.

(** Modelled from the spec: the direction (inbound, outbound) and the action
    (allow, deny) of a rule. *)
Inductive Direction : Type := DirIn | DirOut.
Inductive RuleAction : Type := Allow | Deny.

Global Instance Direction_eq_dec : EqDecision Direction.
Proof. solve_decision. Defined.
Global Instance RuleAction_eq_dec : EqDecision RuleAction.
Proof. solve_decision. Defined.

(** Modelled from the spec: a security-group rule as the data model has it,
    with direction, action, protocol, port range, peer (a CIDR, given by
    its address and prefix length, or a peer reference), priority, and the
    provenance flag (system default or user defined). *)
Record Rule : Type := mkRule {
  direction : Direction;
  action : RuleAction;
  protocol : string;
  port_start : Z;
  port_end : Z;
  peer : string;
  prefix_len : nat;
  priority : Z;
  is_default : bool
}.

Global Instance Rule_eq_dec : EqDecision Rule.
Proof. solve_decision. Defined.

(** Modelled from the spec: a rule with the priority it is assigned. *)
Definition set_priority (p : Z) (r : Rule) : Rule :=
  mkRule (direction r) (action r) (protocol r) (port_start r) (port_end r)
         (peer r) (prefix_len r) p (is_default r).

(** Modelled from the spec: two rules are common when they have the same
    (direction, action, protocol, ports, peer) tuple, regardless of the
    priority. *)
Definition same_policy (a b : Rule) : Prop :=
  direction a = direction b ∧ action a = action b ∧ protocol a = protocol b
  ∧ port_start a = port_start b ∧ port_end a = port_end b
  ∧ peer a = peer b ∧ prefix_len a = prefix_len b.

Global Instance same_policy_dec : RelDecision same_policy.
Proof. intros a b. unfold same_policy. apply _. Defined.

(** Modelled from the spec: the order in which rules to add receive their
    priorities, namely the order the local list implies (read here as: the
    higher local priority first), then the more specific CIDR first, then
    protocol and port ascending.  Rules this order does not separate keep
    their input order (the sort below is stable). *)
Definition rule_before (a b : Rule) : Prop :=
  (priority b < priority a)%Z
  ∨ (priority a = priority b
     ∧ (prefix_len b < prefix_len a
        ∨ (prefix_len a = prefix_len b
           ∧ (strict String.le (protocol a) (protocol b)
              ∨ (protocol a = protocol b
                 ∧ ((port_start a < port_start b)%Z
                    ∨ (port_start a = port_start b
                       ∧ (port_end a ≤ port_end b)%Z))))))).

Global Instance rule_before_dec : RelDecision rule_before.
Proof. intros a b. unfold rule_before, strict. apply _. Defined.

(** Modelled from the spec: rules the order does not separate. *)
Definition tied (a b : Rule) : Prop := rule_before a b ∧ rule_before b a.

Global Instance tied_dec : RelDecision tied.
Proof. intros a b. unfold tied. apply _. Defined.

(** Modelled from the spec: a stable sort by [rule_before] (insertion
    sort; an element is inserted before the first one it may precede). *)
Fixpoint insert_rule (r : Rule) (rs : list Rule) : list Rule :=
  match rs with
  | [] => [r]
  | x :: rest =>
      if decide (rule_before r x) then r :: rs else x :: insert_rule r rest
  end.

Definition sort_rules (rs : list Rule) : list Rule := foldr insert_rule [] rs.

(** Modelled from the spec: the default rule of a rule's direction, and
    whether a rule's direction is one of the requested ones. *)
Definition default_for (defaultIn defaultOut r : Rule) : Rule :=
  match direction r with DirIn => defaultIn | DirOut => defaultOut end.

Definition included (includeIn includeOut : bool) (r : Rule) : bool :=
  match direction r with DirIn => includeIn | DirOut => includeOut end.

(** Modelled from the spec: the rules of one direction. *)
Definition in_dir (d : Direction) (rs : list Rule) : list Rule :=
  filter (λ r, direction r = d) rs.

(** Modelled from the spec: the rules of [xs] with, and without, a partner
    of the same policy in [ys]. *)
Definition matched (xs ys : list Rule) : list Rule :=
  filter (λ x, Exists (same_policy x) ys) xs.

Definition unmatched (xs ys : list Rule) : list Rule :=
  filter (λ x, ¬ Exists (same_policy x) ys) xs.

(** Modelled from the spec: the free priority slots, that is the
    priorities of [minPriority .. maxPriority] no kept rule holds. *)
Definition free_slots (minPriority maxPriority : Z) (kept : list Rule) : list Z :=
  filter (λ p, p ∉ priority <$> kept)
         (seqZ minPriority (maxPriority - minPriority + 1)).

(** Modelled from the spec: the free slots are handed to the rules in
    order; [None] when there is no free slot left for a rule. *)
Fixpoint assign_priorities (slots : list Z) (rs : list Rule) : option (list Rule) :=
  match rs, slots with
  | [], _ => Some []
  | r :: rest, p :: slots' =>
      rest' ← assign_priorities slots' rest; Some (set_priority p r :: rest')
  | _ :: _, [] => None
  end.

(** Modelled from the spec: what a comparison answers, the five rule sets
    or the failure [PriorityExhaustedError]. *)
Inductive CompareResult : Type :=
  | Compared (common inAdds outAdds inDels outDels : list Rule)
  | PriorityExhaustedError.

Section RuleComparator.
(** Modelled from the spec: the reduction of a rule set to its canonical
    form (merging and splitting port ranges and CIDRs of equivalent policy).
    The specification names the step and leaves the procedure open, so the
    comparator takes it as a parameter. *)
Variable effective : list Rule → list Rule.

Variables minPriority maxPriority : Z.
Variables localRules remoteRules : list Rule.
Variables defaultIn defaultOut : Rule.
Variables allowOnly includeIn includeOut : bool.

(** Modelled from the spec: normalisation, that is canonical form, then
    only the requested directions, then without the rules that exactly equal
    the default rule of their direction. *)
Definition normalize (rules : list Rule) : list Rule :=
  filter (λ r, r ≠ default_for defaultIn defaultOut r)
    (filter (λ r, included includeIn includeOut r = true) (effective rules)).

(** Modelled from the spec: the desired rules (under [allowOnly] a local
    deny rule becomes the absence of a rule) and the actual ones. *)
Definition desired : list Rule :=
  if allowOnly then filter (λ r, action r = Allow) (normalize localRules)
  else normalize localRules.

Definition actual : list Rule := normalize remoteRules.

(** Modelled from the spec: the remote rules that stay, those to delete,
    and the local rules to add in the order they receive their priorities. *)
Definition kept_rules : list Rule := matched actual desired.
Definition rules_to_delete : list Rule := unmatched actual desired.
Definition rules_to_add : list Rule := sort_rules (unmatched desired actual).

(** Modelled from the spec: [cloudprovider.CompareRules] is not among the
    sources (only its call in [TestAliyunRuleSync] is).  Following the
    specification: both rule sets are normalised; a local and a remote rule
    are common when they have the same policy, whatever their priority;
    unmatched remote rules are deleted, unmatched local rules are added;
    the rules to add receive, in order, the free priorities of
    [minPriority, maxPriority] of their direction, and the comparison
    fails with [PriorityExhaustedError] when there is no free slot left. *)
Definition CompareRules : CompareResult :=
  match assign_priorities
          (free_slots minPriority maxPriority (in_dir DirIn kept_rules))
          (in_dir DirIn rules_to_add),
        assign_priorities
          (free_slots minPriority maxPriority (in_dir DirOut kept_rules))
          (in_dir DirOut rules_to_add)
  with
  | Some inAdds, Some outAdds =>
      Compared kept_rules inAdds outAdds
               (in_dir DirIn rules_to_delete) (in_dir DirOut rules_to_delete)
  | _, _ => PriorityExhaustedError
  end.

(** Modelled from the spec: the arrangements of the rules to add that the
    ordering rule allows, however the sort is carried out: the unmatched
    local rules, sorted by [rule_before], the rules this order does not
    separate in their input order. *)
Definition ordering_allows (ordered : list Rule) : Prop :=
  ordered ≡ₚ unmatched desired actual
  ∧ StronglySorted rule_before ordered
  ∧ ∀ a, filter (tied a) ordered = filter (tied a) (unmatched desired actual).

(** Modelled from the spec: what one invocation may answer.  The
    specification fixes the common rules, the rules to delete, the order in
    which the rules to add receive their priorities and that they receive
    the free priorities in order; it leaves the sorting procedure open, so
    an invocation is taken with any arrangement the ordering rule allows. *)
Definition invocation_answers (r : CompareResult) : Prop :=
  ∃ ordered,
    ordering_allows ordered
    ∧ r = match assign_priorities
                  (free_slots minPriority maxPriority (in_dir DirIn kept_rules))
                  (in_dir DirIn ordered),
                assign_priorities
                  (free_slots minPriority maxPriority (in_dir DirOut kept_rules))
                  (in_dir DirOut ordered)
          with
          | Some inAdds, Some outAdds =>
              Compared kept_rules inAdds outAdds
                       (in_dir DirIn rules_to_delete) (in_dir DirOut rules_to_delete)
          | _, _ => PriorityExhaustedError
          end.
End RuleComparator.

End SecRules.

(** * Merging tag values ([pkg/monitor/models], data sources) *)
Module DataSource.

(** [union] (src/pkg/monitor/models/datasource.go, lines 478-491): the
    elements of [slice1] are counted in a map; an element of [slice2] is
    appended when its count is zero.  The map is not updated in the second
    loop.  A count cannot overflow, a slice being shorter than 2^63. *)
Definition count_elems (slice : list string) : gmap string nat :=
  foldl (λ m v, <[v := S (default 0 (m !! v))]> m) ∅ slice.

Definition union (slice1 slice2 : list string) : list string :=
  let m := count_elems slice1 in
  foldl (λ slice1 v, if decide (default 0 (m !! v) = 0) then slice1 ++ [v] else slice1)
        slice1 slice2.

(** [tagValUnion] (lines 466-476) on the fields of the measurement it reads
    and writes: for each tag of [TagKey] that [rtn] has values for, the
    values are stored when the measurement has none for the tag, and
    merged with [union] otherwise.  [measurement.TagValue] is taken
    non-nil, as the one caller makes it. *)
Definition tagValUnion_tag (rtn : gmap string (list string))
    (TagValue : gmap string (list string)) (tag : string)
  : gmap string (list string) :=
  match rtn !! tag with
  | Some rtnTagVal =>
      match TagValue !! tag with
      | None => <[tag := rtnTagVal]> TagValue
      | Some cur => <[tag := union cur rtnTagVal]> TagValue
      end
  | None => TagValue
  end.

Definition tagValUnion (TagKey : list string)
    (TagValue rtn : gmap string (list string)) : gmap string (list string) :=
  foldl (tagValUnion_tag rtn) TagValue TagKey.

(** The values a tag has after [tagValUnion], by what it had and what
    [rtn] has. *)
Definition merged (rtn TagValue : gmap string (list string)) (tag : string)
  : option (list string) :=
  match rtn !! tag with
  | Some rtnTagVal =>
      Some (match TagValue !! tag with
            | None => rtnTagVal
            | Some cur => union cur rtnTagVal
            end)
  | None => TagValue !! tag
  end.

End DataSource.

(** * Joining URL paths and reading responses ([pkg/util/httputils]) *)
Module HttpUtils.

(** Go's [strings.TrimLeft] and [strings.TrimRight] on a string as its
    bytes: the leading (trailing) bytes that occur in the cutset are cut.
    For a cutset of ASCII characters this is what Go does, which trims
    code points: no byte of a longer code point is an ASCII character. *)
Fixpoint strings_TrimLeft (s cutset : list ascii) : list ascii :=
  match s with
  | [] => []
  | c :: rest => if decide (c ∈ cutset) then strings_TrimLeft rest cutset else s
  end.

Definition strings_TrimRight (s cutset : list ascii) : list ascii :=
  reverse (strings_TrimLeft (reverse s) cutset).

Definition slash : list ascii := ["/"%char].

(** [JoinPath] (src/pkg/util/httputils/httputils.go, lines 814-816). *)
Definition JoinPath (ep path : list ascii) : list ascii :=
  strings_TrimRight ep slash ++ slash ++ strings_TrimLeft path slash.

(** [JSONClientError] (src/pkg/util/httputils/httputils.go, lines 75-80);
    [Data] is never written by the functions embedded here and is left
    out. *)
Record JSONClientError : Type := mkJSONClientError {
  Code : Z;
  Class : string;
  Details : string
}.

(** A Go [error] as these functions tell them apart: nil is [None]; a
    [*JSONClientError], or another error with its text. *)
Inductive goerror : Type :=
  | ClientError (ce : JSONClientError)
  | OtherError (msg : string).

(** What [Cause] answers: [errors.Error(class)] or one of the three errors
    of package [errors]. *)
Inductive cause : Type :=
  | ErrorOfClass (class : string)
  | ErrServer
  | ErrClient
  | ErrUnclassified.

(** [JSONClientError.Cause] (lines 174-184). *)
Definition Cause (err : JSONClientError) : cause :=
  if decide (0 < String.length (Class err)) then ErrorOfClass (Class err)
  else if decide (500 ≤ Code err)%Z then ErrServer
  else if decide (400 ≤ Code err)%Z then ErrClient
  else ErrUnclassified.

(** [ErrorCode] (lines 186-195) and [ErrorMsg] (lines 197-206). *)
Definition ErrorCode (err : option goerror) : Z :=
  match err with
  | None => 0
  | Some (ClientError je) => Code je
  | Some (OtherError _) => -1
  end.

Definition ErrorMsg (err : option goerror) : string :=
  match err with
  | None => ""
  | Some (ClientError je) => Details je
  | Some (OtherError msg) => msg
  end.

(** An [*http.Response] as [ParseResponse] reads it: the status code and
    line, the [Location] header, the headers as a whole, and what reading
    the body gives (the bytes, or the text of the read error). *)
Record Response : Type := mkResponse {
  StatusCode : Z;
  Status : string;
  Location : string;
  Header : list (string * string);
  ReadAll : string + string
}.

(** [ParseResponse] (lines 563-605), without the debug output: its
    arguments are the response, or the text of the transport error (with no
    error the response is taken non-nil, as [http.Client] answers it). *)
Definition ParseResponse (resp : string + Response)
  : option (list (string * string)) * option string * option goerror :=
  match resp with
  | inl err => (None, None, Some (ClientError (mkJSONClientError 499 "" err)))
  | inr resp =>
      match ReadAll resp with
      | inl err => (None, None, Some (OtherError ("Fail to read body: " +:+ err)))
      | inr rbody =>
          if decide (StatusCode resp < 300)%Z then (Some (Header resp), Some rbody, None)
          else if decide (300 ≤ StatusCode resp ∧ StatusCode resp < 400)%Z then
            (None, None,
             Some (ClientError (mkJSONClientError (StatusCode resp) "redirect"
                                  (Location resp))))
          else
            (None, None,
             Some (ClientError
                     (mkJSONClientError (StatusCode resp) ""
                        (if decide (0 < String.length rbody) then rbody
                         else Status resp))))
      end
  end.

End HttpUtils.

(** * Disk and server creation inputs ([pkg/apis/compute]) *)
Module DiskApi.

(** A [*DiskConfig]: nil, or the address of a disk configuration.  The
    struct is declared outside the sources, and the two conversions only
    pass the pointer along. *)
Definition DiskConfigPtr : Type := option nat.

(** [DiskCreateInput] (src/pkg/apis/compute/disk.go, lines 20-45) with the
    fields of the embedded [apis.VirtualResourceCreateInput] that the
    conversions read or write; [ServerCreateInput] and its embedded pointer
    to [ServerConfigs], as far as the conversions read or write them.  The
    fields neither conversion mentions are left at their zero values by
    both. *)
Record DiskCreateInput : Type := mkDiskCreateInput {
  d_Name : string;
  d_Project : string;
  d_ProjectId : string;
  d_Domain : string;
  d_DomainId : string;
  d_DiskConfig : DiskConfigPtr;
  d_PreferRegion : string;
  d_PreferZone : string;
  d_PreferWire : string;
  d_PreferHost : string;
  d_Hypervisor : string
}.

Record ServerConfigs : Type := mkServerConfigs {
  PreferRegion : string;
  PreferZone : string;
  PreferWire : string;
  PreferHost : string;
  Hypervisor : string;
  Disks : list DiskConfigPtr
}.

Record ServerCreateInput : Type := mkServerCreateInput {
  s_Name : string;
  s_Project : string;
  s_ProjectId : string;
  s_Domain : string;
  s_DomainId : string;
  s_ServerConfigs : option ServerConfigs
}.

(** [ToServerCreateInput] (lines 48-67). *)
Definition ToServerCreateInput (req : DiskCreateInput) : ServerCreateInput :=
  mkServerCreateInput (d_Name req) (d_Project req) (d_ProjectId req)
    (d_Domain req) (d_DomainId req)
    (Some (mkServerConfigs (d_PreferRegion req) (d_PreferZone req)
             (d_PreferWire req) (d_PreferHost req) (d_Hypervisor req)
             [d_DiskConfig req])).

(** [ToDiskCreateInput] (lines 69-82): [req.Disks[0]] and the other fields
    of the configuration are read through the embedded pointer, so a nil
    pointer or an empty list of disks panics.  The project id and the
    domain id are not copied. *)
Definition ToDiskCreateInput (req : ServerCreateInput) : Outcome DiskCreateInput :=
  match s_ServerConfigs req with
  | None => Panics
  | Some conf =>
      match Disks conf with
      | [] => Panics
      | disk :: _ =>
          Returns (mkDiskCreateInput (s_Name req) (s_Project req) "" (s_Domain req) ""
                     disk (PreferRegion conf) (PreferZone conf) (PreferWire conf)
                     (PreferHost conf) (Hypervisor conf))
      end
  end.


End DiskApi.

(** * Suggestion rules: drivers and validation ([pkg/monitor/models]) *)
Module SuggestRules.

(** [EIPUnused] and [SSuggestSysAlertSetting]
    (src/pkg/apis/monitor/suggestsysrule.go, lines 53-59); the pointer in
    the setting is [None] when nil. *)
Record EIPUnused : Type := mkEIPUnused {
  Status : string
}.

Record SSuggestSysAlertSetting : Type := mkSetting {
  setting_EIPUnused : option EIPUnused
}.

(** The errors of the two validations: the two input-parameter errors they
    make, and the driver's error, wrapped. *)
Inductive rule_error : Type :=
  | InvalidPeriodFormat (period : string)
  | NotSupportType (type : string)
  | ValidateSettingError (cause : error).

(** [ISuggestSysRuleDriver] (src/pkg/monitor/models/suggestsysrule.go,
    lines 40-45), with the two methods the registry and the validations
    call; the setting is handed over as a pointer. *)
Record ISuggestSysRuleDriver : Type := mkDriver {
  GetType : string;
  ValidateSetting : option SSuggestSysAlertSetting → option error
}.

(** [RegisterSuggestSysRuleDrivers] (lines 47-51) on the package's map
    [suggestSysRuleDrivers]. *)
Definition RegisterSuggestSysRuleDrivers
    (suggestSysRuleDrivers : gmap string ISuggestSysRuleDriver)
    (drvs : list ISuggestSysRuleDriver) : gmap string ISuggestSysRuleDriver :=
  foldl (λ m drv, <[GetType drv := drv]> m) suggestSysRuleDrivers drvs.

(** The fields of [monitor.SuggestSysRuleCreateInput] and
    [monitor.SuggestSysRuleUpdateInput] (src/pkg/apis/monitor/
    suggestsysrule.go, lines 23-42) that the validations read or write. *)
Record RuleInput : Type := mkRuleInput {
  Period : string;
  rule_Type : string;
  Setting : option SSuggestSysAlertSetting
}.

(** The period with its default (30s) filled in, the first step of both
    validations. *)
Definition with_default_period (data : RuleInput) : RuleInput :=
  if decide (Period data = "")
  then mkRuleInput "30s" (rule_Type data) (Setting data)
  else data.

(** [ValidateCreateData] (src/pkg/monitor/models/suggestsysrule.go, lines
    131-151).  [ParseDuration_ok] is whether [time.ParseDuration] accepts
    the period. *)
Definition ValidateCreateData (ParseDuration_ok : string → bool)
    (suggestSysRuleDrivers : gmap string ISuggestSysRuleDriver)
    (data : RuleInput) : rule_error + RuleInput :=
  let data := with_default_period data in
  if negb (ParseDuration_ok (Period data)) then inl (InvalidPeriodFormat (Period data))
  else
    match suggestSysRuleDrivers !! rule_Type data with
    | None => inl (NotSupportType (rule_Type data))
    | Some dri =>
        match ValidateSetting dri (Setting data) with
        | Some err => inl (ValidateSettingError err)
        | None => inr data
        end
    end.

(** [ValidateUpdateData] (lines 153-169) of a rule of type [ruleType]: the
    driver is taken from the map without a check, and a method called on
    the nil interface value of a missing key panics.  The input is answered
    together with the error. *)
Definition ValidateUpdateData (ParseDuration_ok : string → bool)
    (suggestSysRuleDrivers : gmap string ISuggestSysRuleDriver)
    (ruleType : string) (data : RuleInput) : Outcome (RuleInput * option rule_error) :=
  let data := with_default_period data in
  if negb (ParseDuration_ok (Period data))
  then Returns (data, Some (InvalidPeriodFormat (Period data)))
  else
    match suggestSysRuleDrivers !! ruleType with
    | None => Panics
    | Some dri =>
        match ValidateSetting dri (Setting data) with
        | Some err => Returns (data, Some (ValidateSettingError err))
        | None => Returns (data, None)
        end
    end.

End SuggestRules.

(** * Sample inputs

    Concrete collaborators, tables and rule sets on which the statements
    below are run. *)
Module Samples.
Import Store RouteTables SecRules.

(** Collaborators that never fail; identifiers are numbered by table size. *)
Definition env_ok : Env :=
  mkEnv None (λ _, None) (λ _, None) (λ _, None) (λ _, None) (λ _, None)
        (λ tbl, "id-" +:+ pretty (length tbl)) (λ _ _, true) (λ _, true).

(** The same, except that validation refuses to delete the row "3". *)
Definition env_row3_in_use : Env :=
  mkEnv None (λ _, None)
        (λ rt, if decide (Id rt = "3") then Some (ValidationError "in use") else None)
        (λ _, None) (λ _, None) (λ _, None)
        (λ tbl, "id-" +:+ pretty (length tbl)) (λ _ _, true) (λ _, true).

(** The same as [env_ok], except that the store cannot be queried. *)
Definition env_fetch_fails : Env :=
  mkEnv (Some (TransientIOError "store unreachable")) (λ _, None) (λ _, None)
        (λ _, None) (λ _, None) (λ _, None)
        (λ tbl, "id-" +:+ pretty (length tbl)) (λ _ _, true) (λ _, true).

Definition cred : TokenCredential := mkCred "project" "domain".
Definition vpc1 : SVpc := mkVpc "vpc1" "prod".

Definition row (id name externalId vpcId : string) : SRouteTable :=
  mkRouteTable id name "" "project" "domain" externalId vpcId "VPC" [].

Definition rtA : SRouteTable := row "1" "tA" "A" "vpc1".
Definition rtB : SRouteTable := row "2" "tB" "B" "vpc1".
(** A row of another VPC that already holds the name "tC". *)
Definition rtX : SRouteTable := row "9" "tC" "X" "vpc2".

Definition extB : ICloudRouteTable :=
  mkCloudRouteTable "B" "tB" "table B" "Custom"
    (inr [mkCloudRoute "system" "10.0.0.0/8" "local" ""]) [("owner", "net")].
Definition extC : ICloudRouteTable :=
  mkCloudRouteTable "C" "tC" "table C" "VPC" (inr []) [].

Definition world_AB : World := mkWorld [rtA; rtB; rtX] [] ∅ [].

(** Five rows of one VPC, none of them known to the provider any more. *)
Definition five_rows : list SRouteTable :=
  [row "1" "t1" "E1" "vpc1"; row "2" "t2" "E2" "vpc1"; row "3" "t3" "E3" "vpc1";
   row "4" "t4" "E4" "vpc1"; row "5" "t5" "E5" "vpc1"].

Definition world_five : World := mkWorld five_rows [] ∅ [].

(** Rules in the notation of the rule-sync test: direction, action,
    protocol, one port, priority; any peer. *)
Definition rule (d : Direction) (a : RuleAction) (proto : string) (port prio : Z)
  : Rule :=
  mkRule d a proto port port "0.0.0.0" 0 prio false.

Definition default_in : Rule :=
  mkRule DirIn Deny "any" 0 65535 "0.0.0.0" 0 100 true.
Definition default_out : Rule :=
  mkRule DirOut Allow "any" 0 65535 "0.0.0.0" 0 100 true.

(** The local and remote rules of [TestAliyunRuleSync]. *)
Definition aliyun_local : list Rule :=
  [rule DirIn Allow "tcp" 1212 52; rule DirIn Allow "tcp" 22 51;
   rule DirIn Allow "tcp" 3389 50; rule DirIn Allow "udp" 1231 49;
   rule DirIn Deny "tcp" 443 48].

Definition aliyun_remote : list Rule :=
  [rule DirIn Deny "tcp" 443 1; rule DirIn Allow "udp" 1231 1;
   rule DirIn Allow "tcp" 3389 100; rule DirIn Allow "tcp" 22 100;
   rule DirIn Allow "tcp" 1212 100].

(** A network library for examples: a CIDR with a slash is rewritten to a
    fixed network, an address without one is accepted. *)
Definition net_sample : NetLib :=
  mkNetLib (λ s, if decide (s = "bad/") then inl (ValidationError "invalid CIDR address")
                 else inr "10.0.0.0/8")
           (λ s, bool_decide (s ≠ "")).

End Samples.

(** * Theorems *)

Import Compare Store RouteTables SecRules Samples.


Section CompareSets_facts.
Context {T U : Type}.
Variable keyT : T → string.
Variable keyU : U → string.

Lemma duplicate_key_None (ks : list string) :
  Compare.duplicate_key ks = None ↔ NoDup ks.
Proof.
  induction ks as [|k ks IH]; simpl.
  - split; [constructor | done].
  - rewrite NoDup_cons. case_bool_decide as Hk.
    + split; [done | intros [? _]; done].
    + rewrite IH. tauto.
Qed.

Lemma duplicate_key_Some (ks : list string) (k : string) :
  Compare.duplicate_key ks = Some k → k ∈ ks ∧ ¬ NoDup ks.
Proof.
  induction ks as [|k' ks IH]; simpl; [done|].
  case_bool_decide as Hk.
  - intros [= ->]. split; [left | ]. rewrite NoDup_cons. tauto.
  - intros Hd. destruct (IH Hd) as [Hin Hnd]. split; [by right|].
    rewrite NoDup_cons. tauto.
Qed.

Lemma key_index_Some {A : Type} (key : A → string) (xs : list A) (k : string) (i : nat) :
  NoDup (key <$> xs) →
  Compare.key_index key xs !! k = Some i ↔ ∃ x, xs !! i = Some x ∧ key x = k.
Proof.
  intros Hnd. unfold Compare.key_index.
  rewrite <- elem_of_list_to_map
    by (rewrite fst_zip; [done | by rewrite length_fmap, length_seq]).
  rewrite list_elem_of_lookup. split.
  - intros [j Hj]. apply lookup_zip_Some in Hj as [Hk Hs].
    apply lookup_seq in Hs as [-> _]. simpl in Hk.
    rewrite list_lookup_fmap in Hk.
    destruct (xs !! j) as [x|] eqn:Hx; [|done].
    exists x. by injection Hk as ->.
  - intros (x & Hx & <-). exists i. apply lookup_zip_Some. split.
    + by rewrite list_lookup_fmap, Hx.
    + apply lookup_seq. split; [done|]. by eapply lookup_lt_Some.
Qed.

Lemma key_index_None {A : Type} (key : A → string) (xs : list A) (k : string) :
  Compare.key_index key xs !! k = None ↔ k ∉ key <$> xs.
Proof.
  unfold Compare.key_index. rewrite <- not_elem_of_list_to_map.
  rewrite fst_zip; [done|]. by rewrite length_fmap, length_seq.
Qed.

Lemma partner_Some (remote : list U) (x : T) (y : U) :
  NoDup (keyU <$> remote) →
  Compare.partner keyT keyU remote x = Some y ↔ y ∈ remote ∧ keyU y = keyT x.
Proof.
  intros Hnd. unfold Compare.partner. split.
  - destruct (Compare.key_index keyU remote !! keyT x) as [j|] eqn:Hj; [|done].
    simpl. intros Hy. apply key_index_Some in Hj as (y' & Hy' & Hk); [|done].
    assert (y' = y) as -> by congruence.
    split; [by eapply list_elem_of_lookup_2 | done].
  - intros [Hin Hk]. apply list_elem_of_lookup in Hin as [j Hj].
    assert (Compare.key_index keyU remote !! keyT x = Some j) as ->.
    { apply key_index_Some; [done|]. by exists y. }
    done.
Qed.

Lemma partner_None (remote : list U) (x : T) :
  NoDup (keyU <$> remote) →
  Compare.partner keyT keyU remote x = None ↔ keyT x ∉ keyU <$> remote.
Proof.
  intros Hnd. rewrite <- key_index_None. unfold Compare.partner.
  destruct (Compare.key_index keyU remote !! keyT x) as [j|] eqn:Hj; [|done].
  apply key_index_Some in Hj as (y & Hy & Hk); [|done].
  simpl. rewrite Hy. done.
Qed.

Lemma common_pairs_fst (local : list T) (remote : list U) :
  NoDup (keyU <$> remote) →
  (Compare.common_pairs keyT keyU local remote).*1
  = filter (λ x, keyT x ∈ keyU <$> remote) local.
Proof.
  intros Hnd. unfold Compare.common_pairs.
  induction local as [|x local IH]; [done|]. simpl.
  destruct (Compare.partner keyT keyU remote x) as [y|] eqn:Hp; simpl.
  - apply partner_Some in Hp as [Hin Hk]; [|done].
    rewrite filter_cons_True.
    + f_equal. exact IH.
    + rewrite <- Hk. by apply list_elem_of_fmap_2.
  - apply partner_None in Hp; [|done]. rewrite filter_cons_False; done.
Qed.

Lemma common_pairs_keys (local : list T) (remote : list U) :
  NoDup (keyU <$> remote) →
  Forall (λ p, p.1 ∈ local ∧ p.2 ∈ remote ∧ keyT p.1 = keyU p.2)
         (Compare.common_pairs keyT keyU local remote).
Proof.
  intros Hnd. unfold Compare.common_pairs.
  induction local as [|x local IH]; [constructor|]. simpl.
  assert (Forall (λ p : T * U, p.1 ∈ x :: local ∧ p.2 ∈ remote ∧ keyT p.1 = keyU p.2)
            (omap (λ x0, y ← Compare.partner keyT keyU remote x0; Some (x0, y)) local)).
  { eapply Forall_impl; [exact IH|]. intros p (? & ? & ?). split; [by right|done]. }
  destruct (Compare.partner keyT keyU remote x) as [y|] eqn:Hp; simpl; [|done].
  apply partner_Some in Hp as [Hin Hk]; [|done].
  constructor; [|done]. simpl. split; [left|done].
Qed.

Lemma common_pairs_snd_keys (local : list T) (remote : list U) :
  NoDup (keyU <$> remote) →
  keyT <$> (Compare.common_pairs keyT keyU local remote).*1
  = keyU <$> (Compare.common_pairs keyT keyU local remote).*2.
Proof.
  intros Hnd. pose proof (common_pairs_keys local remote Hnd) as HF.
  induction HF as [|p ps (_ & _ & Hk) _ IH]; [done|].
  rewrite !fmap_cons. by rewrite Hk, IH.
Qed.

Lemma common_pairs_snd_elem (local : list T) (remote : list U) (y : U) :
  NoDup (keyU <$> remote) →
  y ∈ (Compare.common_pairs keyT keyU local remote).*2
  ↔ y ∈ remote ∧ keyU y ∈ keyT <$> local.
Proof.
  intros Hnd. rewrite list_elem_of_fmap. split.
  - intros ([x y'] & -> & Hin). simpl.
    pose proof (common_pairs_keys local remote Hnd) as HF.
    rewrite Forall_forall in HF. destruct (HF _ Hin) as (Hx & Hy & Hk).
    simpl in *. split; [done|]. rewrite <- Hk. by apply list_elem_of_fmap_2.
  - intros [Hy Hk]. apply list_elem_of_fmap in Hk as (x & Hk & Hx).
    exists (x, y). split; [done|]. unfold Compare.common_pairs.
    apply list_elem_of_omap. exists x. split; [done|].
    assert (Compare.partner keyT keyU remote x = Some y) as ->; [|done].
    by apply partner_Some.
Qed.

(** Claim C4.  When neither side has a duplicate key, the comparator
    succeeds and its buckets partition the input: the local elements are
    exactly the removed ones and the local halves of the common pairs, the
    remote elements exactly the remote halves and the added ones (as
    multisets, so nothing is dropped and nothing doubled); the two halves of
    the common pairs carry the same keys at the same indices; every key of the
    input occurs exactly once across removed, common and added; and
    |removed| + |common| + |added| = |local| + |remote| - |common|. *)
Theorem CompareSets_partition (local : list T) (remote : list U) :
  NoDup (keyT <$> local) → NoDup (keyU <$> remote) →
  ∃ removed commondb commonext added,
    Compare.CompareSets keyT keyU local remote
      = inr (removed, commondb, commonext, added)
    ∧ local ≡ₚ removed ++ commondb
    ∧ remote ≡ₚ commonext ++ added
    ∧ keyT <$> commondb = keyU <$> commonext
    ∧ NoDup ((keyT <$> removed) ++ (keyT <$> commondb) ++ (keyU <$> added))
    ∧ (∀ k, k ∈ (keyT <$> local) ++ (keyU <$> remote)
            ↔ k ∈ (keyT <$> removed) ++ (keyT <$> commondb) ++ (keyU <$> added))
    ∧ length removed + length commondb + length added
      = length local + length remote - length commondb.
Proof.
  intros HndL HndR. unfold Compare.CompareSets.
  rewrite (proj2 (duplicate_key_None _) HndL), (proj2 (duplicate_key_None _) HndR).
  set (removed := filter (λ x, Compare.key_index keyU remote !! keyT x = None) local).
  set (added := filter (λ y, Compare.key_index keyT local !! keyU y = None) remote).
  set (pairs := Compare.common_pairs keyT keyU local remote).
  assert (Hrem : removed = filter (λ x, ¬ keyT x ∈ keyU <$> remote) local).
  { apply list_filter_iff. intros x. apply key_index_None. }
  assert (Hadd : added = filter (λ y, keyU y ∉ keyT <$> local) remote).
  { apply list_filter_iff. intros y. apply key_index_None. }
  assert (Hcom : pairs.*1 = filter (λ x, keyT x ∈ keyU <$> remote) local)
    by by apply common_pairs_fst.
  assert (Hkeys : keyT <$> pairs.*1 = keyU <$> pairs.*2)
    by by apply common_pairs_snd_keys.
  assert (HpL : local ≡ₚ removed ++ pairs.*1).
  { rewrite Hrem, Hcom. rewrite (comm (++)). symmetry. apply filter_app_complement. }
  assert (HndKL : NoDup (keyT <$> pairs.*1)).
  { eapply sublist_NoDup; [exact HndL|]. apply fmap_sublist. rewrite Hcom.
    apply sublist_filter. }
  assert (HpR : remote ≡ₚ pairs.*2 ++ added).
  { symmetry. apply NoDup_Permutation.
    - apply NoDup_app. split; [|split].
      + apply (NoDup_fmap_1 keyU). by rewrite <- Hkeys.
      + intros y Hy. apply common_pairs_snd_elem in Hy as [_ Hy]; [|done].
        rewrite Hadd. rewrite list_elem_of_filter. tauto.
      + rewrite Hadd. apply NoDup_filter. by apply (NoDup_fmap_1 keyU).
    - by apply (NoDup_fmap_1 keyU).
    - intros y. unfold pairs. rewrite elem_of_app, common_pairs_snd_elem by done.
      rewrite Hadd, list_elem_of_filter.
      destruct (decide (keyU y ∈ keyT <$> local)); tauto. }
  exists removed, pairs.*1, pairs.*2, added.
  split; [done|]. split; [done|]. split; [done|]. split; [done|].
  assert (HKL : keyT <$> local ≡ₚ (keyT <$> removed) ++ (keyT <$> pairs.*1))
    by by rewrite <- fmap_app, <- HpL.
  assert (HKR : keyU <$> remote ≡ₚ (keyT <$> pairs.*1) ++ (keyU <$> added))
    by by rewrite Hkeys, <- fmap_app, <- HpR.
  split; [|split].
  - rewrite app_assoc. apply NoDup_app. split; [by rewrite <- HKL|]. split.
    + intros k Hk. rewrite <- HKL in Hk. rewrite Hadd.
      rewrite list_elem_of_fmap. intros (y & -> & Hy).
      apply list_elem_of_filter in Hy as [Hy _]. done.
    + apply (sublist_NoDup _ (keyU <$> remote)); [done|]. apply fmap_sublist.
      apply sublist_filter.
  - intros k. rewrite !elem_of_app. rewrite HKL, HKR, !elem_of_app. tauto.
  - apply Permutation_length in HpL, HpR. rewrite length_app in HpL, HpR.
    assert (length pairs.*2 = length pairs.*1) by by rewrite !length_fmap.
    lia.
Qed.
End CompareSets_facts.

Lemma CompareSets_partition_witness :
  NoDup ((id : string → string) <$> ["A"; "B"])
  ∧ NoDup ((id : string → string) <$> ["B"; "C"])
  ∧ ∃ removed commondb commonext added,
      CompareSets (id : string → string) id ["A"; "B"] ["B"; "C"]
        = inr (removed, commondb, commonext, added)
      ∧ ["A"; "B"] ≡ₚ removed ++ commondb
      ∧ ["B"; "C"] ≡ₚ commonext ++ added
      ∧ id <$> commondb = id <$> commonext
      ∧ NoDup ((id <$> removed) ++ (id <$> commondb) ++ (id <$> added))
      ∧ (∀ k, k ∈ (id <$> ["A"; "B"]) ++ (id <$> ["B"; "C"])
              ↔ k ∈ (id <$> removed) ++ (id <$> commondb) ++ (id <$> added))
      ∧ length removed + length commondb + length added
        = length ["A"; "B"] + length ["B"; "C"] - length commondb.
Proof.
  assert (H1 : NoDup ((id : string → string) <$> ["A"; "B"])) by compute_done.
  assert (H2 : NoDup ((id : string → string) <$> ["B"; "C"])) by compute_done.
  split; [exact H1|]. split; [exact H2|].
  exact (CompareSets_partition id id ["A"; "B"] ["B"; "C"] H1 H2).
Defined.

(** The buckets of the route-table scenario, computed. *)
Example CompareSets_AB_BC :
  CompareSets (id : string → string) id ["A"; "B"] ["B"; "C"]
  = inr (["A"], ["B"], ["B"], ["C"]).
Proof. vm_compute. reflexivity. Qed.

(** Last-wins is not the policy: a duplicate key is refused. *)
Example CompareSets_duplicate_refused :
  CompareSets (id : string → string) id ["A"; "A"] ["B"]
  = inl (AmbiguousKeyError "A").
Proof. vm_compute. reflexivity. Qed.

Ltac unfold_M :=
  unfold mbind, M_bind, mret, M_ret, get_tbl, put_tbl, record_call,
    append_opslog, modify_metadata in *.

Lemma GenerateName_run env basename w :
  GenerateName env basename w =
    (match name_error env basename with
     | Some err => inl err
     | None => match free_name (Name <$> route_tables_tbl w) basename with
               | Some newName => inr newName
               | None => inl (TransientIOError "no free name")
               end
     end, w).
Proof.
  unfold GenerateName. destruct (name_error env basename); [done|].
  unfold_M. by destruct (free_name _ _).
Qed.

Lemma newRouteTableFromCloud_readonly env userCred vpc ext w :
  (newRouteTableFromCloud env userCred vpc ext w).2 = w.
Proof.
  unfold newRouteTableFromCloud. destruct (GetIRoutes ext); [done|].
  unfold mbind, M_bind. rewrite GenerateName_run.
  by repeat case_match.
Qed.

Lemma newRouteTableFromCloud_tbl env userCred vpc ext w1 w2 :
  route_tables_tbl w1 = route_tables_tbl w2 →
  (newRouteTableFromCloud env userCred vpc ext w1).1
  = (newRouteTableFromCloud env userCred vpc ext w2).1.
Proof.
  intros Htbl. unfold newRouteTableFromCloud. destruct (GetIRoutes ext); [done|].
  unfold mbind, M_bind. rewrite !GenerateName_run, Htbl.
  by repeat case_match.
Qed.

Lemma OpsLog_LogEvent_run env act id w :
  OpsLog_LogEvent env act id w = (tt, logged_world env act id w).
Proof.
  unfold OpsLog_LogEvent, logged_world. unfold_M. simpl.
  by destruct (opslog_ok env act id).
Qed.

Lemma syncRemoveCloudRouteTable_run env rt w :
  syncRemoveCloudRouteTable env rt w =
    match validate_delete env rt with
    | Some err => (Some err, w)
    | None =>
      match delete_error env rt with
      | Some err => (Some err, with_calls w [CallDelete (Id rt) false])
      | None =>
          (None,
           mkWorld (filter (λ r, Id r ≠ Id rt) (route_tables_tbl w))
             (if opslog_ok env ACT_DELETE (Id rt)
              then opslogs w ++ [(ACT_DELETE, Id rt)] else opslogs w)
             (if metadata_ok env (Id rt)
              then delete (Id rt) (metadata w) else metadata w)
             (calls w ++ [CallDelete (Id rt) true; CallOpsLog ACT_DELETE (Id rt);
                          CallSyncMetadata (Id rt)]))
      end
    end.
Proof.
  unfold syncRemoveCloudRouteTable, ValidateDeleteCondition, RealDelete,
    SVirtualResourceBase_Delete.
  destruct (validate_delete env rt); [done|].
  destruct (delete_error env rt); [done|].
  unfold mbind, M_bind at 1. unfold_M. simpl.
  rewrite OpsLog_LogEvent_run. unfold logged_world. simpl.
  destruct (opslog_ok env ACT_DELETE (Id rt)), (metadata_ok env (Id rt)); simpl;
    by rewrite <- !app_assoc.
Qed.

Lemma syncMetadata_run env rt ext w :
  syncMetadata env rt ext w = (tt, synced_world env rt ext w).
Proof.
  unfold syncMetadata, synced_world. unfold_M. simpl.
  by destruct (metadata_ok env (Id rt)).
Qed.

Lemma SyncWithCloudRouteTable_run env userCred self vpc ext w :
  SyncWithCloudRouteTable env userCred self vpc ext w =
    match (newRouteTableFromCloud env userCred vpc ext w).1 with
    | inl err => (inl err, w)
    | inr routeTable =>
      match update_error env self with
      | Some err => (inl err, with_calls w [CallUpdate (Id self) false])
      | None =>
          (inr (updated_row self vpc routeTable),
           mkWorld
             ((λ rt, if decide (Id rt = Id self)
                     then updated_row self vpc routeTable else rt)
                <$> route_tables_tbl w)
             (if opslog_ok env ACT_SYNC_UPDATE (Id self)
              then opslogs w ++ [(ACT_SYNC_UPDATE, Id self)] else opslogs w)
             (metadata w)
             (calls w ++ [CallUpdate (Id self) true;
                          CallOpsLog ACT_SYNC_UPDATE (Id self)]))
      end
    end.
Proof.
  unfold SyncWithCloudRouteTable. unfold mbind, M_bind at 1.
  pose proof (newRouteTableFromCloud_readonly env userCred vpc ext w) as Hro.
  destruct (newRouteTableFromCloud env userCred vpc ext w) as [r w0].
  simpl in *. subst w0. destruct r as [err|routeTable]; [done|].
  unfold UpdateWithLock. fold (updated_row self vpc routeTable).
  destruct (update_error env self); [done|].
  unfold mbind, M_bind at 1. unfold_M. simpl.
  rewrite OpsLog_LogEvent_run. unfold logged_world. simpl.
  destruct (opslog_ok env ACT_SYNC_UPDATE (Id self)); simpl;
    by rewrite <- !app_assoc.
Qed.

Lemma insertFromCloud_run env userCred vpc ext w :
  insertFromCloud env userCred vpc ext w =
    match (newRouteTableFromCloud env userCred vpc ext w).1 with
    | inl err => (inl err, w)
    | inr routeTable =>
      let row := inserted_row env (route_tables_tbl w) routeTable in
      match insert_error env routeTable with
      | Some err => (inl err, with_calls w [CallInsert (Id row) false])
      | None =>
          (inr row,
           mkWorld (route_tables_tbl w ++ [row])
             (if opslog_ok env ACT_CREATE (Id row)
              then opslogs w ++ [(ACT_CREATE, Id row)] else opslogs w)
             (metadata w)
             (calls w ++ [CallInsert (Id row) true; CallOpsLog ACT_CREATE (Id row)]))
      end
    end.
Proof.
  unfold insertFromCloud. unfold mbind, M_bind at 1.
  pose proof (newRouteTableFromCloud_readonly env userCred vpc ext w) as Hro.
  destruct (newRouteTableFromCloud env userCred vpc ext w) as [r w0].
  simpl in *. subst w0. destruct r as [err|routeTable]; [done|].
  unfold Insert. fold (inserted_row env (route_tables_tbl w) routeTable).
  unfold mbind, M_bind at 1. unfold_M. simpl.
  fold (inserted_row env (route_tables_tbl w) routeTable).
  destruct (insert_error env routeTable); [done|]. simpl.
  rewrite OpsLog_LogEvent_run. unfold logged_world. simpl.
  destruct (opslog_ok env ACT_CREATE _); simpl; by rewrite <- !app_assoc.
Qed.

Lemma persisted_app env cs1 cs2 :
  persisted env (cs1 ++ cs2) = persisted env cs1 ++ persisted env cs2.
Proof. unfold persisted, logged. by rewrite omap_app, filter_app. Qed.

Lemma persisted_log env act id :
  persisted env [CallOpsLog act id]
  = if opslog_ok env act id then [(act, id)] else [].
Proof.
  unfold persisted, logged. simpl.
  destruct (opslog_ok env act id) eqn:Hok.
  - by rewrite filter_cons_True.
  - rewrite filter_cons_False; [done|]. simpl. congruence.
Qed.

Lemma opslogs_if env act id (l : list (Action * string)) :
  (if opslog_ok env act id then l ++ [(act, id)] else l)
  = l ++ persisted env [CallOpsLog act id].
Proof. rewrite persisted_log. destruct (opslog_ok env act id); [done|by rewrite app_nil_r]. Qed.

Lemma removeLoop_calls env removed res w res' w' :
  removeLoop env removed res w = (res', w') →
  ∃ evs, calls w' = calls w ++ evs ∧ delete_trace evs
         ∧ opslogs w' = opslogs w ++ persisted env evs.
Proof.
  revert res w. induction removed as [|rt removed IH]; intros res w; simpl.
  - intros [= <- <-]. exists []. rewrite !app_nil_r. split_and!; [done|constructor|done].
  - unfold mbind, M_bind at 1. rewrite syncRemoveCloudRouteTable_run.
    destruct (validate_delete env rt) as [err|]; [apply IH|].
    destruct (delete_error env rt) as [err|]; intros Hloop;
      apply IH in Hloop as (evs & Hc & Ht & Hl); simpl in *.
    + exists (CallDelete (Id rt) false :: evs). rewrite Hc, <- app_assoc.
      split_and!; [done|by constructor|done].
    + exists (CallDelete (Id rt) true :: CallOpsLog ACT_DELETE (Id rt)
                :: CallSyncMetadata (Id rt) :: evs).
      rewrite Hc, <- app_assoc. split_and!; [done|by constructor|].
      rewrite Hl, opslogs_if, <- app_assoc. f_equal.
      by rewrite <- persisted_app.
Qed.

Lemma updateLoop_calls env userCred vpc common acc w acc' w' :
  updateLoop env userCred vpc common acc w = (acc', w') →
  ∃ evs, calls w' = calls w ++ evs ∧ update_trace evs
         ∧ opslogs w' = opslogs w ++ persisted env evs.
Proof.
  revert acc w. induction common as [|[rt ext] common IH]; intros acc w; simpl.
  - intros [= <- <-]. exists []. rewrite !app_nil_r. split_and!; [done|constructor|done].
  - destruct acc as [[ls rs] res]. unfold mbind, M_bind at 1.
    rewrite SyncWithCloudRouteTable_run.
    destruct (newRouteTableFromCloud env userCred vpc ext w).1 as [err|routeTable];
      [apply IH|].
    destruct (update_error env rt) as [err|].
    + intros Hloop. apply IH in Hloop as (evs & Hc & Ht & Hl); simpl in *.
      exists (CallUpdate (Id rt) false :: evs). rewrite Hc, <- app_assoc.
      split_and!; [done|by constructor|done].
    + unfold mbind, M_bind at 1. rewrite syncMetadata_run. intros Hloop.
      apply IH in Hloop as (evs & Hc & Ht & Hl); simpl in *.
      exists (CallUpdate (Id rt) true :: CallOpsLog ACT_SYNC_UPDATE (Id rt)
                :: CallSyncMetadata (Id rt) :: evs).
      rewrite Hc, <- !app_assoc. split_and!; [done|by constructor|].
      rewrite Hl, opslogs_if, <- app_assoc. f_equal.
      by rewrite <- persisted_app.
Qed.

Lemma addLoop_calls env userCred vpc added acc w acc' w' :
  addLoop env userCred vpc added acc w = (acc', w') →
  ∃ evs, calls w' = calls w ++ evs ∧ insert_trace evs
         ∧ opslogs w' = opslogs w ++ persisted env evs.
Proof.
  revert acc w. induction added as [|ext added IH]; intros acc w; simpl.
  - intros [= <- <-]. exists []. rewrite !app_nil_r. split_and!; [done|constructor|done].
  - destruct acc as [[ls rs] res]. unfold mbind, M_bind at 1.
    rewrite insertFromCloud_run.
    destruct (newRouteTableFromCloud env userCred vpc ext w).1 as [err|routeTable];
      [apply IH|]. simpl.
    destruct (insert_error env routeTable) as [err|].
    + intros Hloop. apply IH in Hloop as (evs & Hc & Ht & Hl); simpl in *.
      eexists (CallInsert _ false :: evs). rewrite Hc, <- app_assoc.
      split_and!; [done|by constructor|done].
    + unfold mbind, M_bind at 1. rewrite syncMetadata_run. intros Hloop.
      apply IH in Hloop as (evs & Hc & Ht & Hl); simpl in *.
      eexists (CallInsert _ true :: CallOpsLog ACT_CREATE _
                :: CallSyncMetadata _ :: evs).
      rewrite Hc, <- !app_assoc. split_and!; [done|by constructor|].
      rewrite Hl, opslogs_if, <- app_assoc. f_equal.
      by rewrite <- persisted_app.
Qed.

Lemma append_empty_r (s : string) : s +:+ "" = s.
Proof.
  induction s as [|a s IH]; [done|].
  change (String a (s +:+ "") = String a s). by rewrite IH.
Qed.

Lemma name_candidates_suffixed basename n :
  name_candidates basename n = basename :: (suffixed basename <$> seq 1 n).
Proof. done. Qed.

Lemma suffixed_inj basename : Inj (=) (=) (suffixed basename).
Proof.
  intros i j Heq. unfold suffixed in Heq.
  apply String.app_inj in Heq. apply (String.app_inj "-") in Heq.
  by apply (inj pretty) in Heq.
Qed.

Lemma suffixed_ne basename i : suffixed basename i ≠ basename.
Proof.
  unfold suffixed. intros Heq.
  assert (basename +:+ "-" +:+ pretty i = basename +:+ "") as Heq'
    by by rewrite append_empty_r.
  apply String.app_inj in Heq'. discriminate.
Qed.

Lemma name_candidates_NoDup basename n : NoDup (name_candidates basename n).
Proof.
  rewrite name_candidates_suffixed. apply NoDup_cons. split.
  - rewrite list_elem_of_fmap. intros (i & Heq & _). by eapply suffixed_ne.
  - apply NoDup_fmap_2; [apply suffixed_inj | apply NoDup_seq].
Qed.

Lemma free_name_total (used : list string) (basename : string) :
  is_Some (free_name used basename).
Proof.
  unfold free_name.
  destruct (list_find _ _) as [[i c]|] eqn:Hfind; [by eexists|].
  exfalso. apply list_find_None in Hfind.
  assert (name_candidates basename (length used) ⊆+ used) as Hsub.
  { apply NoDup_submseteq; [apply name_candidates_NoDup|].
    intros c Hc. rewrite Forall_forall in Hfind.
    destruct (decide (c ∈ used)) as [|Hn]; [done|]. by destruct (Hfind c Hc). }
  apply submseteq_length in Hsub. simpl in Hsub.
  rewrite length_fmap, length_seq in Hsub. lia.
Qed.

Lemma free_name_spec (used : list string) (basename newName : string) :
  free_name used basename = Some newName →
  (newName ∉ used)
  ∧ (basename ∉ used → newName = basename)
  ∧ (basename ∈ used →
     ∃ n, 1 ≤ n ∧ newName = suffixed basename n
          ∧ ∀ m, 1 ≤ m < n → suffixed basename m ∈ used).
Proof.
  unfold free_name. destruct (list_find _ _) as [[i c]|] eqn:Hfind; [|done].
  simpl. intros [= ->]. apply list_find_Some in Hfind as (Hi & Hfree & Hmin).
  split; [done|]. rewrite name_candidates_suffixed in Hi, Hmin.
  destruct i as [|i]; simpl in Hi.
  - injection Hi as <-. split; [done|]. intros Hin. done.
  - split.
    + intros Hb. destruct (Hmin 0 basename); [done|lia|done].
    + intros _. rewrite list_lookup_fmap in Hi.
      destruct (seq 1 (length used) !! i) as [n|] eqn:Hn; [|done].
      injection Hi as <-. apply lookup_seq in Hn as [-> Hlt].
      exists (1 + i). split; [lia|]. split; [done|].
      intros m [Hm1 Hm2].
      destruct (decide (suffixed basename m ∈ used)) as [|Hnot]; [done|].
      destruct (Hmin m (suffixed basename m)); [|lia|done].
      simpl. destruct m as [|m]; [lia|]. simpl.
      rewrite list_lookup_fmap, lookup_seq_lt by lia. done.
Qed.

Lemma syncRemoveCloudRouteTable_outcome env rt w :
  (syncRemoveCloudRouteTable env rt w).1 = delete_outcome env rt.
Proof.
  rewrite syncRemoveCloudRouteTable_run. unfold delete_outcome.
  by repeat case_match.
Qed.

Lemma removeLoop_result env removed res w res' w' :
  removeLoop env removed res w = (res', w') →
  same_but_delete res res'
  ∧ DelErrs res' = DelErrs res ++ omap (delete_outcome env) removed
  ∧ DelCnt res' = DelCnt res
                  + length (filter (λ rt, delete_outcome env rt = None) removed).
Proof.
  revert res w. induction removed as [|rt removed IH]; intros res w.
  - simpl. intros [= <- <-]. unfold same_but_delete. rewrite app_nil_r.
    split_and!; try done; lia.
  - cbn [removeLoop]. unfold mbind, M_bind at 1.
    pose proof (syncRemoveCloudRouteTable_outcome env rt w) as Hout.
    destruct (syncRemoveCloudRouteTable env rt w) as [o w1]. simpl in Hout. subst o.
    intros Hloop. apply IH in Hloop as ((H1 & H2 & H3 & H4 & H5) & He & Hc).
    unfold same_but_delete. rewrite H1, H2, H3, H4, H5, He, Hc. simpl.
    destruct (delete_outcome env rt) as [err|] eqn:Hd; simpl.
    + rewrite filter_cons_False by (rewrite Hd; done).
      rewrite <- app_assoc. split_and!; done.
    + rewrite filter_cons_True by done. simpl. split_and!; try done; lia.
Qed.

Lemma updateLoop_result env userCred vpc common ls rs res w ls' rs' res' w' :
  updateLoop env userCred vpc common (ls, rs, res) w = ((ls', rs', res'), w') →
  ∃ rows exts,
    ls' = ls ++ rows ∧ rs' = rs ++ exts ∧ length rows = length exts
    ∧ same_but_update res res'
    ∧ UpdateCnt res' = UpdateCnt res + length rows
    ∧ length (UpdateErrs res') + length rows
      = length (UpdateErrs res) + length common.
Proof.
  revert ls rs res w. induction common as [|[rt ext] common IH]; intros ls rs res w.
  - simpl. intros [= <- <- <- <-]. exists [], []. rewrite !app_nil_r.
    unfold same_but_update. split_and!; try done; simpl; lia.
  - cbn [updateLoop]. unfold mbind, M_bind at 1.
    destruct (SyncWithCloudRouteTable env userCred rt vpc ext w) as [[err|rt'] w1].
    + intros Hloop. apply IH in Hloop
        as (rows & exts & -> & -> & Hlen & (H1 & H2 & H3 & H4 & H5) & Hc & He).
      exists rows, exts. unfold same_but_update. simpl in *.
      rewrite length_app in He. simpl in He.
      split_and!; try done; lia.
    + unfold mbind, M_bind at 1. destruct (syncMetadata env rt' ext w1) as [[] w2].
      intros Hloop. apply IH in Hloop
        as (rows & exts & -> & -> & Hlen & (H1 & H2 & H3 & H4 & H5) & Hc & He).
      exists (rt' :: rows), (ext :: exts). unfold same_but_update. simpl in *.
      rewrite <- !app_assoc. split_and!; try done; lia.
Qed.

Lemma newRouteTableFromCloud_inr env userCred vpc ext w routeTable :
  (newRouteTableFromCloud env userCred vpc ext w).1 = inr routeTable →
  ∃ cloudRoutes newName,
    GetIRoutes ext = inr cloudRoutes
    ∧ free_name (Name <$> route_tables_tbl w)
        (routeTableBasename (GetName ext) (vpc_Name vpc)) = Some newName
    ∧ routeTable = mkRouteTable "" newName (GetDescription ext)
                     (GetProjectId userCred) (GetProjectDomainId userCred)
                     (GetGlobalId ext) (vpc_Id vpc) (GetType ext)
                     (route_of_cloud <$> cloudRoutes).
Proof.
  unfold newRouteTableFromCloud. destruct (GetIRoutes ext) as [|cloudRoutes]; [done|].
  unfold mbind, M_bind. rewrite GenerateName_run.
  destruct (name_error env _); [done|].
  destruct (free_name _ _) as [newName|] eqn:Hfree; [|done].
  simpl. intros [= <-]. by exists cloudRoutes, newName.
Qed.

Lemma addLoop_result env userCred vpc added ls rs res w ls' rs' res' w' :
  addLoop env userCred vpc added (ls, rs, res) w = ((ls', rs', res'), w') →
  ∃ rows exts,
    ls' = ls ++ rows ∧ rs' = rs ++ exts
    ∧ route_tables_tbl w' = route_tables_tbl w ++ rows
    ∧ exts `sublist_of` added
    ∧ generated_names vpc (route_tables_tbl w) rows exts
    ∧ same_but_add res res'
    ∧ AddCnt res' = AddCnt res + length rows
    ∧ length (AddErrs res') + length rows = length (AddErrs res) + length added.
Proof.
  revert ls rs res w. induction added as [|ext added IH]; intros ls rs res w.
  - simpl. intros [= <- <- <- <-]. exists [], []. rewrite !app_nil_r.
    unfold same_but_add. split_and!; try done; simpl; lia.
  - cbn [addLoop]. unfold mbind, M_bind at 1. rewrite insertFromCloud_run.
    destruct (newRouteTableFromCloud env userCred vpc ext w).1
      as [err|routeTable] eqn:Hnew.
    { intros Hloop. apply IH in Hloop
        as (rows & exts & -> & -> & Ht & Hsub & Hgen & (H1 & H2 & H3 & H4 & H5) & Hc & He).
      exists rows, exts. unfold same_but_add. simpl in *.
      rewrite length_app in He. simpl in He.
      split_and!; try done; [by apply sublist_cons|lia]. }
    cbn zeta. destruct (insert_error env routeTable) as [err|].
    { intros Hloop. apply IH in Hloop
        as (rows & exts & -> & -> & Ht & Hsub & Hgen & (H1 & H2 & H3 & H4 & H5) & Hc & He).
      exists rows, exts. unfold same_but_add. simpl in *.
      rewrite length_app in He. simpl in He.
      split_and!; try done; [by apply sublist_cons|lia]. }
    unfold mbind, M_bind at 1. rewrite syncMetadata_run. intros Hloop.
    apply IH in Hloop
      as (rows & exts & -> & -> & Ht & Hsub & Hgen & (H1 & H2 & H3 & H4 & H5) & Hc & He).
    eexists (_ :: rows), (ext :: exts). unfold same_but_add. simpl in *.
    rewrite <- !app_assoc. split_and!; try done; try lia.
    + by rewrite Ht, <- app_assoc.
    + by apply sublist_skip.
    + by apply newRouteTableFromCloud_inr in Hnew as (? & ? & _ & ? & ->).
    + by apply newRouteTableFromCloud_inr in Hnew as (? & ? & _ & _ & ->).
    + by apply newRouteTableFromCloud_inr in Hnew as (? & ? & _ & _ & ->).
Qed.

Lemma applyBuckets_run env userCred vpc removed commondb commonext added w :
  applyBuckets env userCred vpc removed commondb commonext added w =
    let '(res1, w1) := removeLoop env removed emptyResult w in
    let '(acc2, w2) :=
      updateLoop env userCred vpc (zip commondb commonext) ([], [], res1) w1 in
    addLoop env userCred vpc added acc2 w2.
Proof.
  unfold applyBuckets, mbind, M_bind.
  destruct (removeLoop env removed emptyResult w) as [res1 w1].
  by destruct (updateLoop _ _ _ _ _ w1) as [acc2 w2].
Qed.

Lemma SyncRouteTables_fetch_failed env userCred vpc remotes w err :
  fetch_error env = Some err →
  SyncRouteTables env userCred vpc remotes w
  = ((None, None, Compare.Error err emptyResult), w).
Proof.
  intros Hf. unfold SyncRouteTables, FetchModelObjects, mbind, M_bind.
  by rewrite Hf.
Qed.

Lemma SyncRouteTables_compare_failed env userCred vpc remotes w err :
  fetch_error env = None →
  CompareSets ExternalId GetGlobalId (dbRouteTablesOf vpc w) remotes = inl err →
  SyncRouteTables env userCred vpc remotes w
  = ((None, None, Compare.Error err emptyResult), w).
Proof.
  intros Hf Hc. unfold SyncRouteTables, FetchModelObjects. rewrite Hf.
  unfold mbind, M_bind, mret, M_ret, get_tbl. simpl.
  unfold dbRouteTablesOf in Hc. by rewrite Hc.
Qed.

Lemma SyncRouteTables_applied env userCred vpc remotes w
    removed commondb commonext added :
  fetch_error env = None →
  CompareSets ExternalId GetGlobalId (dbRouteTablesOf vpc w) remotes
    = inr (removed, commondb, commonext, added) →
  SyncRouteTables env userCred vpc remotes w =
    let '((ls, rs, res), w') :=
      applyBuckets env userCred vpc removed commondb commonext added w in
    ((Some ls, Some rs, res), w').
Proof.
  intros Hf Hc. unfold SyncRouteTables, FetchModelObjects. rewrite Hf.
  unfold mbind, M_bind, mret, M_ret, get_tbl. simpl.
  unfold dbRouteTablesOf in Hc. rewrite Hc.
  by destruct (applyBuckets _ _ _ _ _ _ _ w) as [[[ls rs] res] w'].
Qed.

(** The calls of a whole pass: a run of deletions, then a run of updates,
    then a run of insertions. *)
Lemma SyncRouteTables_calls env userCred vpc remotes w :
  ∃ dels upds inss,
    calls (SyncRouteTables env userCred vpc remotes w).2
      = calls w ++ dels ++ upds ++ inss
    ∧ delete_trace dels ∧ update_trace upds ∧ insert_trace inss
    ∧ opslogs (SyncRouteTables env userCred vpc remotes w).2
      = opslogs w ++ persisted env (dels ++ upds ++ inss).
Proof.
  assert (Habort : ∃ dels upds inss,
    calls w = calls w ++ dels ++ upds ++ inss
    ∧ delete_trace dels ∧ update_trace upds ∧ insert_trace inss
    ∧ opslogs w = opslogs w ++ persisted env (dels ++ upds ++ inss)).
  { exists [], [], []. simpl. rewrite !app_nil_r.
    split_and!; try done; constructor. }
  destruct (fetch_error env) as [err|] eqn:Hf.
  { rewrite (SyncRouteTables_fetch_failed _ _ _ _ _ err Hf). apply Habort. }
  destruct (CompareSets ExternalId GetGlobalId (dbRouteTablesOf vpc w) remotes)
    as [err|[[[removed commondb] commonext] added]] eqn:Hc.
  { rewrite (SyncRouteTables_compare_failed _ _ _ _ _ err Hf Hc). apply Habort. }
  rewrite (SyncRouteTables_applied _ _ _ _ _ _ _ _ _ Hf Hc), applyBuckets_run.
  destruct (removeLoop env removed emptyResult w) as [res1 w1] eqn:H1.
  destruct (updateLoop _ _ _ _ _ w1) as [acc2 w2] eqn:H2.
  destruct (addLoop _ _ _ _ _ w2) as [[[ls rs] res] w3] eqn:H3.
  apply removeLoop_calls in H1 as (dels & Hc1 & Ht1 & Hl1).
  apply updateLoop_calls in H2 as (upds & Hc2 & Ht2 & Hl2).
  apply addLoop_calls in H3 as (inss & Hc3 & Ht3 & Hl3).
  exists dels, upds, inss. simpl.
  rewrite Hc3, Hc2, Hc1, Hl3, Hl2, Hl1, !persisted_app, <- !app_assoc.
  done.
Qed.

Lemma delete_trace_ops cs :
  delete_trace cs → Forall (λ c, ∀ o, store_op c = Some o → o = OpDelete) cs.
Proof.
  induction 1; repeat constructor; try done; by intros o [= <-].
Qed.

Lemma update_trace_ops cs :
  update_trace cs → Forall (λ c, ∀ o, store_op c = Some o → o = OpUpdate) cs.
Proof.
  induction 1; repeat constructor; try done; by intros o [= <-].
Qed.

Lemma insert_trace_ops cs :
  insert_trace cs → Forall (λ c, ∀ o, store_op c = Some o → o = OpInsert) cs.
Proof.
  induction 1; repeat constructor; try done; by intros o [= <-].
Qed.

Lemma omap_store_op_const (op : Op) (cs : list Call) :
  Forall (λ c, ∀ o, store_op c = Some o → o = op) cs →
  Forall (λ o, o = op) (omap store_op cs).
Proof.
  induction 1 as [|c cs Hc _ IH]; simpl; [constructor|].
  destruct (store_op c) as [o|] eqn:Ho; [|done].
  constructor; [by apply Hc|done].
Qed.

Lemma const_sorted (op : Op) (os : list Op) :
  Forall (λ o, o = op) os →
  StronglySorted (λ a b, op_rank a ≤ op_rank b) os.
Proof.
  induction 1 as [|o os -> Hos IH]; constructor; [done|].
  eapply Forall_impl; [exact Hos|]. by intros o ->.
Qed.

(** Claim C1.  The calls one pass of [SyncRouteTables] makes on the store
    split into three consecutive runs: the first holds no mutation but
    deletes, the second none but updates, the third none but inserts.  So
    every delete comes before every update, every update before every
    insert, and no insert precedes a delete or an update. *)
Theorem SyncRouteTables_order env userCred vpc remotes w :
  ∃ dels upds inss,
    calls (SyncRouteTables env userCred vpc remotes w).2
      = calls w ++ dels ++ upds ++ inss
    ∧ Forall (λ c, ∀ o, store_op c = Some o → o = OpDelete) dels
    ∧ Forall (λ c, ∀ o, store_op c = Some o → o = OpUpdate) upds
    ∧ Forall (λ c, ∀ o, store_op c = Some o → o = OpInsert) inss
    ∧ StronglySorted (λ a b, op_rank a ≤ op_rank b)
        (omap store_op (dels ++ upds ++ inss)).
Proof.
  destruct (SyncRouteTables_calls env userCred vpc remotes w)
    as (dels & upds & inss & Hcalls & Hd & Hu & Hi & _).
  apply delete_trace_ops in Hd. apply update_trace_ops in Hu.
  apply insert_trace_ops in Hi.
  exists dels, upds, inss. split_and!; try done.
  pose proof (omap_store_op_const _ _ Hd) as Hd'.
  pose proof (omap_store_op_const _ _ Hu) as Hu'.
  pose proof (omap_store_op_const _ _ Hi) as Hi'.
  rewrite !omap_app. rewrite Forall_forall in Hd', Hu', Hi'.
  apply StronglySorted_app_2; [| |apply StronglySorted_app_2].
  - intros o1 o2 H1 H2. rewrite (Hd' _ H1). simpl. lia.
  - by eapply const_sorted, Forall_forall.
  - intros o1 o2 H1 H2. rewrite (Hu' _ H1), (Hi' _ H2). simpl. lia.
  - by eapply const_sorted, Forall_forall.
  - by eapply const_sorted, Forall_forall.
Qed.

Lemma CompareSets_inr_length {T U} (keyT : T → string) (keyU : U → string)
    local remote removed commondb commonext added :
  CompareSets keyT keyU local remote = inr (removed, commondb, commonext, added) →
  length commondb = length commonext.
Proof.
  unfold CompareSets. repeat case_match; try done.
  intros [= <- <- <- <-]. by rewrite !length_fmap.
Qed.

Lemma CompareSets_duplicate {T U} (keyT : T → string) (keyU : U → string)
    local remote :
  ¬ NoDup (keyT <$> local) ∨ ¬ NoDup (keyU <$> remote) →
  ∃ k, CompareSets keyT keyU local remote = inl (AmbiguousKeyError k).
Proof.
  intros Hdup. unfold CompareSets.
  destruct (duplicate_key (keyT <$> local)) as [k|] eqn:HL; [by exists k|].
  destruct (duplicate_key (keyU <$> remote)) as [k|] eqn:HR; [by exists k|].
  apply duplicate_key_None in HL, HR. tauto.
Qed.

Lemma omap_filter_None_length {A B} (f : A → option B) (l : list A) :
  length (omap f l) + length (filter (λ x, f x = None) l) = length l.
Proof.
  induction l as [|x l IH]; [done|].
  destruct (f x) eqn:Hfx.
  - rewrite filter_cons_False by (rewrite Hfx; done).
    cbn [omap list_omap]. rewrite Hfx. simpl. lia.
  - rewrite filter_cons_True by done.
    cbn [omap list_omap]. rewrite Hfx. simpl. lia.
Qed.

(** Claim C2.  Once the local rows are fetched and compared, the pass always
    runs to its end and answers non-nil lists and a result without a
    pass-level error, whatever fails on the way: the delete errors are
    exactly the errors of the rows whose validation or delete failed, every
    other removed row is counted as deleted, and in each category successes
    and errors add up to the size of the bucket.  In particular, of five
    rows to delete of which validation refuses exactly one (and no delete
    fails), four are counted as deleted and one as a delete error. *)
Theorem SyncRouteTables_partial_failure env userCred vpc remotes w
    removed commondb commonext added :
  fetch_error env = None →
  CompareSets ExternalId GetGlobalId (dbRouteTablesOf vpc w) remotes
    = inr (removed, commondb, commonext, added) →
  ∃ ls rs res w',
    SyncRouteTables env userCred vpc remotes w = ((Some ls, Some rs, res), w')
    ∧ PassErrs res = []
    ∧ DelErrs res = omap (delete_outcome env) removed
    ∧ DelCnt res = length (filter (λ rt, delete_outcome env rt = None) removed)
    ∧ DelCnt res + DelErrCnt res = length removed
    ∧ UpdateCnt res + UpdateErrCnt res = length commondb
    ∧ AddCnt res + AddErrCnt res = length added
    ∧ length ls = UpdateCnt res + AddCnt res
    ∧ length rs = length ls
    ∧ (length removed = 5 →
       length (omap (validate_delete env) removed) = 1 →
       Forall (λ rt, delete_error env rt = None) removed →
       DelCnt res = 4 ∧ DelErrCnt res = 1).
Proof.
  intros Hf Hc. rewrite (SyncRouteTables_applied _ _ _ _ _ _ _ _ _ Hf Hc).
  rewrite applyBuckets_run.
  destruct (removeLoop env removed emptyResult w) as [res1 w1] eqn:H1.
  destruct (updateLoop _ _ _ _ _ w1) as [[[ls2 rs2] res2] w2] eqn:H2.
  destruct (addLoop _ _ _ _ _ w2) as [[[ls rs] res] w3] eqn:H3.
  exists ls, rs, res, w3. split; [done|].
  apply removeLoop_result in H1 as ((D1 & D2 & D3 & D4 & D5) & De & Dc).
  apply updateLoop_result in H2
    as (rows2 & exts2 & -> & -> & Hlen2 & (U1 & U2 & U3 & U4 & U5) & Uc & Ue).
  apply addLoop_result in H3
    as (rows3 & exts3 & -> & -> & _ & Hsub & Hgen & (A1 & A2 & A3 & A4 & A5) & Ac & Ae).
  apply CompareSets_inr_length in Hc.
  rewrite length_zip, <- Hc, Nat.min_id in Ue.
  simpl in *. unfold DelErrCnt, UpdateErrCnt, AddErrCnt.
  assert (Hdel : DelCnt res = length (filter (λ rt, delete_outcome env rt = None) removed))
    by (rewrite A3, U3, Dc; done).
  assert (Herr : DelErrs res = omap (delete_outcome env) removed)
    by (rewrite A4, U4, De; done).
  pose proof (omap_filter_None_length (delete_outcome env) removed) as Hsum.
  assert (Hsame : length rows3 = length exts3).
  { clear -Hgen. revert exts3 Hgen. generalize (route_tables_tbl w2).
    induction rows3 as [|row rows IH]; intros tbl [|ext exts]; simpl; try done.
    intros (_ & _ & _ & Hgen). f_equal. by eapply IH. }
  split_and!.
  - by rewrite A5, U5, D5.
  - done.
  - done.
  - rewrite Hdel, Herr. lia.
  - rewrite A1, A2, Uc, D3. rewrite D4 in Ue. simpl in *. lia.
  - rewrite Ac, U1, D1. rewrite U2, D2 in Ae. simpl in *. lia.
  - rewrite !length_app, Ac, A1, Uc, U1, D1, D3. simpl. lia.
  - rewrite !length_app. simpl. lia.
  - intros H5 Hone Hok.
    assert (omap (delete_outcome env) removed = omap (validate_delete env) removed) as Heq.
    { clear -Hok. induction Hok as [|rt l Hrt _ IH]; [done|].
      cbn [omap list_omap]. fold (omap (delete_outcome env) l).
      fold (omap (validate_delete env) l). rewrite IH.
      unfold delete_outcome. rewrite Hrt.
      by destruct (validate_delete env rt). }
    rewrite Hdel, Herr. rewrite Heq in Hsum |- *. lia.
Qed.

(** Claim C10.  When the query of the local route tables fails, or the
    comparison fails (as it does on a duplicate key on either side),
    [SyncRouteTables] answers nil for both lists and a result that holds
    that one error and nothing else, and leaves the world as it found it:
    no row deleted, updated or inserted, no call made. *)
Theorem SyncRouteTables_aborts env userCred vpc remotes w :
  (∀ err, fetch_error env = Some err →
     SyncRouteTables env userCred vpc remotes w
     = ((None, None, mkSyncResult 0 [] 0 [] 0 [] [err]), w))
  ∧ (∀ err, fetch_error env = None →
       CompareSets ExternalId GetGlobalId (dbRouteTablesOf vpc w) remotes = inl err →
       SyncRouteTables env userCred vpc remotes w
       = ((None, None, mkSyncResult 0 [] 0 [] 0 [] [err]), w))
  ∧ (fetch_error env = None →
     ¬ NoDup (ExternalId <$> dbRouteTablesOf vpc w)
     ∨ ¬ NoDup (GetGlobalId <$> remotes) →
     ∃ key, SyncRouteTables env userCred vpc remotes w
            = ((None, None, mkSyncResult 0 [] 0 [] 0 [] [AmbiguousKeyError key]), w)).
Proof.
  split_and!.
  - intros err Hf. by rewrite (SyncRouteTables_fetch_failed _ _ _ _ _ err Hf).
  - intros err Hf Hc. by rewrite (SyncRouteTables_compare_failed _ _ _ _ _ err Hf Hc).
  - intros Hf Hdup.
    destruct (CompareSets_duplicate ExternalId GetGlobalId _ _ Hdup) as [key Hc].
    exists key. by rewrite (SyncRouteTables_compare_failed _ _ _ _ _ _ Hf Hc).
Qed.

Section NoRollback.
Variable env : Env.
Variable log_ok : Action → string → bool.
Variable meta_ok : string → bool.
Let env' := with_side_effects log_ok meta_ok env.

Lemma newRouteTableFromCloud_side_effects userCred vpc ext w0 w :
  route_tables_tbl w0 = route_tables_tbl w →
  (newRouteTableFromCloud env' userCred vpc ext w0).1
  = (newRouteTableFromCloud env userCred vpc ext w).1.
Proof.
  intros Htbl. unfold newRouteTableFromCloud. destruct (GetIRoutes ext); [done|].
  unfold mbind, M_bind. rewrite !GenerateName_run, Htbl. simpl.
  by repeat case_match.
Qed.

Lemma removeLoop_side_effects removed res w0 w :
  route_tables_tbl w0 = route_tables_tbl w →
  (removeLoop env' removed res w0).1 = (removeLoop env removed res w).1
  ∧ route_tables_tbl (removeLoop env' removed res w0).2
    = route_tables_tbl (removeLoop env removed res w).2.
Proof.
  revert res w0 w. induction removed as [|rt removed IH]; intros res w0 w Htbl;
    [done|].
  cbn [removeLoop]. unfold mbind, M_bind.
  rewrite !syncRemoveCloudRouteTable_run. simpl.
  destruct (validate_delete env rt); [by apply IH|].
  destruct (delete_error env rt); apply IH; simpl; by rewrite ?Htbl.
Qed.

Lemma updateLoop_side_effects userCred vpc common acc w0 w :
  route_tables_tbl w0 = route_tables_tbl w →
  (updateLoop env' userCred vpc common acc w0).1
  = (updateLoop env userCred vpc common acc w).1
  ∧ route_tables_tbl (updateLoop env' userCred vpc common acc w0).2
    = route_tables_tbl (updateLoop env userCred vpc common acc w).2.
Proof.
  revert acc w0 w.
  induction common as [|[rt ext] common IH]; intros [[ls rs] res] w0 w Htbl;
    [done|].
  cbn [updateLoop]. unfold mbind, M_bind.
  rewrite !SyncWithCloudRouteTable_run.
  rewrite (newRouteTableFromCloud_side_effects userCred vpc ext w0 w Htbl). simpl.
  destruct (newRouteTableFromCloud env userCred vpc ext w).1; [by apply IH|].
  destruct (update_error env rt); [apply IH; simpl; by rewrite ?Htbl|].
  rewrite !syncMetadata_run. apply IH. simpl. by rewrite Htbl.
Qed.

Lemma addLoop_side_effects userCred vpc added acc w0 w :
  route_tables_tbl w0 = route_tables_tbl w →
  (addLoop env' userCred vpc added acc w0).1
  = (addLoop env userCred vpc added acc w).1
  ∧ route_tables_tbl (addLoop env' userCred vpc added acc w0).2
    = route_tables_tbl (addLoop env userCred vpc added acc w).2.
Proof.
  revert acc w0 w.
  induction added as [|ext added IH]; intros [[ls rs] res] w0 w Htbl; [done|].
  cbn [addLoop]. unfold mbind, M_bind.
  rewrite !insertFromCloud_run.
  rewrite (newRouteTableFromCloud_side_effects userCred vpc ext w0 w Htbl). simpl.
  destruct (newRouteTableFromCloud env userCred vpc ext w).1; [by apply IH|].
  rewrite Htbl. unfold inserted_row at 1 3 4 5. simpl.
  destruct (insert_error env s); [apply IH; simpl; by rewrite ?Htbl|].
  rewrite !syncMetadata_run. by apply IH.
Qed.

Lemma SyncRouteTables_side_effects_tbl userCred vpc remotes w0 w :
  route_tables_tbl w0 = route_tables_tbl w →
  (SyncRouteTables env' userCred vpc remotes w0).1
  = (SyncRouteTables env userCred vpc remotes w).1
  ∧ route_tables_tbl (SyncRouteTables env' userCred vpc remotes w0).2
    = route_tables_tbl (SyncRouteTables env userCred vpc remotes w).2.
Proof.
  intros Htbl.
  destruct (fetch_error env) as [err|] eqn:Hf.
  { rewrite (SyncRouteTables_fetch_failed env' _ _ _ _ err Hf).
    by rewrite (SyncRouteTables_fetch_failed env _ _ _ _ err Hf). }
  assert (Hdb : dbRouteTablesOf vpc w0 = dbRouteTablesOf vpc w)
    by (unfold dbRouteTablesOf; by rewrite Htbl).
  destruct (CompareSets ExternalId GetGlobalId (dbRouteTablesOf vpc w) remotes)
    as [err|[[[removed commondb] commonext] added]] eqn:Hc.
  { rewrite (SyncRouteTables_compare_failed env _ _ _ _ err Hf Hc).
    rewrite <- Hdb in Hc.
    by rewrite (SyncRouteTables_compare_failed env' _ _ _ _ err Hf Hc). }
  rewrite (SyncRouteTables_applied env _ _ _ _ _ _ _ _ Hf Hc).
  rewrite <- Hdb in Hc.
  rewrite (SyncRouteTables_applied env' _ _ _ _ _ _ _ _ Hf Hc).
  rewrite !applyBuckets_run.
  destruct (removeLoop_side_effects removed emptyResult w0 w Htbl) as [R1 R2].
  destruct (removeLoop env' removed emptyResult w0) as [res1' w1'].
  destruct (removeLoop env removed emptyResult w) as [res1 w1].
  simpl in R1, R2. subst res1'.
  destruct (updateLoop_side_effects userCred vpc (zip commondb commonext)
              ([], [], res1) w1' w1 R2) as [U1 U2].
  destruct (updateLoop env' _ _ _ _ w1') as [acc2' w2'].
  destruct (updateLoop env _ _ _ _ w1) as [acc2 w2].
  simpl in U1, U2. subst acc2'.
  destruct (addLoop_side_effects userCred vpc added acc2 w2' w2 U2) as [A1 A2].
  destruct (addLoop env' _ _ _ _ w2') as [[[ls' rs'] res'] w3'].
  destruct (addLoop env _ _ _ _ w2) as [[[ls rs] res] w3].
  simpl in *. by injection A1 as -> -> ->.
Qed.
End NoRollback.

Lemma delete_trace_audited cs id :
  delete_trace cs → CallDelete id true ∈ cs →
  CallOpsLog ACT_DELETE id ∈ cs ∧ CallSyncMetadata id ∈ cs.
Proof.
  induction 1 as [|id' cs _ IH|id' cs _ IH]; intros Hin.
  - by apply elem_of_nil in Hin.
  - apply elem_of_cons in Hin as [[=]|Hin]. destruct (IH Hin). split; by right.
  - rewrite !elem_of_cons in Hin. rewrite !elem_of_cons.
    destruct Hin as [[= ->]|[[=]|[[=]|Hin]]]; [by auto|].
    destruct (IH Hin). by auto 6.
Qed.

Lemma update_trace_audited cs id :
  update_trace cs → CallUpdate id true ∈ cs →
  CallOpsLog ACT_SYNC_UPDATE id ∈ cs ∧ CallSyncMetadata id ∈ cs.
Proof.
  induction 1 as [|id' cs _ IH|id' cs _ IH]; intros Hin.
  - by apply elem_of_nil in Hin.
  - apply elem_of_cons in Hin as [[=]|Hin]. destruct (IH Hin). split; by right.
  - rewrite !elem_of_cons in Hin. rewrite !elem_of_cons.
    destruct Hin as [[= ->]|[[=]|[[=]|Hin]]]; [by auto|].
    destruct (IH Hin). by auto 6.
Qed.

Lemma insert_trace_audited cs id :
  insert_trace cs → CallInsert id true ∈ cs →
  CallOpsLog ACT_CREATE id ∈ cs ∧ CallSyncMetadata id ∈ cs.
Proof.
  induction 1 as [|id' cs _ IH|id' cs _ IH]; intros Hin.
  - by apply elem_of_nil in Hin.
  - apply elem_of_cons in Hin as [[=]|Hin]. destruct (IH Hin). split; by right.
  - rewrite !elem_of_cons in Hin. rewrite !elem_of_cons.
    destruct Hin as [[= ->]|[[=]|[[=]|Hin]]]; [by auto|].
    destruct (IH Hin). by auto 6.
Qed.

Lemma elem_of_persisted env cs act id :
  CallOpsLog act id ∈ cs → opslog_ok env act id = true →
  (act, id) ∈ persisted env cs.
Proof.
  intros Hin Hok. unfold persisted, logged. apply list_elem_of_filter.
  split; [done|]. apply list_elem_of_omap. by exists (CallOpsLog act id).
Qed.

Lemma store_op_elem (op : Op) (cs : list Call) (c : Call) (o : Op) :
  Forall (λ c, ∀ o, store_op c = Some o → o = op) cs →
  c ∈ cs → store_op c = Some o → o = op.
Proof. rewrite Forall_forall. intros Hall Hin. by apply Hall. Qed.

(** Claim C8.  In the calls of a pass, every successful insert, update and
    delete is accompanied by a call of the audit logger for the same row
    and action and by a metadata synchronisation of that row, and every
    audit entry the logger manages to write is in the log afterwards.
    Whether the logger and the metadata step succeed changes neither the
    answer of the pass nor the rows of the table: their failure rolls
    nothing back. *)
Theorem SyncRouteTables_audit_and_metadata env userCred vpc remotes w :
  (∃ evs,
     calls (SyncRouteTables env userCred vpc remotes w).2 = calls w ++ evs
     ∧ (∀ id, CallInsert id true ∈ evs →
          CallOpsLog ACT_CREATE id ∈ evs ∧ CallSyncMetadata id ∈ evs)
     ∧ (∀ id, CallUpdate id true ∈ evs →
          CallOpsLog ACT_SYNC_UPDATE id ∈ evs ∧ CallSyncMetadata id ∈ evs)
     ∧ (∀ id, CallDelete id true ∈ evs →
          CallOpsLog ACT_DELETE id ∈ evs ∧ CallSyncMetadata id ∈ evs)
     ∧ (∀ act id, CallOpsLog act id ∈ evs → opslog_ok env act id = true →
          (act, id) ∈ opslogs (SyncRouteTables env userCred vpc remotes w).2))
  ∧ (∀ log_ok meta_ok,
       (SyncRouteTables (with_side_effects log_ok meta_ok env)
          userCred vpc remotes w).1
       = (SyncRouteTables env userCred vpc remotes w).1
       ∧ route_tables_tbl
           (SyncRouteTables (with_side_effects log_ok meta_ok env)
              userCred vpc remotes w).2
         = route_tables_tbl (SyncRouteTables env userCred vpc remotes w).2).
Proof.
  split.
  - destruct (SyncRouteTables_calls env userCred vpc remotes w)
      as (dels & upds & inss & Hcalls & Hd & Hu & Hi & Hlogs).
    pose proof (delete_trace_ops _ Hd) as Od.
    pose proof (update_trace_ops _ Hu) as Ou.
    pose proof (insert_trace_ops _ Hi) as Oi.
    exists (dels ++ upds ++ inss). split; [done|]. split_and!.
    + intros id. rewrite !elem_of_app. intros [Hin|[Hin|Hin]].
      * by pose proof (store_op_elem _ _ _ OpInsert Od Hin eq_refl).
      * by pose proof (store_op_elem _ _ _ OpInsert Ou Hin eq_refl).
      * destruct (insert_trace_audited _ _ Hi Hin). tauto.
    + intros id. rewrite !elem_of_app. intros [Hin|[Hin|Hin]].
      * by pose proof (store_op_elem _ _ _ OpUpdate Od Hin eq_refl).
      * destruct (update_trace_audited _ _ Hu Hin). tauto.
      * by pose proof (store_op_elem _ _ _ OpUpdate Oi Hin eq_refl).
    + intros id. rewrite !elem_of_app. intros [Hin|[Hin|Hin]].
      * destruct (delete_trace_audited _ _ Hd Hin). tauto.
      * by pose proof (store_op_elem _ _ _ OpDelete Ou Hin eq_refl).
      * by pose proof (store_op_elem _ _ _ OpDelete Oi Hin eq_refl).
    + intros act id Hin Hok. rewrite Hlogs. apply elem_of_app. right.
      by apply elem_of_persisted.
  - intros log_ok meta_ok. by apply SyncRouteTables_side_effects_tbl.
Qed.

Lemma generated_names_length vpc tbl rows exts :
  generated_names vpc tbl rows exts → length rows = length exts.
Proof.
  revert tbl exts. induction rows as [|row rows IH]; intros tbl [|ext exts];
    simpl; try done.
  intros (_ & _ & _ & Hgen). f_equal. by eapply IH.
Qed.

Lemma generated_names_lookup vpc tbl rows exts i row ext :
  generated_names vpc tbl rows exts →
  rows !! i = Some row → exts !! i = Some ext →
  free_name (Name <$> (tbl ++ take i rows))
    (routeTableBasename (GetName ext) (vpc_Name vpc)) = Some (Name row)
  ∧ ExternalId row = GetGlobalId ext
  ∧ VpcId row = vpc_Id vpc.
Proof.
  revert tbl exts i. induction rows as [|row0 rows IH]; intros tbl [|ext0 exts] i;
    simpl; try done.
  intros (Hfree & Hext & Hvpc & Hgen). destruct i as [|i]; simpl.
  - intros [= ->] [= ->]. by rewrite app_nil_r.
  - intros Hrow Hex. destruct (IH _ _ _ Hgen Hrow Hex) as (H1 & H2 & H3).
    by rewrite <- app_assoc in H1.
Qed.

(** Claim C9.  [routeTableBasename] is the remote name when that is not
    empty, else "rtbl-" followed by the VPC name when that is not empty, else
    "rtbl".  In a pass, the rows the add loop inserts are appended to the
    table in order, one per remote-only table that could be built and
    inserted; [Add] counts them and [AddError] the others.  Each such row
    carries the remote's global id, and its name is the one [free_name]
    answers for the remote's basename against the names in the table at that
    moment: a name no earlier row holds, the basename itself when it is free,
    and the basename with a numeric suffix otherwise. *)
Theorem SyncRouteTables_added_names env userCred vpc remotes w
    removed commondb commonext added :
  fetch_error env = None →
  CompareSets ExternalId GetGlobalId (dbRouteTablesOf vpc w) remotes
    = inr (removed, commondb, commonext, added) →
  (∀ name vpcName, name ≠ "" → routeTableBasename name vpcName = name)
  ∧ (∀ vpcName, vpcName ≠ "" → routeTableBasename "" vpcName = "rtbl-" +:+ vpcName)
  ∧ routeTableBasename "" "" = "rtbl"
  ∧ ∃ ls rs res w' tbl0 rows exts,
      SyncRouteTables env userCred vpc remotes w = ((Some ls, Some rs, res), w')
      ∧ route_tables_tbl w' = tbl0 ++ rows
      ∧ exts `sublist_of` added
      ∧ length exts = length rows
      ∧ AddCnt res = length rows
      ∧ AddErrCnt res = length added - length rows
      ∧ ∀ i row ext, rows !! i = Some row → exts !! i = Some ext →
          let basename := routeTableBasename (GetName ext) (vpc_Name vpc) in
          let used := Name <$> (tbl0 ++ take i rows) in
          ExternalId row = GetGlobalId ext
          ∧ VpcId row = vpc_Id vpc
          ∧ free_name used basename = Some (Name row)
          ∧ (Name row ∉ used)
          ∧ (basename ∉ used → Name row = basename)
          ∧ (basename ∈ used →
             ∃ n, 1 ≤ n ∧ Name row = basename +:+ "-" +:+ pretty n).
Proof.
  intros Hf Hc. split_and!.
  - intros name vpcName Hne. unfold routeTableBasename. by rewrite decide_True.
  - intros vpcName Hne. unfold routeTableBasename.
    rewrite decide_False by (intros H; by apply H). by rewrite decide_True.
  - done.
  - rewrite (SyncRouteTables_applied _ _ _ _ _ _ _ _ _ Hf Hc), applyBuckets_run.
    destruct (removeLoop env removed emptyResult w) as [res1 w1] eqn:H1.
    destruct (updateLoop _ _ _ _ _ w1) as [[[ls2 rs2] res2] w2] eqn:H2.
    destruct (addLoop _ _ _ _ _ w2) as [[[ls rs] res] w3] eqn:H3.
    apply removeLoop_result in H1 as ((D1 & D2 & _) & _).
    apply updateLoop_result in H2 as (_ & _ & _ & _ & _ & (U1 & U2 & _) & _).
    apply addLoop_result in H3
      as (rows & exts & -> & -> & Htbl & Hsub & Hgen & _ & Ac & Ae).
    exists (ls2 ++ rows), (rs2 ++ exts), res, w3, (route_tables_tbl w2), rows, exts.
    pose proof (generated_names_length _ _ _ _ Hgen) as Hlen.
    split_and!; try done.
    + rewrite Ac, U1, D1. simpl. lia.
    + unfold AddErrCnt. rewrite U2, D2 in Ae. simpl in Ae. lia.
    + intros i row ext Hrow Hext. cbn zeta.
      destruct (generated_names_lookup _ _ _ _ _ _ _ Hgen Hrow Hext)
        as (Hfree & Hext' & Hvpc).
      destruct (free_name_spec _ _ _ Hfree) as (Hfresh & Hbase & Hsuffix).
      split_and!; try done.
      intros Hin. destruct (Hsuffix Hin) as (n & Hn & Hname & _). by exists n.
Qed.

Lemma CompareSets_two_two {T U} (keyT : T → string) (keyU : U → string)
    (x y : T) (y' z : U) :
  keyT x ≠ keyT y → keyT y = keyU y' → keyU z ≠ keyT x → keyU z ≠ keyU y' →
  CompareSets keyT keyU [x; y] [y'; z] = inr ([x], [y], [y'], [z]).
Proof.
  intros Hxy Hyy Hzx Hzy.
  assert (NoDup (keyT <$> [x; y])) as HndL.
  { simpl. apply NoDup_cons. split; [|apply NoDup_singleton].
    by rewrite list_elem_of_singleton. }
  assert (NoDup (keyU <$> [y'; z])) as HndR.
  { simpl. apply NoDup_cons. split; [|apply NoDup_singleton].
    rewrite list_elem_of_singleton. congruence. }
  unfold CompareSets.
  rewrite (proj2 (duplicate_key_None _) HndL), (proj2 (duplicate_key_None _) HndR).
  assert (Hpx : partner keyT keyU [y'; z] x = None).
  { apply partner_None; [done|]. simpl. rewrite !not_elem_of_cons.
    split_and!; [congruence|congruence|apply not_elem_of_nil]. }
  assert (Hpy : partner keyT keyU [y'; z] y = Some y').
  { apply partner_Some; [done|]. split; [left|done]. }
  unfold common_pairs. cbn [omap list_omap]. rewrite Hpx, Hpy. simpl.
  rewrite (list_filter_iff _ (λ x0, keyT x0 ∉ keyU <$> [y'; z]))
    by (intros; apply key_index_None).
  rewrite (list_filter_iff (λ y0, key_index keyT [x; y] !! keyU y0 = None)
             (λ y0, keyU y0 ∉ keyT <$> [x; y]))
    by (intros; apply key_index_None).
  assert (keyT x ≠ keyU y') as Hxy' by congruence.
  rewrite (filter_cons_True _ x), (filter_cons_False _ y), filter_nil.
  - rewrite (filter_cons_False _ y'), (filter_cons_True _ z), filter_nil; [done| |].
    + simpl. rewrite !not_elem_of_cons. split_and!; [done|congruence|apply not_elem_of_nil].
    + simpl. intros Hn. apply Hn. rewrite Hyy. by right; left.
  - simpl. intros Hn. apply Hn. rewrite Hyy. by left.
  - simpl. rewrite !not_elem_of_cons. split_and!; [done|congruence|apply not_elem_of_nil].
Qed.

Lemma NoDup_fmap_inj_on {A B} (f : A → B) (l : list A) (x y : A) :
  NoDup (f <$> l) → x ∈ l → y ∈ l → f x = f y → x = y.
Proof.
  induction l as [|a l IH]; simpl; [by intros _ ?%elem_of_nil|].
  rewrite NoDup_cons. intros [Hna Hnd]. rewrite !elem_of_cons.
  intros [->|Hx] [->|Hy] Heq; try done.
  - destruct Hna. rewrite Heq. by apply list_elem_of_fmap_2.
  - destruct Hna. rewrite <- Heq. by apply list_elem_of_fmap_2.
  - by apply IH.
Qed.

Lemma filter_fmap_stable {A} (P : A → Prop) `{!∀ x, Decision (P x)}
    (f : A → A) (l : list A) :
  (∀ x, x ∈ l → P (f x) ↔ P x) →
  filter P (f <$> l) = f <$> filter P l.
Proof.
  induction l as [|a l IH]; intros Hst; [done|].
  rewrite fmap_cons. destruct (decide (P a)) as [Ha|Ha].
  - rewrite !filter_cons_True; [|done|by apply Hst; [left|]].
    rewrite fmap_cons, IH; [done|]. intros x Hx. apply Hst. by right.
  - rewrite !filter_cons_False; [|done|rewrite Hst; [done|left]].
    apply IH. intros x Hx. apply Hst. by right.
Qed.

Lemma newRouteTableFromCloud_ok env userCred vpc ext w cloudRoutes :
  GetIRoutes ext = inr cloudRoutes →
  name_error env (routeTableBasename (GetName ext) (vpc_Name vpc)) = None →
  ∃ newName,
    (newRouteTableFromCloud env userCred vpc ext w).1
    = inr (mkRouteTable "" newName (GetDescription ext)
             (GetProjectId userCred) (GetProjectDomainId userCred)
             (GetGlobalId ext) (vpc_Id vpc) (GetType ext)
             (route_of_cloud <$> cloudRoutes)).
Proof.
  intros Hroutes Hname. unfold newRouteTableFromCloud. rewrite Hroutes.
  unfold mbind, M_bind. rewrite GenerateName_run, Hname.
  destruct (free_name_total (Name <$> route_tables_tbl w)
              (routeTableBasename (GetName ext) (vpc_Name vpc))) as [newName ->].
  by exists newName.
Qed.

Lemma filter_comm {A} (P Q : A → Prop) `{!∀ x, Decision (P x)} `{!∀ x, Decision (Q x)}
    (l : list A) :
  filter P (filter Q l) = filter Q (filter P l).
Proof.
  rewrite !list_filter_filter. apply list_filter_iff. intros x. tauto.
Qed.

(** Claim C3.  Let the local rows of the VPC be [rtA; rtB] and the remote
    tables [extB; extC], with three distinct keys A, B (shared by [rtB] and
    [extB]) and C, and let no collaborator fail.  Then the comparison yields
    removed = [rtA], common pair = ([rtB], [extB]), added = [extC], and
    after the pass the VPC holds exactly two rows: [rtB] with type and
    routes taken from [extB], and a new row for [extC]; [rtA] is gone, the
    rows of other VPCs are as before, and the result counts one delete, one
    update and one add. *)
Theorem SyncRouteTables_scenario env userCred vpc w rtA rtB extB extC
    routesB routesC :
  fetch_error env = None →
  (∀ basename, name_error env basename = None) →
  validate_delete env rtA = None →
  delete_error env rtA = None →
  update_error env rtB = None →
  (∀ rt, insert_error env rt = None) →
  GetIRoutes extB = inr routesB →
  GetIRoutes extC = inr routesC →
  NoDup (Id <$> route_tables_tbl w) →
  dbRouteTablesOf vpc w = [rtA; rtB] →
  ExternalId rtA ≠ ExternalId rtB →
  ExternalId rtB = GetGlobalId extB →
  GetGlobalId extC ≠ ExternalId rtA →
  GetGlobalId extC ≠ GetGlobalId extB →
  CompareSets ExternalId GetGlobalId (dbRouteTablesOf vpc w) [extB; extC]
    = inr ([rtA], [rtB], [extB], [extC])
  ∧ ∃ rtB' rtC' w',
      SyncRouteTables env userCred vpc [extB; extC] w
        = ((Some [rtB'; rtC'], Some [extB; extC], mkSyncResult 1 [] 1 [] 1 [] []), w')
      ∧ dbRouteTablesOf vpc w' = [rtB'; rtC']
      ∧ rtB' = mkRouteTable (Id rtB) (Name rtB) (Description rtB) (ProjectId rtB)
                 (DomainId rtB) (ExternalId rtB) (vpc_Id vpc) (GetType extB)
                 (route_of_cloud <$> routesB)
      ∧ ExternalId rtC' = GetGlobalId extC
      ∧ rt_Type rtC' = GetType extC
      ∧ Routes rtC' = route_of_cloud <$> routesC
      ∧ (rtA ∉ route_tables_tbl w')
      ∧ filter (λ rt, VpcId rt ≠ vpc_Id vpc) (route_tables_tbl w')
        = filter (λ rt, VpcId rt ≠ vpc_Id vpc) (route_tables_tbl w).
Proof.
  intros Hf Hname Hval Hdel Hupd Hins HrB HrC Hids Hdb Hab Hb Hca Hcb.
  assert (Hc : CompareSets ExternalId GetGlobalId (dbRouteTablesOf vpc w) [extB; extC]
               = inr ([rtA], [rtB], [extB], [extC])).
  { rewrite Hdb. by apply CompareSets_two_two. }
  split; [done|].
  (* where the two local rows sit in the table *)
  assert (HinA : VpcId rtA = vpc_Id vpc ∧ rtA ∈ route_tables_tbl w).
  { apply (list_elem_of_filter (λ rt, VpcId rt = vpc_Id vpc)).
    fold (dbRouteTablesOf vpc w). rewrite Hdb. left. }
  assert (HinB : VpcId rtB = vpc_Id vpc ∧ rtB ∈ route_tables_tbl w).
  { apply (list_elem_of_filter (λ rt, VpcId rt = vpc_Id vpc)).
    fold (dbRouteTablesOf vpc w). rewrite Hdb. right. left. }
  destruct HinA as [HvA HinA], HinB as [HvB HinB].
  assert (HidAB : Id rtB ≠ Id rtA).
  { intros Heq. apply Hab. f_equal. symmetry.
    by apply (NoDup_fmap_inj_on Id (route_tables_tbl w)). }
  rewrite (SyncRouteTables_applied _ _ _ _ _ _ _ _ _ Hf Hc), applyBuckets_run.
  (* the deletion of A *)
  cbn [removeLoop]. unfold mbind, M_bind at 1.
  rewrite syncRemoveCloudRouteTable_run, Hval, Hdel.
  cbn [mret M_ret].
  set (w1 := mkWorld (filter (λ r, Id r ≠ Id rtA) (route_tables_tbl w)) _ _ _).
  (* the update of B *)
  cbn [zip zip_with updateLoop]. unfold mbind, M_bind at 1.
  rewrite SyncWithCloudRouteTable_run.
  destruct (newRouteTableFromCloud_ok env userCred vpc extB w1 routesB HrB (Hname _))
    as [nameB ->].
  rewrite Hupd. unfold mbind, M_bind at 1. rewrite syncMetadata_run.
  cbn [mret M_ret].
  set (rtB' := updated_row rtB vpc _).
  set (w2 := synced_world env rtB' extB _).
  (* the insertion of C *)
  cbn [addLoop]. unfold mbind, M_bind at 1. rewrite insertFromCloud_run.
  destruct (newRouteTableFromCloud_ok env userCred vpc extC w2 routesC HrC (Hname _))
    as [nameC ->].
  cbn zeta. rewrite Hins. unfold mbind, M_bind at 1. rewrite syncMetadata_run.
  cbn [mret M_ret].
  set (rtC' := inserted_row env (route_tables_tbl w2) _).
  set (w3 := synced_world env rtC' extC _).
  exists rtB', rtC', w3.
  set (repl := λ rt, if decide (Id rt = Id rtB) then rtB' else rt).
  assert (Htbl3 : route_tables_tbl w3
                  = (repl <$> filter (λ r, Id r ≠ Id rtA) (route_tables_tbl w)) ++ [rtC'])
    by done.
  assert (Hrepl_vpc : ∀ x, x ∈ filter (λ r, Id r ≠ Id rtA) (route_tables_tbl w) →
                           VpcId (repl x) = vpc_Id vpc ↔ VpcId x = vpc_Id vpc).
  { intros x [_ Hx]%list_elem_of_filter. unfold repl. case_decide as Hid; [|done].
    assert (x = rtB) as -> by by apply (NoDup_fmap_inj_on Id (route_tables_tbl w)).
    done. }
  split_and!; try done.
  - unfold dbRouteTablesOf. rewrite Htbl3, filter_app.
    rewrite (filter_cons_True _ rtC') by done. rewrite filter_nil.
    rewrite filter_fmap_stable by done.
    rewrite filter_comm.
    fold (dbRouteTablesOf vpc w). rewrite Hdb.
    rewrite filter_cons_False by (intros Hn; by apply Hn).
    rewrite filter_cons_True by done. rewrite filter_nil. simpl.
    unfold repl. by rewrite decide_True.
  - rewrite Htbl3, elem_of_app, list_elem_of_fmap, list_elem_of_singleton.
    intros [(x & Hx & Hin)|Hx].
    + apply list_elem_of_filter in Hin as [Hne Hin]. unfold repl in Hx.
      case_decide as Hid; [|by subst x]. apply Hab. by rewrite Hx.
    + apply Hca. by rewrite Hx.
  - rewrite Htbl3, filter_app.
    rewrite (filter_cons_False _ rtC') by (intros Hn; by apply Hn).
    rewrite filter_nil, app_nil_r.
    rewrite filter_fmap_stable.
    2:{ intros x Hx. by rewrite (Hrepl_vpc x Hx). }
    rewrite filter_comm.
    assert (Hstay : ∀ x, x ∈ filter (λ rt, VpcId rt ≠ vpc_Id vpc) (route_tables_tbl w) →
                         Id x ≠ Id rtA ∧ Id x ≠ Id rtB).
    { intros x [Hv Hx]%list_elem_of_filter. split; intros Hid; apply Hv.
      - by rewrite (NoDup_fmap_inj_on Id (route_tables_tbl w) x rtA).
      - by rewrite (NoDup_fmap_inj_on Id (route_tables_tbl w) x rtB). }
    revert Hstay. generalize (filter (λ rt, VpcId rt ≠ vpc_Id vpc) (route_tables_tbl w)).
    intros l Hstay. induction l as [|x l IH]; [done|].
    destruct (Hstay x) as [HA HB]; [left|].
    rewrite filter_cons_True by done. rewrite fmap_cons, IH.
    + unfold repl at 1. by rewrite decide_False.
    + intros y Hy. apply Hstay. by right.
Qed.

(** ** The pass on the sample inputs *)

Lemma SyncRouteTables_partial_failure_witness :
  fetch_error env_row3_in_use = None
  ∧ CompareSets ExternalId GetGlobalId (dbRouteTablesOf vpc1 world_five) []
    = inr (five_rows, [], [], [])
  ∧ ∃ ls rs res w',
      SyncRouteTables env_row3_in_use cred vpc1 [] world_five
        = ((Some ls, Some rs, res), w')
      ∧ DelCnt res = 4 ∧ DelErrCnt res = 1
      ∧ DelErrs res = [ValidationError "in use"].
Proof.
  assert (Hc : CompareSets ExternalId GetGlobalId (dbRouteTablesOf vpc1 world_five) []
               = inr (five_rows, [], [], [])) by (vm_compute; reflexivity).
  split; [reflexivity|]. split; [exact Hc|].
  destruct (SyncRouteTables_partial_failure env_row3_in_use cred vpc1 []
              world_five five_rows [] [] [] eq_refl Hc)
    as (ls & rs & res & w' & Hrun & _ & Herrs & _ & _ & _ & _ & _ & _ & Hfive).
  exists ls, rs, res, w'.
  destruct Hfive as [H4 H1];
    [reflexivity | vm_compute; reflexivity | repeat constructor |].
  split; [exact Hrun|]. split; [exact H4|]. split; [exact H1|]. exact Herrs.
Defined.

Example five_rows_one_refused :
  let out := SyncRouteTables env_row3_in_use cred vpc1 [] world_five in
  out.1 = (Some [], Some [],
           mkSyncResult 0 [] 0 [] 4 [ValidationError "in use"] [])
  ∧ Id <$> route_tables_tbl out.2 = ["3"].
Proof. vm_compute. split; reflexivity. Qed.

Lemma SyncRouteTables_aborts_witness :
  fetch_error env_fetch_fails = Some (TransientIOError "store unreachable")
  ∧ SyncRouteTables env_fetch_fails cred vpc1 [extB; extC] world_AB
    = ((None, None,
        mkSyncResult 0 [] 0 [] 0 [] [TransientIOError "store unreachable"]),
       world_AB)
  ∧ ¬ NoDup (GetGlobalId <$> [extB; extB])
  ∧ ∃ key, SyncRouteTables env_ok cred vpc1 [extB; extB] world_AB
           = ((None, None, mkSyncResult 0 [] 0 [] 0 [] [AmbiguousKeyError key]),
              world_AB).
Proof.
  assert (Hdup : ¬ NoDup (GetGlobalId <$> [extB; extB])) by compute_done.
  split; [reflexivity|]. split.
  - exact (proj1 (SyncRouteTables_aborts env_fetch_fails cred vpc1 [extB; extC] world_AB)
             _ eq_refl).
  - split; [exact Hdup|].
    exact (proj2 (proj2 (SyncRouteTables_aborts env_ok cred vpc1 [extB; extB] world_AB))
             eq_refl (or_intror Hdup)).
Defined.

Lemma SyncRouteTables_scenario_witness :
  CompareSets ExternalId GetGlobalId (dbRouteTablesOf vpc1 world_AB) [extB; extC]
    = inr ([rtA], [rtB], [extB], [extC])
  ∧ ∃ rtB' rtC' w',
      SyncRouteTables env_ok cred vpc1 [extB; extC] world_AB
        = ((Some [rtB'; rtC'], Some [extB; extC], mkSyncResult 1 [] 1 [] 1 [] []), w')
      ∧ dbRouteTablesOf vpc1 w' = [rtB'; rtC']
      ∧ rtB' = mkRouteTable (Id rtB) (Name rtB) (Description rtB) (ProjectId rtB)
                 (DomainId rtB) (ExternalId rtB) (vpc_Id vpc1) (GetType extB)
                 (route_of_cloud <$> [mkCloudRoute "system" "10.0.0.0/8" "local" ""])
      ∧ ExternalId rtC' = GetGlobalId extC
      ∧ rt_Type rtC' = GetType extC
      ∧ Routes rtC' = route_of_cloud <$> []
      ∧ (rtA ∉ route_tables_tbl w')
      ∧ filter (λ rt, VpcId rt ≠ vpc_Id vpc1) (route_tables_tbl w')
        = filter (λ rt, VpcId rt ≠ vpc_Id vpc1) (route_tables_tbl world_AB).
Proof.
  apply (SyncRouteTables_scenario env_ok cred vpc1 world_AB rtA rtB extB extC
           [mkCloudRoute "system" "10.0.0.0/8" "local" ""] []);
    try reflexivity; try discriminate; compute_done.
Defined.

Example scenario_pass :
  let out := SyncRouteTables env_ok cred vpc1 [extB; extC] world_AB in
  (ExternalId <$> route_tables_tbl out.2 = ["B"; "X"; "C"])
  ∧ Name <$> route_tables_tbl out.2 = ["tB"; "tC"; "tC-1"]
  ∧ calls out.2
    = [CallDelete "1" true; CallOpsLog ACT_DELETE "1"; CallSyncMetadata "1";
       CallUpdate "2" true; CallOpsLog ACT_SYNC_UPDATE "2"; CallSyncMetadata "2";
       CallInsert "id-2" true; CallOpsLog ACT_CREATE "id-2";
       CallSyncMetadata "id-2"]
  ∧ opslogs out.2 = [(ACT_DELETE, "1"); (ACT_SYNC_UPDATE, "2"); (ACT_CREATE, "id-2")].
Proof. vm_compute. split_and!; reflexivity. Qed.

Lemma SyncRouteTables_added_names_witness :
  fetch_error env_ok = None
  ∧ CompareSets ExternalId GetGlobalId (dbRouteTablesOf vpc1 world_AB) [extB; extC]
    = inr ([rtA], [rtB], [extB], [extC])
  ∧ (∀ name vpcName, name ≠ "" → routeTableBasename name vpcName = name)
  ∧ (∀ vpcName, vpcName ≠ "" → routeTableBasename "" vpcName = "rtbl-" +:+ vpcName)
  ∧ routeTableBasename "" "" = "rtbl"
  ∧ ∃ ls rs res w' tbl0 rows exts,
      SyncRouteTables env_ok cred vpc1 [extB; extC] world_AB
        = ((Some ls, Some rs, res), w')
      ∧ route_tables_tbl w' = tbl0 ++ rows
      ∧ exts `sublist_of` [extC]
      ∧ length exts = length rows
      ∧ AddCnt res = length rows
      ∧ AddErrCnt res = length [extC] - length rows
      ∧ ∀ i row ext, rows !! i = Some row → exts !! i = Some ext →
          let basename := routeTableBasename (GetName ext) (vpc_Name vpc1) in
          let used := Name <$> (tbl0 ++ take i rows) in
          ExternalId row = GetGlobalId ext
          ∧ VpcId row = vpc_Id vpc1
          ∧ free_name used basename = Some (Name row)
          ∧ (Name row ∉ used)
          ∧ (basename ∉ used → Name row = basename)
          ∧ (basename ∈ used →
             ∃ n, 1 ≤ n ∧ Name row = basename +:+ "-" +:+ pretty n).
Proof.
  assert (Hc : CompareSets ExternalId GetGlobalId (dbRouteTablesOf vpc1 world_AB)
                 [extB; extC] = inr ([rtA], [rtB], [extB], [extC]))
    by (vm_compute; reflexivity).
  split; [reflexivity|]. split; [exact Hc|].
  exact (SyncRouteTables_added_names env_ok cred vpc1 [extB; extC] world_AB
           [rtA] [rtB] [extB] [extC] eq_refl Hc).
Defined.

(** ** Rows of other VPCs *)

(** Each step of the apply phase leaves the rows of the other VPCs as they
    are, provided the rows it touches do not share an identifier with them. *)
Section Frame.
Variable env : Env.
Variable userCred : TokenCredential.
Variable vpc : SVpc.
Variable others : list SRouteTable.
Lemma delete_keeps_others tbl id :
  id ∉ Id <$> others →
  filter (λ rt, VpcId rt ≠ vpc_Id vpc) tbl = others →
  filter (λ rt, VpcId rt ≠ vpc_Id vpc) (filter (λ r, Id r ≠ id) tbl) = others.
Proof.
  intros Hid Hinv. rewrite filter_comm, Hinv.
  clear Hinv. induction others as [|r rs IH]; [done|].
  rewrite fmap_cons, not_elem_of_cons in Hid. destruct Hid as [Hne Hid].
  rewrite filter_cons_True by done. f_equal. by apply IH.
Qed.

Lemma update_keeps_others tbl id row :
  id ∉ Id <$> others → VpcId row = vpc_Id vpc →
  filter (λ rt, VpcId rt ≠ vpc_Id vpc) tbl = others →
  filter (λ rt, VpcId rt ≠ vpc_Id vpc)
    ((λ rt, if decide (Id rt = id) then row else rt) <$> tbl) = others.
Proof.
  intros Hid Hrow <-. induction tbl as [|r tbl IH]; [done|].
  rewrite fmap_cons. destruct (decide (VpcId r = vpc_Id vpc)) as [Hv|Hv].
  - rewrite (filter_cons_False _ r) in Hid |- * by (intros Hn; by apply Hn).
    rewrite filter_cons_False; [by apply IH|].
    intros Hn. apply Hn. by case_decide.
  - rewrite (filter_cons_True _ r) in Hid |- * by done.
    rewrite fmap_cons, not_elem_of_cons in Hid. destruct Hid as [Hne Hid].
    rewrite decide_False by done. rewrite filter_cons_True by done.
    f_equal. by apply IH.
Qed.

Lemma removeLoop_keeps_others removed res w :
  (∀ rt, rt ∈ removed → Id rt ∉ Id <$> others) →
  others_kept vpc others w → others_kept vpc others (removeLoop env removed res w).2.
Proof.
  revert res w. induction removed as [|rt removed IH]; intros res w Hids Hinv;
    [done|].
  cbn [removeLoop]. unfold mbind, M_bind. rewrite syncRemoveCloudRouteTable_run.
  assert (Hrest : ∀ r, r ∈ removed → Id r ∉ Id <$> others)
    by (intros r Hr; apply Hids; by right).
  destruct (validate_delete env rt); [by apply IH|].
  destruct (delete_error env rt); apply IH; try done.
  unfold others_kept. simpl. apply delete_keeps_others; [|done].
  apply Hids. left.
Qed.

Lemma updateLoop_keeps_others common acc w :
  (∀ p, p ∈ common → Id p.1 ∉ Id <$> others) →
  others_kept vpc others w → others_kept vpc others (updateLoop env userCred vpc common acc w).2.
Proof.
  revert acc w.
  induction common as [|[rt ext] common IH]; intros [[ls rs] res] w Hids Hinv;
    [done|].
  cbn [updateLoop]. unfold mbind, M_bind. rewrite SyncWithCloudRouteTable_run.
  assert (Hrest : ∀ p, p ∈ common → Id p.1 ∉ Id <$> others)
    by (intros p Hp; apply Hids; by right).
  destruct (newRouteTableFromCloud env userCred vpc ext w).1; [by apply IH|].
  destruct (update_error env rt); [by apply IH|].
  rewrite syncMetadata_run. apply IH; [done|].
  unfold others_kept. simpl. apply update_keeps_others; [|done|done].
  apply (Hids (rt, ext)). left.
Qed.

Lemma addLoop_keeps_others added acc w :
  others_kept vpc others w → others_kept vpc others (addLoop env userCred vpc added acc w).2.
Proof.
  revert acc w. induction added as [|ext added IH]; intros [[ls rs] res] w Hinv;
    [done|].
  cbn [addLoop]. unfold mbind, M_bind. rewrite insertFromCloud_run.
  destruct (newRouteTableFromCloud env userCred vpc ext w).1 as [err|routeTable]
    eqn:Hnew; [by apply IH|].
  cbn zeta. destruct (insert_error env routeTable); [by apply IH|].
  rewrite syncMetadata_run. apply IH.
  unfold others_kept. simpl. unfold others_kept in Hinv. rewrite filter_app, Hinv.
  rewrite filter_cons_False, filter_nil, app_nil_r; [done|].
  intros Hn. apply Hn. simpl.
  by apply newRouteTableFromCloud_inr in Hnew as (? & ? & _ & _ & ->).
Qed.
End Frame.

(** The rows the comparator hands to the delete and update loops are local
    rows of the VPC. *)
Lemma CompareSets_inr_subset {T U} (keyT : T → string) (keyU : U → string)
    local remote removed commondb commonext added :
  CompareSets keyT keyU local remote = inr (removed, commondb, commonext, added) →
  (∀ x, x ∈ removed → x ∈ local) ∧ (∀ x, x ∈ commondb → x ∈ local).
Proof.
  unfold CompareSets. repeat case_match; try done.
  intros [= <- <- <- <-]. split.
  - by intros x [_ ?]%list_elem_of_filter.
  - intros x ([x' y] & -> & Hin)%list_elem_of_fmap. simpl.
    unfold common_pairs in Hin. apply list_elem_of_omap in Hin as (x0 & Hx0 & Hp).
    destruct (partner keyT keyU remote x0); [|done]. simpl in Hp.
    by injection Hp as -> _.
Qed.

(** A pass over one VPC leaves the rows of every other VPC untouched, in
    their order, whatever fails during the pass, when row identifiers are
    unique: deletes and updates select rows by identifier, and every row
    inserted belongs to the VPC being synchronised. *)
Theorem SyncRouteTables_other_vpcs_untouched env userCred vpc remotes w :
  NoDup (Id <$> route_tables_tbl w) →
  filter (λ rt, VpcId rt ≠ vpc_Id vpc)
    (route_tables_tbl (SyncRouteTables env userCred vpc remotes w).2)
  = filter (λ rt, VpcId rt ≠ vpc_Id vpc) (route_tables_tbl w).
Proof.
  intros Hnd.
  destruct (fetch_error env) as [err|] eqn:Hf.
  { by rewrite (SyncRouteTables_fetch_failed _ _ _ _ _ err Hf). }
  destruct (CompareSets ExternalId GetGlobalId (dbRouteTablesOf vpc w) remotes)
    as [err|[[[removed commondb] commonext] added]] eqn:Hc.
  { by rewrite (SyncRouteTables_compare_failed _ _ _ _ _ err Hf Hc). }
  rewrite (SyncRouteTables_applied _ _ _ _ _ _ _ _ _ Hf Hc), applyBuckets_run.
  set (others := filter (λ rt, VpcId rt ≠ vpc_Id vpc) (route_tables_tbl w)).
  assert (Hlocal : ∀ rt, rt ∈ dbRouteTablesOf vpc w → Id rt ∉ Id <$> others).
  { intros rt [Hv Hin]%list_elem_of_filter.
    intros (r & Hid & [Hr Hrin]%list_elem_of_filter)%list_elem_of_fmap.
    apply Hr. rewrite <- Hv. f_equal.
    by apply (NoDup_fmap_inj_on Id (route_tables_tbl w)). }
  destruct (CompareSets_inr_subset _ _ _ _ _ _ _ _ Hc) as [Hrem Hcom].
  pose proof (removeLoop_keeps_others env vpc others removed emptyResult w) as H1.
  destruct (removeLoop env removed emptyResult w) as [res1 w1].
  pose proof (updateLoop_keeps_others env userCred vpc others
                (zip commondb commonext) ([], [], res1) w1) as H2.
  destruct (updateLoop _ _ _ _ _ w1) as [acc2 w2].
  pose proof (addLoop_keeps_others env userCred vpc others added acc2 w2) as H3.
  destruct (addLoop _ _ _ _ _ w2) as [[[ls rs] res] w3].
  simpl in *. apply H3, H2, H1; try done.
  - intros [rt ext] Hin. simpl. apply Hlocal, Hcom. by eapply elem_of_zip_l.
  - intros rt Hin. by apply Hlocal, Hrem.
Qed.

Lemma SyncRouteTables_other_vpcs_untouched_witness :
  NoDup (Id <$> route_tables_tbl world_AB)
  ∧ filter (λ rt, VpcId rt ≠ vpc_Id vpc1)
      (route_tables_tbl (SyncRouteTables env_ok cred vpc1 [extB; extC] world_AB).2)
    = [rtX].
Proof.
  assert (Hnd : NoDup (Id <$> route_tables_tbl world_AB)) by compute_done.
  split; [exact Hnd|].
  rewrite (SyncRouteTables_other_vpcs_untouched env_ok cred vpc1 [extB; extC]
             world_AB Hnd).
  reflexivity.
Defined.

(** ** Editing routes by hand *)

Lemma addRoute_prefix routes add : routes `prefix_of` addRoute routes add.
Proof. unfold addRoute. case_decide; [done|]. by apply prefix_app_r. Qed.

Lemma addRoute_NoDup routes add :
  NoDup (Cidr <$> routes) → NoDup (Cidr <$> addRoute routes add).
Proof.
  intros Hnd. unfold addRoute. case_decide as Hin; [done|].
  rewrite fmap_app. apply NoDup_app. split; [done|]. split.
  - intros c Hc. simpl. rewrite list_elem_of_singleton. by intros ->.
  - apply NoDup_singleton.
Qed.

Lemma addRoute_covers routes add : Cidr add ∈ Cidr <$> addRoute routes add.
Proof.
  unfold addRoute. case_decide as Hin; [done|].
  rewrite fmap_app, elem_of_app. right. simpl. left.
Qed.

Lemma addRoute_elem routes add r :
  r ∈ addRoute routes add → r ∈ routes ∨ r = add.
Proof.
  unfold addRoute. case_decide; [by left|].
  rewrite elem_of_app, list_elem_of_singleton. tauto.
Qed.

(** [PerformAddRoutes]: the routes already there stay in front, in order;
    CIDRs stay distinct if they were; after the loop every requested CIDR is
    present; and nothing appears that was neither there nor requested. *)
Theorem PerformAddRoutes_routes_spec (routes adds : list SRoute) :
  routes `prefix_of` PerformAddRoutes_routes routes adds
  ∧ (NoDup (Cidr <$> routes) →
     NoDup (Cidr <$> PerformAddRoutes_routes routes adds))
  ∧ (∀ add, add ∈ adds → Cidr add ∈ Cidr <$> PerformAddRoutes_routes routes adds)
  ∧ (∀ r, r ∈ PerformAddRoutes_routes routes adds → r ∈ routes ∨ r ∈ adds).
Proof.
  unfold PerformAddRoutes_routes. revert routes.
  induction adds as [|add adds IH]; intros routes; simpl.
  - split_and!; [done|done|by intros ? ?%elem_of_nil|by left].
  - destruct (IH (addRoute routes add)) as (Hpre & Hnd & Hcov & Hel).
    split_and!.
    + etrans; [apply addRoute_prefix|done].
    + intros H. by apply Hnd, addRoute_NoDup.
    + intros a [->|Ha]%elem_of_cons; [|by apply Hcov].
      destruct Hpre as [k ->]. rewrite fmap_app, elem_of_app. left.
      apply addRoute_covers.
    + intros r Hr. destruct (Hel r Hr) as [H|H].
      * apply addRoute_elem in H as [?| ->]; [by left|right; left].
      * right. by right.
Qed.

Lemma cut_first_system cidr rs :
  filter (λ r, route_Type r = "system") (cut_first cidr rs)
  = filter (λ r, route_Type r = "system") rs.
Proof.
  induction rs as [|r rs IH]; simpl; [done|].
  destruct (decide (route_Type r = "system")) as [Hs|Hs].
  - by rewrite !filter_cons_True, IH.
  - case_decide.
    + by rewrite (filter_cons_False _ r).
    + by rewrite !(filter_cons_False _ r).
Qed.

Lemma cut_first_sublist cidr rs : cut_first cidr rs `sublist_of` rs.
Proof.
  induction rs as [|r rs IH]; simpl; [done|].
  repeat case_decide; [by apply sublist_skip|by apply sublist_cons|by apply sublist_skip].
Qed.

Lemma cut_first_length cidr rs : length rs ≤ S (length (cut_first cidr rs)).
Proof.
  induction rs as [|r rs IH]; simpl; [lia|].
  repeat case_decide; simpl; lia.
Qed.

Lemma filter_reverse {A} (P : A → Prop) `{!∀ x, Decision (P x)} (l : list A) :
  filter P (reverse l) = reverse (filter P l).
Proof.
  induction l as [|x l IH]; [done|].
  rewrite reverse_cons, filter_app, IH, filter_cons.
  case_decide.
  - by rewrite filter_cons_True, filter_nil, reverse_cons.
  - by rewrite filter_cons_False, filter_nil, app_nil_r.
Qed.

Lemma delRoute_system routes cidr :
  filter (λ r, route_Type r = "system") (delRoute routes cidr)
  = filter (λ r, route_Type r = "system") routes.
Proof.
  unfold delRoute.
  by rewrite filter_reverse, cut_first_system, filter_reverse, reverse_involutive.
Qed.

Lemma sublist_reverse {A} (l k : list A) :
  l `sublist_of` k → reverse l `sublist_of` reverse k.
Proof.
  induction 1 as [|x l k _ IH|x l k _ IH]; [done| |]; rewrite ?reverse_cons.
  - by apply sublist_app.
  - by apply sublist_inserts_r.
Qed.

Lemma delRoute_sublist routes cidr : delRoute routes cidr `sublist_of` routes.
Proof.
  unfold delRoute. rewrite <- (reverse_involutive routes) at 2.
  apply sublist_reverse. apply cut_first_sublist.
Qed.

Lemma delRoute_length routes cidr : length routes ≤ S (length (delRoute routes cidr)).
Proof.
  unfold delRoute. rewrite length_reverse.
  rewrite <- (length_reverse routes). apply cut_first_length.
Qed.

(** [PerformDelRoutes]: system routes are never removed; the remaining
    routes keep their order; at most one route is removed per requested
    CIDR. *)
Theorem PerformDelRoutes_routes_spec (routes : list SRoute) (cidrs : list string) :
  filter (λ r, route_Type r = "system") (PerformDelRoutes_routes routes cidrs)
  = filter (λ r, route_Type r = "system") routes
  ∧ PerformDelRoutes_routes routes cidrs `sublist_of` routes
  ∧ length routes ≤ length (PerformDelRoutes_routes routes cidrs) + length cidrs.
Proof.
  unfold PerformDelRoutes_routes. revert routes.
  induction cidrs as [|cidr cidrs IH]; intros routes; simpl.
  - split_and!; [done|done|lia].
  - destruct (IH (delRoute routes cidr)) as (Hsys & Hsub & Hlen).
    split_and!.
    + by rewrite Hsys, delRoute_system.
    + etrans; [exact Hsub|apply delRoute_sublist].
    + pose proof (delRoute_length routes cidr). lia.
Qed.

(** Of two custom routes with the requested CIDR the later one is removed,
    and the system route with that CIDR stays. *)
Example PerformDelRoutes_last_match :
  PerformDelRoutes_routes
    [mkRoute "system" "10.0.0.0/8" "local" ""; mkRoute "custom" "10.0.0.0/8" "vm" "a";
     mkRoute "custom" "10.1.0.0/16" "vm" "b"; mkRoute "custom" "10.0.0.0/8" "vm" "c"]
    ["10.0.0.0/8"]
  = [mkRoute "system" "10.0.0.0/8" "local" ""; mkRoute "custom" "10.0.0.0/8" "vm" "a";
     mkRoute "custom" "10.1.0.0/16" "vm" "b"].
Proof. vm_compute. reflexivity. Qed.

(** [routeTableBasename] never returns the empty string. *)
Theorem routeTableBasename_nonempty (name vpcName : string) :
  routeTableBasename name vpcName ≠ "".
Proof.
  unfold routeTableBasename. repeat case_decide; [done| |done].
  destruct vpcName; done.
Qed.

(** ** Validation of routes *)

Lemma SRoute_Validate_fields net route :
  route_Type (validated net route) = route_Type route
  ∧ NextHopType (validated net route) = NextHopType route
  ∧ NextHopId (validated net route) = NextHopId route.
Proof.
  unfold validated, SRoute_Validate. repeat case_match; done.
Qed.

Lemma validateRoutesLoop_length net found routes :
  length (validateRoutesLoop net found routes).2 = length routes.
Proof.
  revert found. induction routes as [|route rest IH]; intros found; [done|].
  simpl. destruct (SRoute_Validate net route) as [[err|] route']; [done|].
  case_decide; [done|].
  specialize (IH ({[Cidr route']} ∪ found)).
  destruct (validateRoutesLoop net _ rest) as [err rest']. simpl in *. by rewrite IH.
Qed.

Lemma validateRoutesLoop_ok net found routes :
  (validateRoutesLoop net found routes).1 = None
  ↔ Forall (λ r, (SRoute_Validate net r).1 = None) routes
    ∧ NoDup (Cidr <$> (validated net <$> routes))
    ∧ ∀ r, r ∈ routes → Cidr (validated net r) ∉ found.
Proof.
  revert found. induction routes as [|route rest IH]; intros found.
  - simpl. split; [|done]. intros _. split_and!; [done|constructor|].
    by intros ? ?%elem_of_nil.
  - simpl. unfold validated at 1 3.
    destruct (SRoute_Validate net route) as [[err|] route'] eqn:Hv; simpl.
    + split; [done|]. intros [Hall _]. apply Forall_cons in Hall as [Hr _].
      by rewrite Hv in Hr.
    + case_decide as Hf; simpl.
      * split; [done|]. intros (_ & _ & Hnf). exfalso.
        apply (Hnf route); [left|]. by rewrite Hv.
      * specialize (IH ({[Cidr route']} ∪ found)).
        destruct (validateRoutesLoop net _ rest) as [err rest']. simpl in *.
        rewrite IH. rewrite Forall_cons, NoDup_cons, Hv. simpl. split.
        -- intros (Hall & Hnd & Hnf). split_and!; try done.
           ++ intros (r' & Hc & (r & -> & Hr)%list_elem_of_fmap)%list_elem_of_fmap.
              apply (Hnf r Hr). apply elem_of_union. left. apply elem_of_singleton.
              by rewrite <- Hc.
           ++ intros r [->|Hr]%elem_of_cons.
              ** by rewrite Hv.
              ** intros Hin. apply (Hnf r Hr). apply elem_of_union. by right.
        -- intros ((_ & Hall) & (Hnin & Hnd) & Hnf). split_and!; try done.
           intros r Hr [Heq%elem_of_singleton|Hin]%elem_of_union.
           ++ apply Hnin. rewrite <- Heq. apply list_elem_of_fmap.
              exists (validated net r). split; [done|]. by apply list_elem_of_fmap_2.
           ++ apply (Hnf r); [by right|done].
Qed.

Lemma validateRoutesLoop_routes net found routes :
  (validateRoutesLoop net found routes).1 = None →
  (validateRoutesLoop net found routes).2 = validated net <$> routes.
Proof.
  revert found. induction routes as [|route rest IH]; intros found; [done|].
  simpl. unfold validated at 1.
  destruct (SRoute_Validate net route) as [[err|] route'] eqn:Hv; [done|].
  case_decide; [done|].
  specialize (IH ({[Cidr route']} ∪ found)).
  destruct (validateRoutesLoop net _ rest) as [err rest']. simpl in *.
  intros ->. by rewrite IH.
Qed.

(** [SRoutes.Validate] accepts a list exactly when every route is accepted
    and the CIDRs, as rewritten, are pairwise distinct; it then leaves the
    rewritten routes, whose CIDRs are distinct; it never changes the number
    of routes nor a field other than the CIDR; on a nil receiver it
    panics. *)
Theorem SRoutes_Validate_spec (net : NetLib) (routes : list SRoute) :
  SRoutes_Validate net None = Panics
  ∧ ∃ err routes',
      SRoutes_Validate net (Some routes) = Returns (err, routes')
      ∧ length routes' = length routes
      ∧ (err = None
         ↔ Forall (λ r, (SRoute_Validate net r).1 = None) routes
           ∧ NoDup (Cidr <$> (validated net <$> routes)))
      ∧ (err = None →
         routes' = validated net <$> routes
         ∧ NoDup (Cidr <$> routes')
         ∧ route_Type <$> routes' = route_Type <$> routes
         ∧ NextHopType <$> routes' = NextHopType <$> routes
         ∧ NextHopId <$> routes' = NextHopId <$> routes).
Proof.
  split; [done|]. simpl.
  pose proof (validateRoutesLoop_length net ∅ routes) as Hlen.
  pose proof (validateRoutesLoop_ok net ∅ routes) as Hok.
  pose proof (validateRoutesLoop_routes net ∅ routes) as Hrs.
  destruct (validateRoutesLoop net ∅ routes) as [err routes']. simpl in *.
  exists err, routes'. split_and!; [done|done| |].
  - rewrite Hok. split; [by intros (? & ? & _)|].
    intros [? ?]. split_and!; [done|done|]. intros ? _. apply not_elem_of_empty.
  - intros Herr. rewrite (Hrs Herr). apply Hok in Herr as (_ & Hnd & _).
    split_and!; [done|done|..]; rewrite <- list_fmap_compose;
      apply list_fmap_ext; intros i r _; simpl; apply SRoute_Validate_fields.
Qed.

Example SRoutes_Validate_duplicate_after_rewrite :
  SRoutes_Validate net_sample
    (Some [mkRoute "custom" "10.1.2.3/8" "vm" "a"; mkRoute "custom" "10.9.9.9/8" "vm" "b"])
  = Returns (Some (ValidationError "duplicate route cidr 10.0.0.0/8"),
             [mkRoute "custom" "10.0.0.0/8" "vm" "a"; mkRoute "custom" "10.0.0.0/8" "vm" "b"]).
Proof. vm_compute. reflexivity. Qed.

(** ** Deleting routes with distinct CIDRs, and adding then deleting *)

Lemma filter_all {A} (P : A → Prop) `{!∀ x, Decision (P x)} (l : list A) :
  Forall P l → filter P l = l.
Proof.
  induction 1 as [|x l Hx _ IH]; [done|]. by rewrite filter_cons_True, IH.
Qed.

Lemma cut_first_filter cidr rs :
  NoDup (Cidr <$> rs) → cut_first cidr rs = filter (survives [cidr]) rs.
Proof.
  induction rs as [|r rs IH]; [done|].
  rewrite fmap_cons, NoDup_cons. intros [Hnin Hnd]. simpl.
  destruct (decide (route_Type r = "system")) as [Hs|Hs].
  - rewrite filter_cons_True by by left. by rewrite IH.
  - destruct (decide (Cidr r = cidr)) as [Hc|Hc].
    + rewrite filter_cons_False.
      2:{ intros [?|Hn]; [done|]. apply Hn. rewrite Hc. left. }
      rewrite filter_all; [done|]. apply Forall_forall.
      intros x Hx. right. intros Heq%list_elem_of_singleton.
      apply Hnin. rewrite Hc, <- Heq. by apply list_elem_of_fmap_2.
    + rewrite filter_cons_True.
      2:{ right. by intros ?%list_elem_of_singleton. }
      by rewrite IH.
Qed.

Lemma delRoute_filter routes cidr :
  NoDup (Cidr <$> routes) → delRoute routes cidr = filter (survives [cidr]) routes.
Proof.
  intros Hnd. unfold delRoute. rewrite cut_first_filter.
  - by rewrite filter_reverse, reverse_involutive.
  - by rewrite fmap_reverse, reverse_Permutation.
Qed.

Lemma NoDup_Cidr_filter (P : SRoute → Prop) `{!∀ r, Decision (P r)} routes :
  NoDup (Cidr <$> routes) → NoDup (Cidr <$> filter P routes).
Proof.
  intros Hnd. eapply sublist_NoDup; [exact Hnd|].
  apply fmap_sublist, sublist_filter.
Qed.

Lemma PerformDelRoutes_routes_filter routes cidrs :
  NoDup (Cidr <$> routes) →
  PerformDelRoutes_routes routes cidrs = filter (survives cidrs) routes.
Proof.
  unfold PerformDelRoutes_routes. revert routes.
  induction cidrs as [|cidr cidrs IH]; intros routes Hnd; simpl.
  - rewrite filter_all; [done|]. apply Forall_forall. intros r _. right.
    apply not_elem_of_nil.
  - rewrite delRoute_filter by done. rewrite IH by by apply NoDup_Cidr_filter.
    rewrite list_filter_filter. apply list_filter_iff. intros r.
    unfold survives. rewrite !not_elem_of_cons.
    pose proof (not_elem_of_nil (Cidr r)). tauto.
Qed.

(** On routes with distinct CIDRs, [PerformDelRoutes] removes exactly the
    routes that are not system routes and whose CIDR is requested: the
    others stay, in order, and the CIDRs stay distinct. *)
Theorem PerformDelRoutes_routes_distinct (routes : list SRoute) (cidrs : list string) :
  NoDup (Cidr <$> routes) →
  PerformDelRoutes_routes routes cidrs
  = filter (λ r, route_Type r = "system" ∨ Cidr r ∉ cidrs) routes
  ∧ NoDup (Cidr <$> PerformDelRoutes_routes routes cidrs)
  ∧ ∀ r, r ∈ PerformDelRoutes_routes routes cidrs → Cidr r ∈ cidrs →
         route_Type r = "system".
Proof.
  intros Hnd. rewrite PerformDelRoutes_routes_filter by done.
  split_and!.
  - done.
  - by apply NoDup_Cidr_filter.
  - intros r [[?|?] _]%list_elem_of_filter Hin; done.
Qed.

Lemma PerformDelRoutes_routes_distinct_witness :
  NoDup (Cidr <$> [mkRoute "system" "10.0.0.0/8" "local" "";
                   mkRoute "custom" "10.1.0.0/16" "vm" "a";
                   mkRoute "custom" "10.2.0.0/16" "vm" "b"])
  ∧ PerformDelRoutes_routes
      [mkRoute "system" "10.0.0.0/8" "local" "";
       mkRoute "custom" "10.1.0.0/16" "vm" "a";
       mkRoute "custom" "10.2.0.0/16" "vm" "b"]
      ["10.0.0.0/8"; "10.2.0.0/16"; "10.3.0.0/16"]
    = [mkRoute "system" "10.0.0.0/8" "local" "";
       mkRoute "custom" "10.1.0.0/16" "vm" "a"].
Proof.
  assert (Hnd : NoDup (Cidr <$> [mkRoute "system" "10.0.0.0/8" "local" "";
                   mkRoute "custom" "10.1.0.0/16" "vm" "a";
                   mkRoute "custom" "10.2.0.0/16" "vm" "b"])) by compute_done.
  split; [exact Hnd|].
  rewrite (proj1 (PerformDelRoutes_routes_distinct _
             ["10.0.0.0/8"; "10.2.0.0/16"; "10.3.0.0/16"] Hnd)).
  vm_compute. reflexivity.
Defined.

Lemma PerformAddRoutes_routes_app routes adds :
  NoDup (Cidr <$> adds) →
  (∀ a, a ∈ adds → Cidr a ∉ Cidr <$> routes) →
  PerformAddRoutes_routes routes adds = routes ++ adds.
Proof.
  unfold PerformAddRoutes_routes. revert routes.
  induction adds as [|a adds IH]; intros routes Hnd Hnew; simpl.
  - by rewrite app_nil_r.
  - rewrite fmap_cons, NoDup_cons in Hnd. destruct Hnd as [Hnin Hnd].
    unfold addRoute at 2. rewrite decide_False by (apply Hnew; left).
    rewrite IH; [by rewrite <- app_assoc|done|].
    intros b Hb. rewrite fmap_app, not_elem_of_app. split.
    + apply Hnew. by right.
    + simpl. intros Heq%list_elem_of_singleton. apply Hnin. rewrite <- Heq.
      by apply list_elem_of_fmap_2.
Qed.

Lemma cut_first_skip cidr xs a ys :
  Forall (λ x, Cidr x ≠ cidr) xs → route_Type a ≠ "system" → Cidr a = cidr →
  cut_first cidr (xs ++ a :: ys) = xs ++ ys.
Proof.
  intros Hxs Hsys Hc. induction Hxs as [|x xs Hx _ IH]; simpl.
  - destruct (decide (route_Type a = "system")); [done|].
    destruct (decide (Cidr a = cidr)); [done|]. congruence.
  - destruct (decide (route_Type x = "system")); [by rewrite IH|].
    destruct (decide (Cidr x = cidr)); [congruence|by rewrite IH].
Qed.

Lemma delRoute_added routes a adds :
  route_Type a ≠ "system" → Cidr a ∉ Cidr <$> adds →
  delRoute (routes ++ a :: adds) (Cidr a) = routes ++ adds.
Proof.
  intros Hsys Hnin. unfold delRoute.
  rewrite reverse_app, reverse_cons, <- app_assoc. simpl.
  rewrite cut_first_skip; [|apply Forall_forall|done|done].
  - by rewrite reverse_app, !reverse_involutive.
  - intros x Hx Hc. rewrite elem_of_reverse in Hx. apply Hnin. rewrite <- Hc.
    by apply list_elem_of_fmap_2.
Qed.

(** Adding routes with new, distinct CIDRs that are not system routes and
    then deleting those CIDRs gives the routes back. *)
Theorem PerformAddRoutes_PerformDelRoutes_routes (routes adds : list SRoute) :
  NoDup (Cidr <$> adds) →
  (∀ a, a ∈ adds → Cidr a ∉ Cidr <$> routes) →
  (∀ a, a ∈ adds → route_Type a ≠ "system") →
  PerformAddRoutes_routes routes adds = routes ++ adds
  ∧ PerformDelRoutes_routes (PerformAddRoutes_routes routes adds) (Cidr <$> adds)
    = routes.
Proof.
  intros Hnd Hnew Hsys. rewrite PerformAddRoutes_routes_app by done.
  split; [done|]. clear Hnew. unfold PerformDelRoutes_routes.
  induction adds as [|a adds IH]; simpl.
  - by rewrite app_nil_r.
  - rewrite fmap_cons, NoDup_cons in Hnd. destruct Hnd as [Hnin Hnd].
    rewrite delRoute_added; [|apply Hsys; left|done].
    apply IH; [done|]. intros b Hb. apply Hsys. by right.
Qed.

Lemma PerformAddRoutes_PerformDelRoutes_routes_witness :
  PerformDelRoutes_routes
    (PerformAddRoutes_routes
       [mkRoute "system" "10.0.0.0/8" "local" ""; mkRoute "custom" "10.1.0.0/16" "vm" "a"]
       [mkRoute "custom" "10.2.0.0/16" "vm" "b"; mkRoute "custom" "10.3.0.0/16" "vm" "c"])
    ["10.2.0.0/16"; "10.3.0.0/16"]
  = [mkRoute "system" "10.0.0.0/8" "local" ""; mkRoute "custom" "10.1.0.0/16" "vm" "a"].
Proof.
  apply (PerformAddRoutes_PerformDelRoutes_routes
           [mkRoute "system" "10.0.0.0/8" "local" ""; mkRoute "custom" "10.1.0.0/16" "vm" "a"]
           [mkRoute "custom" "10.2.0.0/16" "vm" "b"; mkRoute "custom" "10.3.0.0/16" "vm" "c"]).
  - compute_done.
  - intros a Ha. simpl. apply elem_of_cons in Ha as [->|Ha];
      [|apply list_elem_of_singleton in Ha as ->]; compute_done.
  - intros a Ha. apply elem_of_cons in Ha as [->|Ha];
      [|apply list_elem_of_singleton in Ha as ->]; done.
Defined.

Lemma PerformAddRoutes_routes_present routes adds :
  (∀ a, a ∈ adds → Cidr a ∈ Cidr <$> routes) →
  PerformAddRoutes_routes routes adds = routes.
Proof.
  unfold PerformAddRoutes_routes.
  induction adds as [|a adds IH]; intros Hin; simpl; [done|].
  unfold addRoute at 2. rewrite decide_True by (apply Hin; left).
  apply IH. intros b Hb. apply Hin. by right.
Qed.

Lemma PerformAddRoutes_routes_covers routes adds a :
  a ∈ adds → Cidr a ∈ Cidr <$> PerformAddRoutes_routes routes adds.
Proof.
  unfold PerformAddRoutes_routes. revert routes.
  induction adds as [|b adds IH]; intros routes; [by intros ?%elem_of_nil|].
  simpl. intros [->|Ha]%elem_of_cons; [|by apply IH].
  assert (Hpre : addRoute routes b `prefix_of` foldl addRoute (addRoute routes b) adds).
  { clear. generalize (addRoute routes b). induction adds as [|c adds IH]; intros l; [done|].
    simpl. etrans; [apply addRoute_prefix|apply IH]. }
  destruct Hpre as [k ->]. rewrite fmap_app, elem_of_app. left. apply addRoute_covers.
Qed.

(** Adding the same routes a second time changes nothing; nor does adding
    routes whose CIDRs are all present, whatever their other fields. *)
Theorem PerformAddRoutes_routes_idempotent (routes adds : list SRoute) :
  PerformAddRoutes_routes (PerformAddRoutes_routes routes adds) adds
  = PerformAddRoutes_routes routes adds
  ∧ ∀ adds', (∀ a, a ∈ adds' → Cidr a ∈ Cidr <$> routes) →
             PerformAddRoutes_routes routes adds' = routes.
Proof.
  split.
  - apply PerformAddRoutes_routes_present. intros a Ha.
    by apply PerformAddRoutes_routes_covers.
  - intros adds'. apply PerformAddRoutes_routes_present.
Qed.

(** ** What a pass answers and what it leaves *)

Lemma updateLoop_aligned env userCred vpc common ls rs res w ls' rs' res' w' :
  Forall (λ p, ExternalId p.1 = GetGlobalId p.2) common →
  updateLoop env userCred vpc common (ls, rs, res) w = ((ls', rs', res'), w') →
  ∃ rows exts,
    ls' = ls ++ rows ∧ rs' = rs ++ exts
    ∧ Forall2 (in_sync vpc) rows exts ∧ exts `sublist_of` common.*2.
Proof.
  intros Hkeys. revert ls rs res w.
  induction Hkeys as [|[rt ext] common Hk _ IH]; intros ls rs res w.
  - simpl. intros [= <- <- <- <-]. exists [], []. by rewrite !app_nil_r.
  - cbn [updateLoop]. unfold mbind, M_bind at 1. rewrite SyncWithCloudRouteTable_run.
    destruct (newRouteTableFromCloud env userCred vpc ext w).1
      as [err|routeTable] eqn:Hnew.
    { intros (rows & exts & -> & -> & Hall & Hsub)%IH.
      exists rows, exts. split_and!; try done. by apply sublist_cons. }
    destruct (update_error env rt) as [err|].
    { intros (rows & exts & -> & -> & Hall & Hsub)%IH.
      exists rows, exts. split_and!; try done. by apply sublist_cons. }
    unfold mbind, M_bind at 1. rewrite syncMetadata_run.
    intros (rows & exts & -> & -> & Hall & Hsub)%IH.
    eexists (_ :: rows), (ext :: exts). rewrite <- !app_assoc.
    split_and!; try done; [|by apply sublist_skip].
    constructor; [|done].
    apply newRouteTableFromCloud_inr in Hnew as (cloudRoutes & ? & Hr & _ & ->).
    unfold in_sync. simpl in *. split_and!; try done. by exists cloudRoutes.
Qed.

Lemma addLoop_aligned env userCred vpc added ls rs res w ls' rs' res' w' :
  addLoop env userCred vpc added (ls, rs, res) w = ((ls', rs', res'), w') →
  ∃ rows exts,
    ls' = ls ++ rows ∧ rs' = rs ++ exts
    ∧ Forall2 (in_sync vpc) rows exts ∧ exts `sublist_of` added.
Proof.
  revert ls rs res w. induction added as [|ext added IH]; intros ls rs res w.
  - simpl. intros [= <- <- <- <-]. exists [], []. by rewrite !app_nil_r.
  - cbn [addLoop]. unfold mbind, M_bind at 1. rewrite insertFromCloud_run.
    destruct (newRouteTableFromCloud env userCred vpc ext w).1
      as [err|routeTable] eqn:Hnew.
    { intros (rows & exts & -> & -> & Hall & Hsub)%IH.
      exists rows, exts. split_and!; try done. by apply sublist_cons. }
    cbn zeta. destruct (insert_error env routeTable) as [err|].
    { intros (rows & exts & -> & -> & Hall & Hsub)%IH.
      exists rows, exts. split_and!; try done. by apply sublist_cons. }
    unfold mbind, M_bind at 1. rewrite syncMetadata_run.
    intros (rows & exts & -> & -> & Hall & Hsub)%IH.
    eexists (_ :: rows), (ext :: exts). rewrite <- !app_assoc.
    split_and!; try done; [|by apply sublist_skip].
    constructor; [|done].
    apply newRouteTableFromCloud_inr in Hnew as (cloudRoutes & ? & Hr & _ & ->).
    unfold in_sync. simpl in *. split_and!; try done. by exists cloudRoutes.
Qed.

Lemma CompareSets_inr_NoDup {T U} (keyT : T → string) (keyU : U → string)
    local remote out :
  CompareSets keyT keyU local remote = inr out →
  NoDup (keyT <$> local) ∧ NoDup (keyU <$> remote)
  ∧ out = (filter (λ x, keyT x ∉ keyU <$> remote) local,
           (common_pairs keyT keyU local remote).*1,
           (common_pairs keyT keyU local remote).*2,
           filter (λ y, keyU y ∉ keyT <$> local) remote).
Proof.
  unfold CompareSets.
  destruct (duplicate_key (keyT <$> local)) eqn:Hl; [done|].
  destruct (duplicate_key (keyU <$> remote)) eqn:Hr; [done|].
  apply duplicate_key_None in Hl, Hr. intros [= <-]. split_and!; [done|done|].
  repeat f_equal; apply list_filter_iff; intros x; apply key_index_None.
Qed.

Lemma CompareSets_inr_common {T U} (keyT : T → string) (keyU : U → string)
    local remote removed commondb commonext added :
  CompareSets keyT keyU local remote = inr (removed, commondb, commonext, added) →
  Forall (λ p, p.1 ∈ local ∧ p.2 ∈ remote ∧ keyT p.1 = keyU p.2)
    (zip commondb commonext)
  ∧ (zip commondb commonext).*1 = commondb
  ∧ (zip commondb commonext).*2 = commonext
  ∧ (∀ y, y ∈ added → y ∈ remote).
Proof.
  intros (Hl & Hr & [= -> -> -> ->])%CompareSets_inr_NoDup.
  rewrite zip_fst_snd. split_and!; try done.
  - by apply common_pairs_keys.
  - by intros y [_ ?]%list_elem_of_filter.
Qed.

(** On the normal path the two lists [SyncRouteTables] answers are aligned:
    they have the same length, and the local row at each index holds the
    key, the type and the routes of the remote table at that index and
    belongs to the VPC; every remote table answered is one of the tables
    given, and none is answered twice.  Otherwise both lists are nil and
    the result carries the one error of the pass. *)
Theorem SyncRouteTables_results_aligned env userCred vpc remotes w :
  match (SyncRouteTables env userCred vpc remotes w).1 with
  | (Some ls, Some rs, res) =>
      Forall2 (in_sync vpc) ls rs
      ∧ (∀ ext, ext ∈ rs → ext ∈ remotes)
      ∧ NoDup (GetGlobalId <$> rs)
      ∧ PassErrs res = []
  | (None, None, res) => length (PassErrs res) = 1
  | _ => False
  end.
Proof.
  destruct (fetch_error env) as [err|] eqn:Hf.
  { by rewrite (SyncRouteTables_fetch_failed _ _ _ _ _ err Hf). }
  destruct (CompareSets ExternalId GetGlobalId (dbRouteTablesOf vpc w) remotes)
    as [err|[[[removed commondb] commonext] added]] eqn:Hc.
  { by rewrite (SyncRouteTables_compare_failed _ _ _ _ _ err Hf Hc). }
  rewrite (SyncRouteTables_applied _ _ _ _ _ _ _ _ _ Hf Hc), applyBuckets_run.
  destruct (CompareSets_inr_common _ _ _ _ _ _ _ _ Hc) as (Hcom & _ & Hsnd & Hadd).
  apply CompareSets_inr_NoDup in Hc as (Hl & Hr & [= Hrem Hcdb Hcext Hadded]).
  destruct (removeLoop env removed emptyResult w) as [res1 w1] eqn:Hrm.
  destruct (updateLoop _ _ _ _ _ w1) as [[[ls2 rs2] res2] w2] eqn:Hup.
  destruct (addLoop _ _ _ _ _ w2) as [[[ls rs] res] w3] eqn:Had. simpl.
  apply removeLoop_result in Hrm as ((_ & _ & _ & _ & Hp1) & _).
  pose proof Hup as (_ & _ & _ & _ & _ & (_ & _ & _ & _ & Hp2) & _)%updateLoop_result.
  pose proof Had as (_ & _ & _ & _ & _ & _ & _ & (_ & _ & _ & _ & Hp3) & _)%addLoop_result.
  apply updateLoop_aligned in Hup as (rows & exts & -> & -> & Hall & Hsub);
    [|eapply Forall_impl; [exact Hcom|by intros ? (_ & _ & ?)]].
  apply addLoop_aligned in Had as (rows' & exts' & -> & -> & Hall' & Hsub').
  simpl. rewrite Hsnd in Hsub. split_and!.
  - by apply Forall2_app.
  - intros ext [Hin|Hin]%elem_of_app.
    + eapply elem_of_sublist in Hin; [|exact Hsub]. subst commonext.
      by apply common_pairs_snd_elem in Hin as [? _].
    + eapply elem_of_sublist in Hin; [|exact Hsub']. by apply Hadd.
  - eapply sublist_NoDup; [|apply fmap_sublist, sublist_app; [exact Hsub|exact Hsub']].
    rewrite fmap_app. apply NoDup_app. split_and!.
    + subst commonext. rewrite <- common_pairs_snd_keys by done.
      rewrite common_pairs_fst by done.
      eapply sublist_NoDup; [exact Hl|]. apply fmap_sublist, sublist_filter.
    + intros k Hk (y & -> & Hy)%list_elem_of_fmap. subst added commonext.
      apply list_elem_of_filter in Hy as [Hy _]. apply Hy.
      rewrite <- common_pairs_snd_keys in Hk by done.
      rewrite common_pairs_fst in Hk by done.
      apply list_elem_of_fmap in Hk as (x & -> & [_ Hx]%list_elem_of_filter).
      by apply list_elem_of_fmap_2.
    + subst added. eapply sublist_NoDup; [exact Hr|].
      apply fmap_sublist, sublist_filter.
  - by rewrite Hp3, Hp2, Hp1.
Qed.

Lemma removeLoop_tbl env removed res w :
  route_tables_tbl (removeLoop env removed res w).2
  = filter (λ r, Id r ∉ Id <$> filter (λ rt, delete_outcome env rt = None) removed)
      (route_tables_tbl w).
Proof.
  revert res w. induction removed as [|rt removed IH]; intros res w.
  - simpl. rewrite filter_all; [done|]. apply Forall_forall. intros r _.
    apply not_elem_of_nil.
  - cbn [removeLoop]. unfold mbind, M_bind. rewrite syncRemoveCloudRouteTable_run.
    destruct (validate_delete env rt) as [err|] eqn:Hv.
    { rewrite IH.
      rewrite (filter_cons_False (λ rt, delete_outcome env rt = None) rt); [done|].
      unfold delete_outcome. by rewrite Hv. }
    destruct (delete_error env rt) as [err|] eqn:Hd.
    { rewrite IH.
      rewrite (filter_cons_False (λ rt, delete_outcome env rt = None) rt); [done|].
      unfold delete_outcome. by rewrite Hv, Hd. }
    rewrite IH. simpl. rewrite list_filter_filter.
    rewrite (filter_cons_True (λ rt, delete_outcome env rt = None) rt)
      by (unfold delete_outcome; by rewrite Hv, Hd).
    apply list_filter_iff. intros r. rewrite fmap_cons, not_elem_of_cons. tauto.
Qed.

Lemma updateLoop_tbl env userCred vpc common acc w :
  Forall2 (rewritten vpc common.*1) (route_tables_tbl w)
    (route_tables_tbl (updateLoop env userCred vpc common acc w).2).
Proof.
  revert acc w.
  induction common as [|[rt ext] common IH]; intros [[ls rs] res] w.
  - simpl. apply Forall2_same_length_lookup_2; [done|].
    intros i r r' H1 H2. left. congruence.
  - cbn [updateLoop]. unfold mbind, M_bind. rewrite SyncWithCloudRouteTable_run.
    assert (Hweak : ∀ r r', rewritten vpc common.*1 r r' →
                            rewritten vpc ((rt, ext) :: common).*1 r r').
    { intros r r' [->|(self & rt0 & Hin & Hid & ->)]; [by left|].
      right. exists self, rt0. split_and!; try done. by right. }
    destruct (newRouteTableFromCloud env userCred vpc ext w).1 as [err|routeTable].
    { eapply Forall2_impl; [apply IH|exact Hweak]. }
    destruct (update_error env rt) as [err|].
    { eapply Forall2_impl; [apply (IH _ (with_calls w _))|exact Hweak]. }
    rewrite syncMetadata_run.
    match goal with |- Forall2 _ _ (route_tables_tbl (updateLoop _ _ _ _ ?a ?w1).2) =>
      pose proof (IH a w1) as Hrest end.
    simpl in Hrest. rewrite Forall2_fmap_l in Hrest.
    eapply Forall2_impl; [exact Hrest|]. intros r r'. simpl.
    destruct (decide (Id r = Id rt)) as [Hid|Hid]; [|apply Hweak].
    intros [->|(self & rt0 & Hin & Hids & ->)]; right.
    + exists rt, routeTable. split_and!; [left|done|done].
    + exists self, rt0. split_and!; [by right|by rewrite Hids|done].
Qed.

Lemma Forall2_Forall_l {A B} (P : A → Prop) (R : A → B → Prop) l k :
  Forall P l → Forall2 R l k → Forall2 (λ x y, P x ∧ R x y) l k.
Proof.
  intros HP HR. induction HR as [|x y l k Hxy _ IH]; [constructor|].
  apply Forall_cons in HP as [Hx HP]. constructor; [done|by apply IH].
Qed.

Lemma Forall2_elem_of_left {A B} (R : A → B → Prop) l k x :
  Forall2 R l k → x ∈ l → ∃ y, y ∈ k ∧ R x y.
Proof.
  induction 1 as [|x' y l k Hxy _ IH]; [by intros ?%elem_of_nil|].
  intros [->|Hx]%elem_of_cons.
  - exists y. split; [left|done].
  - destruct (IH Hx) as (y' & ? & ?). exists y'. split; [by right|done].
Qed.

Lemma Forall2_refl_on {A} (R : A → A → Prop) (l : list A) :
  (∀ x, R x x) → Forall2 R l l.
Proof. intros HR. induction l; constructor; auto. Qed.

Lemma same_identity_refl vpc r : same_identity vpc r r.
Proof. unfold same_identity. split_and!; try done. by left. Qed.

(** A pass never reorders, renames, re-owns or re-keys a row: the table
    after it is a selection of the rows before it, each the same up to its
    VPC, type and routes (and unchanged altogether unless it was a row of
    the VPC), followed by new rows; each new row belongs to the VPC and
    carries the key of a remote table given, a key no row of the VPC had. *)
Theorem SyncRouteTables_keeps_rows env userCred vpc remotes w :
  NoDup (Id <$> route_tables_tbl w) →
  ∃ sub kept new,
    route_tables_tbl (SyncRouteTables env userCred vpc remotes w).2 = kept ++ new
    ∧ sub `sublist_of` route_tables_tbl w
    ∧ (∀ r, r ∈ route_tables_tbl w →
         VpcId r ≠ vpc_Id vpc ∨ ExternalId r ∈ GetGlobalId <$> remotes → r ∈ sub)
    ∧ Forall2 (same_identity vpc) sub kept
    ∧ Forall (λ r, VpcId r = vpc_Id vpc
                   ∧ ExternalId r ∈ GetGlobalId <$> remotes
                   ∧ ExternalId r ∉ ExternalId <$> dbRouteTablesOf vpc w) new.
Proof.
  intros Hnd.
  assert (Hsame : ∃ sub kept new,
    route_tables_tbl w = kept ++ new
    ∧ sub `sublist_of` route_tables_tbl w
    ∧ (∀ r, r ∈ route_tables_tbl w →
         VpcId r ≠ vpc_Id vpc ∨ ExternalId r ∈ GetGlobalId <$> remotes → r ∈ sub)
    ∧ Forall2 (same_identity vpc) sub kept
    ∧ Forall (λ r, VpcId r = vpc_Id vpc
                   ∧ ExternalId r ∈ GetGlobalId <$> remotes
                   ∧ ExternalId r ∉ ExternalId <$> dbRouteTablesOf vpc w) new).
  { exists (route_tables_tbl w), (route_tables_tbl w), []. rewrite app_nil_r.
    split_and!; try done. apply Forall2_refl_on, same_identity_refl. }
  destruct (fetch_error env) as [err|] eqn:Hf.
  { by rewrite (SyncRouteTables_fetch_failed _ _ _ _ _ err Hf). }
  destruct (CompareSets ExternalId GetGlobalId (dbRouteTablesOf vpc w) remotes)
    as [err|[[[removed commondb] commonext] added]] eqn:Hc.
  { by rewrite (SyncRouteTables_compare_failed _ _ _ _ _ err Hf Hc). }
  clear Hsame.
  rewrite (SyncRouteTables_applied _ _ _ _ _ _ _ _ _ Hf Hc), applyBuckets_run.
  destruct (CompareSets_inr_common _ _ _ _ _ _ _ _ Hc) as (Hcom & Hfst & _ & _).
  apply CompareSets_inr_NoDup in Hc as (_ & _ & [= Hremoved _ _ Hadded]).
  pose proof (removeLoop_tbl env removed emptyResult w) as Ht1.
  destruct (removeLoop env removed emptyResult w) as [res1 w1].
  pose proof (updateLoop_tbl env userCred vpc (zip commondb commonext)
                ([], [], res1) w1) as Ht2.
  destruct (updateLoop _ _ _ _ _ w1) as [[[ls2 rs2] res2] w2].
  destruct (addLoop _ _ _ _ _ w2) as [[[ls rs] res] w3] eqn:Had.
  pose proof Had as (rows & exts & Hls & _ & Ht3 & _)%addLoop_result.
  apply addLoop_aligned in Had as (rows' & exts' & Hls' & _ & Hall & Hsub).
  rewrite Hls in Hls'. apply app_inv_head in Hls' as <-.
  simpl in *. exists (route_tables_tbl w1), (route_tables_tbl w2), rows.
  split_and!; [done|rewrite Ht1; apply sublist_filter| | |].
  - intros r Hr Hkeep. rewrite Ht1. apply list_elem_of_filter. split; [|done].
    intros (y & Hid & [_ Hy]%list_elem_of_filter)%list_elem_of_fmap.
    rewrite Hremoved in Hy. apply list_elem_of_filter in Hy as [Hk Hy].
    pose proof Hy as [Hv Hyin]%list_elem_of_filter.
    assert (r = y) as -> by by apply (NoDup_fmap_inj_on Id (route_tables_tbl w)).
    by destruct Hkeep.
  - apply (Forall2_Forall_l (λ r, r ∈ route_tables_tbl w)) in Ht2.
    2:{ apply Forall_forall. intros r. rewrite Ht1.
        by intros [_ ?]%list_elem_of_filter. }
    eapply Forall2_impl; [exact Ht2|]. simpl.
    intros r r' [Hr [->|(self & rt0 & Hin & Hid & ->)]].
    { apply same_identity_refl. }
    assert (Hself : self ∈ dbRouteTablesOf vpc w).
    { rewrite Forall_forall in Hcom.
      apply list_elem_of_fmap in Hin as (p & -> & Hp). by apply Hcom in Hp as [? _]. }
    apply list_elem_of_filter in Hself as [Hv Hself].
    assert (self = r) as -> by by apply (NoDup_fmap_inj_on Id (route_tables_tbl w)).
    unfold same_identity. simpl. split_and!; try done. by right.
  - rewrite Forall_forall. intros r Hr.
    destruct (Forall2_elem_of_left _ _ _ _ Hall Hr) as (ext & Hext & Hk & Hv & _).
    eapply elem_of_sublist in Hext; [|exact Hsub]. rewrite Hadded in Hext.
    apply list_elem_of_filter in Hext as [Hnew Hext].
    rewrite Hk. split_and!; [done|by apply list_elem_of_fmap_2|done].
Qed.

(** ** A pass without remote tables *)

Lemma CompareSets_nil_r {T U} (keyT : T → string) (keyU : U → string) local :
  NoDup (keyT <$> local) →
  CompareSets keyT keyU local [] = inr (local, [], [], []).
Proof.
  intros Hnd. unfold CompareSets.
  rewrite (proj2 (duplicate_key_None _) Hnd). simpl.
  assert (Hp : common_pairs keyT keyU local [] = []).
  { assert (Hpn : ∀ x, partner keyT keyU [] x = None).
    { intros x. apply partner_None; [constructor|apply not_elem_of_nil]. }
    unfold common_pairs. clear Hnd. induction local as [|x l IH]; [done|].
    cbn [omap list_omap]. by rewrite Hpn. }
  rewrite Hp. simpl. repeat f_equal. apply filter_all, Forall_forall.
  intros x _. apply key_index_None. apply not_elem_of_nil.
Qed.

(** With no remote table at all, the pass takes every local row of the VPC
    for removed: it tries each, updates and adds nothing, and answers two
    empty lists; a row of the VPC that is left is one whose removal was
    refused, so none is left when none is refused. *)
Theorem SyncRouteTables_no_remote env userCred vpc w :
  fetch_error env = None →
  NoDup (ExternalId <$> dbRouteTablesOf vpc w) →
  ∃ res w',
    SyncRouteTables env userCred vpc [] w = ((Some [], Some [], res), w')
    ∧ DelErrs res = omap (delete_outcome env) (dbRouteTablesOf vpc w)
    ∧ DelCnt res + DelErrCnt res = length (dbRouteTablesOf vpc w)
    ∧ AddCnt res = 0 ∧ AddErrs res = [] ∧ UpdateCnt res = 0
    ∧ UpdateErrs res = [] ∧ PassErrs res = []
    ∧ (∀ rt, rt ∈ dbRouteTablesOf vpc w' →
         rt ∈ dbRouteTablesOf vpc w ∧ delete_outcome env rt ≠ None)
    ∧ (Forall (λ rt, delete_outcome env rt = None) (dbRouteTablesOf vpc w) →
       dbRouteTablesOf vpc w' = []).
Proof.
  intros Hf Hnd.
  pose proof (CompareSets_nil_r ExternalId GetGlobalId _ Hnd) as Hc.
  rewrite (SyncRouteTables_applied _ _ _ _ _ _ _ _ _ Hf Hc), applyBuckets_run.
  pose proof (removeLoop_tbl env (dbRouteTablesOf vpc w) emptyResult w) as Ht.
  destruct (removeLoop env _ emptyResult w) as [res1 w1] eqn:Hrm.
  apply removeLoop_result in Hrm as ((H1 & H2 & H3 & H4 & H5) & He & Hn).
  simpl in *. exists res1, w1.
  assert (Hleft : ∀ rt, rt ∈ dbRouteTablesOf vpc w1 →
            rt ∈ dbRouteTablesOf vpc w ∧ delete_outcome env rt ≠ None).
  { intros rt. unfold dbRouteTablesOf at 1. rewrite Ht.
    intros [Hv [Hid Hin]%list_elem_of_filter]%list_elem_of_filter.
    assert (rt ∈ dbRouteTablesOf vpc w) by by apply list_elem_of_filter.
    split; [done|]. intros Hok. apply Hid, list_elem_of_fmap_2.
    by apply list_elem_of_filter. }
  split_and!; try done.
  - unfold DelErrCnt. rewrite He, Hn. simpl.
    pose proof (omap_filter_None_length (delete_outcome env) (dbRouteTablesOf vpc w)).
    lia.
  - intros Hall. destruct (dbRouteTablesOf vpc w1) as [|rt l] eqn:Hl; [done|].
    exfalso. destruct (Hleft rt) as [Hin Hno]; [left|].
    rewrite Forall_forall in Hall. by apply Hno, Hall.
Qed.

(** ** A pass in which nothing fails *)

Lemma SyncResult_eq (r : SyncResult) a ae u ue d de p :
  AddCnt r = a → AddErrs r = ae → UpdateCnt r = u → UpdateErrs r = ue →
  DelCnt r = d → DelErrs r = de → PassErrs r = p →
  r = mkSyncResult a ae u ue d de p.
Proof. destruct r. simpl. by intros -> -> -> -> -> -> ->. Qed.

Lemma filter_ext_in {A} (P Q : A → Prop) `{!∀ x, Decision (P x)}
    `{!∀ x, Decision (Q x)} (l : list A) :
  (∀ x, x ∈ l → P x ↔ Q x) → filter P l = filter Q l.
Proof.
  induction l as [|x l IH]; intros Hext; [done|].
  rewrite !filter_cons. rewrite IH by (intros y Hy; apply Hext; by right).
  destruct (decide (P x)) as [HP|HP], (decide (Q x)) as [HQ|HQ]; try done;
    exfalso; apply (Hext x) in HP || apply (Hext x) in HQ; try done; left.
Qed.

Lemma removeLoop_success env removed res w :
  never_fails env →
  removeLoop env removed res w
  = (mkSyncResult (AddCnt res) (AddErrs res) (UpdateCnt res) (UpdateErrs res)
       (DelCnt res + length removed) (DelErrs res) (PassErrs res),
     (removeLoop env removed res w).2)
  ∧ route_tables_tbl (removeLoop env removed res w).2
    = filter (λ r, Id r ∉ Id <$> removed) (route_tables_tbl w).
Proof.
  intros (_ & _ & Hv & Hd & _).
  assert (Hout : ∀ rt, delete_outcome env rt = None).
  { intros rt. unfold delete_outcome. by rewrite Hv, Hd. }
  split.
  - destruct (removeLoop env removed res w) as [res' w'] eqn:Hrm. simpl. f_equal.
    apply removeLoop_result in Hrm as ((H1 & H2 & H3 & H4 & H5) & He & Hn).
    apply SyncResult_eq; try done.
    + rewrite Hn. f_equal. f_equal. apply filter_all, Forall_forall. by intros.
    + rewrite He. clear -Hout. induction removed as [|rt l IH]; simpl.
      * by rewrite app_nil_r.
      * by rewrite Hout.
  - rewrite removeLoop_tbl.
    rewrite (filter_all (λ rt, delete_outcome env rt = None) removed); [done|].
    apply Forall_forall. by intros.
Qed.

Lemma updated_row_in_sync vpc self ext routeTable :
  in_sync vpc self ext →
  rt_Type routeTable = GetType ext →
  (∀ cloudRoutes, GetIRoutes ext = inr cloudRoutes →
     Routes routeTable = route_of_cloud <$> cloudRoutes) →
  updated_row self vpc routeTable = self.
Proof.
  intros (_ & Hv & Ht & cr & Hcr & Hr) Ht' Hr'. destruct self. unfold updated_row.
  simpl in *. rewrite (Hr' cr Hcr). congruence.
Qed.

Lemma map_replace_id (tbl : list SRouteTable) (self self' : SRouteTable) :
  NoDup (Id <$> tbl) → Id self' = Id self →
  Id <$> ((λ rt, if decide (Id rt = Id self) then self' else rt) <$> tbl) = Id <$> tbl.
Proof.
  intros _ Hid. rewrite <- list_fmap_compose. apply list_fmap_ext.
  intros i r _. simpl. by case_decide; [congruence|].
Qed.

Lemma updateLoop_success env userCred vpc common done ls rs res w :
  never_fails env →
  Forall (λ p, ExternalId p.1 = GetGlobalId p.2 ∧ readable p.2) common →
  NoDup (Id <$> route_tables_tbl w) →
  filter (λ rt, VpcId rt = vpc_Id vpc) (route_tables_tbl w) = done ++ common.*1 →
  ∃ rows w',
    updateLoop env userCred vpc common (ls, rs, res) w
    = ((ls ++ rows, rs ++ common.*2,
        mkSyncResult (AddCnt res) (AddErrs res) (UpdateCnt res + length common)
          (UpdateErrs res) (DelCnt res) (DelErrs res) (PassErrs res)), w')
    ∧ filter (λ rt, VpcId rt = vpc_Id vpc) (route_tables_tbl w') = done ++ rows
    ∧ Forall2 (in_sync vpc) rows common.*2.
Proof.
  intros Hnf Hcom. revert done ls rs res w.
  induction Hcom as [|[self ext] common [Hk [cr Hcr]] _ IH];
    intros done ls rs res w Hnd Hvpc.
  - exists [], w. simpl. rewrite !app_nil_r, Nat.add_0_r.
    split_and!; [by destruct res|by rewrite Hvpc, app_nil_r|constructor].
  - simpl in Hk, Hcr. rewrite fmap_cons in Hvpc. cbn [fst] in Hvpc. cbn [updateLoop]. unfold mbind, M_bind at 1.
    rewrite SyncWithCloudRouteTable_run.
    destruct Hnf as (Hf & Hname & Hv & Hd & Hu & Hi).
    destruct (newRouteTableFromCloud_ok env userCred vpc ext w cr Hcr (Hname _))
      as [newName Hnew].
    rewrite Hnew, Hu. unfold mbind, M_bind at 1. rewrite syncMetadata_run.
    set (routeTable := mkRouteTable "" newName _ _ _ _ _ _ _).
    set (self' := updated_row self vpc routeTable).
    set (f := λ rt, if decide (Id rt = Id self) then self' else rt).
    assert (Hnd1 : NoDup (Id <$> (f <$> route_tables_tbl w))).
    { unfold f. by rewrite map_replace_id. }
    assert (Hvpc1 : filter (λ rt, VpcId rt = vpc_Id vpc) (f <$> route_tables_tbl w)
                    = (done ++ [self']) ++ common.*1).
    { assert (Hsub : done ++ self :: common.*1 `sublist_of` route_tables_tbl w).
      { rewrite <- Hvpc. apply sublist_filter. }
      assert (Hnd' : NoDup (Id <$> (done ++ self :: common.*1))).
      { eapply sublist_NoDup; [exact Hnd|]. by apply fmap_sublist. }
      rewrite (filter_fmap_stable _ f).
      2:{ intros x Hx. unfold f. case_decide as Hid; [|done].
          assert (x = self) as ->.
          { apply (NoDup_fmap_inj_on Id (route_tables_tbl w)); try done.
            eapply elem_of_sublist; [|exact Hsub]. apply elem_of_app. right. left. }
          unfold self'. simpl. split; [|done]. intros _.
          assert (self ∈ filter (λ rt, VpcId rt = vpc_Id vpc) (route_tables_tbl w))
            as [? _]%list_elem_of_filter; [|done].
          rewrite Hvpc. apply elem_of_app. right. left. }
      rewrite Hvpc. simpl in *. rewrite fmap_app, fmap_cons, <- app_assoc. simpl.
      rewrite fmap_app, fmap_cons in Hnd'.
      apply NoDup_app in Hnd' as (_ & Hdisj & [Hnin _]%NoDup_cons).
      f_equal; [|f_equal].
      - rewrite <- (list_fmap_id done) at 2. apply list_fmap_ext.
        intros i x Hx. unfold f. case_decide as Hid; [|done]. exfalso.
        apply (Hdisj (Id x)); [|rewrite Hid; left].
        apply list_elem_of_fmap_2. by eapply list_elem_of_lookup_2.
      - unfold f. by rewrite decide_True.
      - rewrite <- (list_fmap_id (common.*1)) at 2. apply list_fmap_ext.
        intros i x Hx. unfold f. simpl. case_decide as Hid; [|done]. exfalso.
        apply Hnin. rewrite <- Hid. apply list_elem_of_fmap_2.
        by eapply list_elem_of_lookup_2. }
    match goal with |- context [updateLoop _ _ _ _ _ ?w1] =>
      destruct (IH (done ++ [self']) (ls ++ [self']) (rs ++ [ext]) (Update res) w1
                  Hnd1 Hvpc1)
        as (rows & w' & Hloop & Hvpc' & Hall) end.
    exists (self' :: rows), w'. rewrite Hloop. simpl.
    rewrite <- !app_assoc in *. simpl. split_and!.
    + do 3 f_equal. lia.
    + by rewrite Hvpc'.
    + constructor; [|done]. unfold in_sync, self', routeTable. simpl.
      split_and!; try done. by exists cr.
Qed.

Lemma addLoop_success env userCred vpc added ls rs res w :
  never_fails env →
  Forall readable added →
  ∃ rows w',
    addLoop env userCred vpc added (ls, rs, res) w
    = ((ls ++ rows, rs ++ added,
        mkSyncResult (AddCnt res + length added) (AddErrs res) (UpdateCnt res)
          (UpdateErrs res) (DelCnt res) (DelErrs res) (PassErrs res)), w')
    ∧ route_tables_tbl w' = route_tables_tbl w ++ rows
    ∧ Forall2 (in_sync vpc) rows added.
Proof.
  intros Hnf Hadd. revert ls rs res w.
  induction Hadd as [|ext added [cr Hcr] _ IH]; intros ls rs res w.
  - exists [], w. simpl. rewrite !app_nil_r, Nat.add_0_r. split_and!; try done.
    by destruct res.
  - cbn [addLoop]. unfold mbind, M_bind at 1. rewrite insertFromCloud_run.
    destruct Hnf as (Hf & Hname & Hv & Hd & Hu & Hi).
    destruct (newRouteTableFromCloud_ok env userCred vpc ext w cr Hcr (Hname _))
      as [newName Hnew].
    rewrite Hnew. cbn zeta. rewrite Hi. unfold mbind, M_bind at 1.
    rewrite syncMetadata_run.
    match goal with |- context [addLoop _ _ _ _ (?l, ?r, ?s) ?w1] =>
      destruct (IH l r s w1) as (rows & w' & Hloop & Htbl & Hall) end.
    eexists (_ :: rows), w'. rewrite Hloop. simpl.
    rewrite <- !app_assoc in *. simpl. split_and!.
    + do 3 f_equal. lia.
    + rewrite Htbl. simpl. by rewrite <- app_assoc.
    + constructor; [|done]. unfold in_sync. simpl. split_and!; try done.
      by exists cr.
Qed.

Lemma common_pairs_Permutation {T U} (keyT : T → string) (keyU : U → string)
    (local : list T) (remote : list U) :
  NoDup (keyT <$> local) → NoDup (keyU <$> remote) →
  (common_pairs keyT keyU local remote).*2
    ++ filter (λ y, keyU y ∉ keyT <$> local) remote ≡ₚ remote.
Proof.
  intros Hl Hr. apply NoDup_Permutation.
  - apply NoDup_app. split_and!.
    + apply (NoDup_fmap_1 keyU). rewrite <- common_pairs_snd_keys by done.
      rewrite common_pairs_fst by done.
      eapply sublist_NoDup; [exact Hl|]. apply fmap_sublist, sublist_filter.
    + intros y [_ Hy]%common_pairs_snd_elem [Hn _]%list_elem_of_filter; done.
    + eapply sublist_NoDup; [|apply sublist_filter]. by apply (NoDup_fmap_1 keyU).
  - by apply (NoDup_fmap_1 keyU).
  - intros y. rewrite elem_of_app, common_pairs_snd_elem, list_elem_of_filter by done.
    destruct (decide (keyU y ∈ keyT <$> local)); tauto.
Qed.

Lemma SyncRouteTables_success env userCred vpc remotes w :
  never_fails env →
  Forall readable remotes →
  NoDup (Id <$> route_tables_tbl w) →
  NoDup (ExternalId <$> dbRouteTablesOf vpc w) →
  NoDup (GetGlobalId <$> remotes) →
  ∃ ls rs w',
    SyncRouteTables env userCred vpc remotes w
    = ((Some ls, Some rs,
        mkSyncResult
          (length (filter (λ y, GetGlobalId y ∉ ExternalId <$> dbRouteTablesOf vpc w)
                     remotes)) []
          (length (filter (λ x, ExternalId x ∈ GetGlobalId <$> remotes)
                     (dbRouteTablesOf vpc w))) []
          (length (filter (λ x, ExternalId x ∉ GetGlobalId <$> remotes)
                     (dbRouteTablesOf vpc w))) [] []), w')
    ∧ dbRouteTablesOf vpc w' = ls
    ∧ Forall2 (in_sync vpc) ls rs
    ∧ rs ≡ₚ remotes
    ∧ length rs
      = length (filter (λ x, ExternalId x ∈ GetGlobalId <$> remotes)
                  (dbRouteTablesOf vpc w))
        + length (filter (λ y, GetGlobalId y ∉ ExternalId <$> dbRouteTablesOf vpc w)
                    remotes).
Proof.
  intros Hnf Hread Hnd Hl Hr. pose proof Hnf as (Hf & _).
  set (local := dbRouteTablesOf vpc w) in *.
  set (pairs := common_pairs ExternalId GetGlobalId local remotes).
  set (removed := filter (λ x, ExternalId x ∉ GetGlobalId <$> remotes) local).
  set (added := filter (λ y, GetGlobalId y ∉ ExternalId <$> local) remotes).
  assert (Hc : CompareSets ExternalId GetGlobalId local remotes
               = inr (removed, pairs.*1, pairs.*2, added)).
  { destruct (CompareSets ExternalId GetGlobalId local remotes) as [err|out] eqn:Hc.
    - exfalso. unfold CompareSets in Hc.
      by rewrite (proj2 (duplicate_key_None _) Hl),
        (proj2 (duplicate_key_None _) Hr) in Hc.
    - by apply CompareSets_inr_NoDup in Hc as (_ & _ & ->). }
  rewrite (SyncRouteTables_applied _ _ _ _ _ _ _ _ _ Hf Hc), applyBuckets_run.
  destruct (removeLoop_success env removed emptyResult w Hnf) as [Hrm Ht1].
  rewrite Hrm. set (w1 := (removeLoop env removed emptyResult w).2) in *. clearbody w1.
  rewrite zip_fst_snd.
  cbn [AddCnt AddErrs UpdateCnt UpdateErrs DelCnt DelErrs PassErrs emptyResult Nat.add].
  assert (Hvpc1 : filter (λ rt, VpcId rt = vpc_Id vpc) (route_tables_tbl w1)
                  = [] ++ pairs.*1).
  { rewrite Ht1, filter_comm. fold (dbRouteTablesOf vpc w). fold local. simpl.
    unfold pairs. rewrite common_pairs_fst by done.
    apply filter_ext_in. intros x Hx. split.
    - intros Hid. destruct (decide (ExternalId x ∈ GetGlobalId <$> remotes)); [done|].
      exfalso. apply Hid, list_elem_of_fmap_2. by apply list_elem_of_filter.
    - intros Hk (y & Hid & [Hy Hyin]%list_elem_of_filter)%list_elem_of_fmap.
      apply Hy. assert (x = y) as <-; [|done].
      apply (NoDup_fmap_inj_on Id (route_tables_tbl w)); try done.
      + by apply list_elem_of_filter in Hx as [_ ?].
      + by apply list_elem_of_filter in Hyin as [_ ?]. }
  destruct (updateLoop_success env userCred vpc pairs [] [] []
              (mkSyncResult 0 [] 0 [] (0 + length removed) [] []) w1 Hnf)
    as (rows & w2 & Hup & Hvpc2 & Hall2); [| |done|].
  { pose proof (common_pairs_keys ExternalId GetGlobalId local remotes Hr) as Hk.
    fold pairs in Hk. eapply Forall_impl; [exact Hk|].
    intros p (_ & Hin & Hkey). split; [done|].
    rewrite Forall_forall in Hread. by apply Hread. }
  { rewrite Ht1. eapply sublist_NoDup; [exact Hnd|].
    apply fmap_sublist, sublist_filter. }
  cbn [AddCnt AddErrs UpdateCnt UpdateErrs DelCnt DelErrs PassErrs Nat.add] in Hup.
  rewrite Hup.
  destruct (addLoop_success env userCred vpc added ([] ++ rows) ([] ++ pairs.*2)
              (mkSyncResult 0 [] (0 + length pairs) [] (0 + length removed) [] [])
              w2 Hnf)
    as (rows' & w3 & Had & Ht3 & Hall3).
  { apply Forall_forall. intros y [_ Hy]%list_elem_of_filter.
    rewrite Forall_forall in Hread. by apply Hread. }
  cbn [AddCnt AddErrs UpdateCnt UpdateErrs DelCnt DelErrs PassErrs Nat.add app] in Had.
  cbn [app]. rewrite Had. exists (rows ++ rows'), (pairs.*2 ++ added), w3.
  split_and!.
  - do 3 f_equal. f_equal.
    unfold pairs. rewrite <- (length_fmap fst), common_pairs_fst by done. done.
  - unfold dbRouteTablesOf. rewrite Ht3, filter_app, Hvpc2. simpl. f_equal.
    apply filter_all, Forall_forall. intros r Hrin.
    by destruct (Forall2_elem_of_left _ _ _ _ Hall3 Hrin) as (? & _ & _ & ? & _).
  - by apply Forall2_app.
  - by apply common_pairs_Permutation.
  - rewrite length_app, length_fmap. f_equal.
    unfold pairs. by rewrite <- (length_fmap fst), common_pairs_fst.
Qed.

Lemma filter_length_split {A} (P : A → Prop) `{!∀ x, Decision (P x)} (l : list A) :
  length (filter P l) + length (filter (λ x, ¬ P x) l) = length l.
Proof.
  induction l as [|x l IH]; [done|]. rewrite !filter_cons.
  destruct (decide (P x)), (decide (¬ P x)); simpl; try done; lia.
Qed.

(** A pass in which nothing fails reconciles the VPC: afterwards the local
    rows of the VPC are exactly the rows answered, each holding the key,
    type and routes of the remote table answered at its index; the remote
    tables answered are the tables given, up to order; so the keys of the
    VPC's rows are the remote keys.  Nothing is reported as failed, every
    local row was deleted or updated, and every remote table led to an
    update or an insert. *)
Theorem SyncRouteTables_reconciles env userCred vpc remotes w :
  never_fails env →
  Forall readable remotes →
  NoDup (Id <$> route_tables_tbl w) →
  NoDup (ExternalId <$> dbRouteTablesOf vpc w) →
  NoDup (GetGlobalId <$> remotes) →
  ∃ ls rs res w',
    SyncRouteTables env userCred vpc remotes w = ((Some ls, Some rs, res), w')
    ∧ dbRouteTablesOf vpc w' = ls
    ∧ Forall2 (in_sync vpc) ls rs
    ∧ rs ≡ₚ remotes
    ∧ ExternalId <$> dbRouteTablesOf vpc w' ≡ₚ GetGlobalId <$> remotes
    ∧ AddErrs res = [] ∧ UpdateErrs res = [] ∧ DelErrs res = [] ∧ PassErrs res = []
    ∧ DelCnt res + UpdateCnt res = length (dbRouteTablesOf vpc w)
    ∧ UpdateCnt res + AddCnt res = length remotes.
Proof.
  intros Hnf Hread Hnd Hl Hr.
  destruct (SyncRouteTables_success env userCred vpc remotes w Hnf Hread Hnd Hl Hr)
    as (ls & rs & w' & Hrun & Hls & Hall & Hperm & Hlen).
  eexists ls, rs, _, w'. split; [exact Hrun|]. simpl.
  split_and!; try done.
  - rewrite Hls, <- Hperm.
    clear -Hall. induction Hall as [|x y l k [Hk _] _ IH]; [done|].
    rewrite !fmap_cons, Hk. by f_equiv.
  - rewrite Nat.add_comm.
    apply (filter_length_split (λ x, ExternalId x ∈ GetGlobalId <$> remotes)).
  - rewrite <- Hlen. by rewrite Hperm.
Qed.

Lemma filter_none {A} (P : A → Prop) `{!∀ x, Decision (P x)} (l : list A) :
  Forall (λ x, ¬ P x) l → filter P l = [].
Proof.
  induction 1 as [|x l Hx _ IH]; [done|]. by rewrite filter_cons_False.
Qed.

Lemma CompareSets_in_sync {T U} (keyT : T → string) (keyU : U → string)
    (xs : list T) (ys remote : list U) :
  NoDup (keyU <$> remote) → NoDup (keyT <$> xs) →
  Forall2 (λ x y, keyT x = keyU y) xs ys →
  (∀ y, y ∈ ys → y ∈ remote) →
  (∀ y, y ∈ remote → keyU y ∈ keyT <$> xs) →
  CompareSets keyT keyU xs remote = inr ([], xs, ys, []).
Proof.
  intros Hr Hl Hall Hin Hcov. unfold CompareSets.
  rewrite (proj2 (duplicate_key_None _) Hl), (proj2 (duplicate_key_None _) Hr).
  assert (Hp : common_pairs keyT keyU xs remote = zip xs ys).
  { unfold common_pairs. clear Hl Hcov.
    induction Hall as [|x y xs ys Hk _ IH]; [done|].
    cbn [omap list_omap].
    rewrite (proj2 (partner_Some keyT keyU remote x y Hr)).
    2:{ split; [apply Hin; left|done]. }
    simpl. rewrite IH; [done|]. intros y' Hy'. apply Hin. by right. }
  rewrite Hp. simpl.
  rewrite fst_zip, snd_zip by (apply Forall2_length in Hall; lia).
  repeat f_equal.
  - apply filter_none, Forall_forall. intros x Hx Hn.
    apply key_index_None in Hn. apply Hn.
    destruct (Forall2_elem_of_left _ _ _ _ Hall Hx) as (y & Hy & ->).
    apply list_elem_of_fmap_2. by apply Hin.
  - apply filter_none, Forall_forall. intros y Hy Hn.
    apply key_index_None in Hn. by apply Hn, Hcov.
Qed.

Lemma Forall2_zip {A B} (R : A → B → Prop) l k :
  Forall2 R l k → Forall (λ p, R p.1 p.2) (zip l k).
Proof. induction 1; constructor; done. Qed.

Lemma updateLoop_noop env userCred vpc common ls rs res w :
  never_fails env →
  Forall (λ p, in_sync vpc p.1 p.2) common →
  ∃ w',
    updateLoop env userCred vpc common (ls, rs, res) w
    = ((ls ++ common.*1, rs ++ common.*2,
        mkSyncResult (AddCnt res) (AddErrs res) (UpdateCnt res + length common)
          (UpdateErrs res) (DelCnt res) (DelErrs res) (PassErrs res)), w')
    ∧ (NoDup (Id <$> route_tables_tbl w) →
       (∀ p, p ∈ common → p.1 ∈ route_tables_tbl w) →
       route_tables_tbl w' = route_tables_tbl w).
Proof.
  intros Hnf Hcom. revert ls rs res w.
  induction Hcom as [|[self ext] common Hsync _ IH]; intros ls rs res w.
  - exists w. simpl. rewrite !app_nil_r, Nat.add_0_r. split; [by destruct res|done].
  - simpl in Hsync. cbn [updateLoop]. unfold mbind, M_bind at 1.
    rewrite SyncWithCloudRouteTable_run.
    pose proof Hnf as (Hf & Hname & Hv & Hd & Hu & Hi).
    pose proof Hsync as (_ & _ & _ & cr & Hcr & _).
    destruct (newRouteTableFromCloud_ok env userCred vpc ext w cr Hcr (Hname _))
      as [newName Hnew].
    rewrite Hnew, Hu. unfold mbind, M_bind at 1. rewrite syncMetadata_run.
    rewrite (updated_row_in_sync vpc self ext); [|done|done|].
    2:{ simpl. intros cr' Hcr'. congruence. }
    match goal with |- context [updateLoop _ _ _ _ (?l, ?r, ?s) ?w1] =>
      destruct (IH l r s w1) as (w' & Hloop & Htbl) end.
    exists w'. rewrite Hloop. simpl. rewrite <- !app_assoc. simpl. split.
    + do 3 f_equal. lia.
    + intros Hnd Hin. simpl in Htbl.
      assert (Hid : (λ rt, if decide (Id rt = Id self) then self else rt)
                      <$> route_tables_tbl w = route_tables_tbl w).
      { rewrite <- (list_fmap_id (route_tables_tbl w)) at 2.
        apply list_fmap_ext. intros i x Hx. simpl. case_decide as Hid; [|done].
        symmetry. apply (NoDup_fmap_inj_on Id (route_tables_tbl w)); try done.
        - by eapply list_elem_of_lookup_2.
        - apply (Hin (self, ext)). left. }
      rewrite Hid in Htbl. apply Htbl; [done|].
      intros p Hp. apply Hin. by right.
Qed.

(** Reconciliation converges: after a pass in which nothing fails, a second
    pass over the same remote tables finds nothing to delete and nothing to
    add; it reports one update per remote table, answers the same two lists
    as the first pass and, the identifiers of the rows being distinct,
    leaves the table as it is. *)
Theorem SyncRouteTables_converges env userCred vpc remotes w :
  never_fails env →
  Forall readable remotes →
  NoDup (Id <$> route_tables_tbl w) →
  NoDup (ExternalId <$> dbRouteTablesOf vpc w) →
  NoDup (GetGlobalId <$> remotes) →
  ∃ ls rs res w1 w2,
    SyncRouteTables env userCred vpc remotes w = ((Some ls, Some rs, res), w1)
    ∧ SyncRouteTables env userCred vpc remotes w1
      = ((Some ls, Some rs, mkSyncResult 0 [] (length remotes) [] 0 [] []), w2)
    ∧ (NoDup (Id <$> route_tables_tbl w1) →
       route_tables_tbl w2 = route_tables_tbl w1).
Proof.
  intros Hnf Hread Hnd Hl Hr. pose proof Hnf as (Hf & _).
  destruct (SyncRouteTables_success env userCred vpc remotes w Hnf Hread Hnd Hl Hr)
    as (ls & rs & w1 & Hrun & Hls & Hall & Hperm & Hlen).
  assert (Hkeys : ExternalId <$> ls = GetGlobalId <$> rs).
  { clear -Hall. induction Hall as [|x y l k [Hk _] _ IH]; [done|].
    by rewrite !fmap_cons, Hk, IH. }
  assert (Hc : CompareSets ExternalId GetGlobalId (dbRouteTablesOf vpc w1) remotes
               = inr ([], ls, rs, [])).
  { rewrite Hls. apply CompareSets_in_sync; try done.
    - by rewrite Hkeys, Hperm.
    - eapply Forall2_impl; [exact Hall|]. by intros x y [? _].
    - intros y Hy. by rewrite <- Hperm.
    - intros y Hy. rewrite Hkeys. apply list_elem_of_fmap_2. by rewrite Hperm. }
  pose proof (SyncRouteTables_applied env userCred vpc remotes w1 _ _ _ _ Hf Hc) as Hrun2.
  rewrite applyBuckets_run in Hrun2. cbn [removeLoop] in Hrun2.
  unfold mret, M_ret in Hrun2.
  destruct (updateLoop_noop env userCred vpc (zip ls rs) [] [] emptyResult w1 Hnf)
    as (w2 & Hup & Htbl).
  { by apply Forall2_zip. }
  rewrite Hup in Hrun2. cbn [addLoop] in Hrun2. unfold mret, M_ret in Hrun2.
  pose proof (Forall2_length _ _ _ Hall) as Hlen2.
  rewrite fst_zip, snd_zip in Hrun2 by lia. simpl in Hrun2.
  rewrite length_zip_with in Hrun2.
  eexists ls, rs, _, w1, w2. split_and!; [exact Hrun| |].
  - rewrite Hrun2. do 3 f_equal. f_equal. rewrite <- Hperm. lia.
  - intros Hnd1. apply Htbl; [done|]. intros [x y] Hin. simpl.
    apply elem_of_zip_l in Hin.
    assert (x ∈ dbRouteTablesOf vpc w1) as [_ ?]%list_elem_of_filter by by rewrite Hls.
    done.
Qed.

(** ** Keys stay distinct *)

Lemma Forall2_filter_keys (P : SRouteTable → Prop) `{!∀ r, Decision (P r)}
    (l k : list SRouteTable) :
  Forall2 (λ r r', (P r ↔ P r') ∧ ExternalId r' = ExternalId r) l k →
  ExternalId <$> filter P k = ExternalId <$> filter P l.
Proof.
  induction 1 as [|r r' l k [HP Hk] _ IH]; [done|].
  rewrite !filter_cons.
  destruct (decide (P r)) as [Hr|Hr], (decide (P r')) as [Hr'|Hr']; try tauto.
  by rewrite !fmap_cons, Hk, IH.
Qed.

(** Distinct keys stay distinct: if the rows of the VPC have pairwise
    distinct external ids before a pass (and row identifiers are unique),
    they have after it, whatever fails during the pass; so a pass never
    makes the next one fail on an ambiguous local key. *)
Theorem SyncRouteTables_keys_stay_distinct env userCred vpc remotes w :
  NoDup (Id <$> route_tables_tbl w) →
  NoDup (ExternalId <$> dbRouteTablesOf vpc w) →
  NoDup (ExternalId <$>
           dbRouteTablesOf vpc (SyncRouteTables env userCred vpc remotes w).2).
Proof.
  intros Hnd Hl.
  destruct (fetch_error env) as [err|] eqn:Hf.
  { by rewrite (SyncRouteTables_fetch_failed _ _ _ _ _ err Hf). }
  destruct (CompareSets ExternalId GetGlobalId (dbRouteTablesOf vpc w) remotes)
    as [err|[[[removed commondb] commonext] added]] eqn:Hc.
  { by rewrite (SyncRouteTables_compare_failed _ _ _ _ _ err Hf Hc). }
  rewrite (SyncRouteTables_applied _ _ _ _ _ _ _ _ _ Hf Hc), applyBuckets_run.
  destruct (CompareSets_inr_common _ _ _ _ _ _ _ _ Hc) as (Hcom & Hfst & _ & _).
  apply CompareSets_inr_NoDup in Hc as (_ & Hr & [= _ _ _ Hadded]).
  pose proof (removeLoop_tbl env removed emptyResult w) as Ht1.
  destruct (removeLoop env removed emptyResult w) as [res1 w1].
  pose proof (updateLoop_tbl env userCred vpc (zip commondb commonext)
                ([], [], res1) w1) as Ht2.
  destruct (updateLoop _ _ _ _ _ w1) as [[[ls2 rs2] res2] w2].
  destruct (addLoop _ _ _ _ _ w2) as [[[ls rs] res] w3] eqn:Had.
  pose proof Had as (rows & exts & Hls & _ & Ht3 & _)%addLoop_result.
  apply addLoop_aligned in Had as (rows' & exts' & Hls' & _ & Hall & Hsub).
  rewrite Hls in Hls'. apply app_inv_head in Hls' as <-.
  simpl in *. unfold dbRouteTablesOf. rewrite Ht3, filter_app, fmap_app.
  assert (Hkept : ExternalId <$> filter (λ rt, VpcId rt = vpc_Id vpc) (route_tables_tbl w2)
                  = ExternalId <$> filter (λ rt, VpcId rt = vpc_Id vpc) (route_tables_tbl w1)).
  { apply Forall2_filter_keys.
    apply (Forall2_Forall_l (λ r, r ∈ route_tables_tbl w)) in Ht2.
    2:{ apply Forall_forall. intros r. rewrite Ht1.
        by intros [_ ?]%list_elem_of_filter. }
    eapply Forall2_impl; [exact Ht2|]. simpl.
    intros r r' [Hr' [->|(self & rt0 & Hin & Hid & ->)]]; [done|].
    assert (Hself : self ∈ dbRouteTablesOf vpc w).
    { rewrite Forall_forall in Hcom.
      apply list_elem_of_fmap in Hin as (p & -> & Hp). by apply Hcom in Hp as [? _]. }
    apply list_elem_of_filter in Hself as [Hv Hself].
    assert (self = r) as -> by by apply (NoDup_fmap_inj_on Id (route_tables_tbl w)).
    simpl. by split. }
  rewrite Hkept, Ht1, filter_comm. fold (dbRouteTablesOf vpc w).
  assert (Hrows : ExternalId <$> rows = GetGlobalId <$> exts').
  { clear -Hall. induction Hall as [|x y l k [Hk _] _ IH]; [done|].
    by rewrite !fmap_cons, Hk, IH. }
  rewrite (filter_all (λ rt, VpcId rt = vpc_Id vpc) rows).
  2:{ apply Forall_forall. intros r Hrin.
      by destruct (Forall2_elem_of_left _ _ _ _ Hall Hrin) as (? & _ & _ & ? & _). }
  rewrite Hrows. apply NoDup_app. split_and!.
  - eapply sublist_NoDup; [exact Hl|]. apply fmap_sublist, sublist_filter.
  - intros k (x & -> & [_ Hx]%list_elem_of_filter)%list_elem_of_fmap
             (y & Hk & Hy)%list_elem_of_fmap.
    eapply elem_of_sublist in Hy; [|exact Hsub]. rewrite Hadded in Hy.
    apply list_elem_of_filter in Hy as [Hnew _]. apply Hnew. rewrite <- Hk.
    by apply list_elem_of_fmap_2.
  - eapply sublist_NoDup; [exact Hr|]. apply fmap_sublist.
    etrans; [exact Hsub|]. rewrite Hadded. apply sublist_filter.
Qed.

Lemma SyncRouteTables_keys_stay_distinct_witness :
  NoDup (ExternalId <$>
           dbRouteTablesOf vpc1
             (SyncRouteTables env_row3_in_use cred vpc1 [extB; extC] world_five).2).
Proof.
  apply (SyncRouteTables_keys_stay_distinct env_row3_in_use cred vpc1 [extB; extC]
           world_five); compute_done.
Defined.

(** ** Purging a route table, and the pass on the sample inputs again *)

(** The delete validation is checked before the provider: when it refuses,
    the purge answers its error, whatever the provider; when it passes and
    the provider is enabled, the purge answers the invalid-status error;
    otherwise it answers what the delete answers.  So a purge deletes only
    when the delete validation passes and the provider is absent or
    disabled; a refused purge leaves the store untouched and makes no call
    on it; a purge that reports no error has removed the row; a failed
    delete leaves the table, the audit log and the metadata as they were. *)
Theorem PerformPurge_guarded env provider rt w :
  let out := PerformPurge env provider rt w in
  (∀ err, validate_delete env rt = Some err → out.1 = Some err)
  ∧ (validate_delete env rt = None → provider = Some true →
     out.1 = Some (ValidationError
                     "Cannot purge route_table on enabled cloud provider"))
  ∧ (validate_delete env rt = None → provider ≠ Some true →
     out.1 = delete_error env rt)
  ∧ (out.1 = None
   ↔ validate_delete env rt = None ∧ provider ≠ Some true
     ∧ delete_error env rt = None)
  ∧ (validate_delete env rt ≠ None ∨ provider = Some true → out.2 = w)
  ∧ (out.1 = None →
     route_tables_tbl out.2 = filter (λ r, Id r ≠ Id rt) (route_tables_tbl w)
     ∧ calls out.2 = calls w ++ [CallDelete (Id rt) true; CallOpsLog ACT_DELETE (Id rt);
                                 CallSyncMetadata (Id rt)])
  ∧ (out.1 ≠ None →
     route_tables_tbl out.2 = route_tables_tbl w
     ∧ opslogs out.2 = opslogs w ∧ metadata out.2 = metadata w).
Proof.
  pose proof (syncRemoveCloudRouteTable_run env rt w) as Hrun.
  unfold syncRemoveCloudRouteTable, ValidateDeleteCondition in Hrun.
  unfold PerformPurge, ValidateDeleteCondition. cbn zeta.
  destruct (validate_delete env rt) as [err|] eqn:Hv.
  { simpl. split_and!; try done. split; [done|by intros (? & _)]. }
  destruct provider as [[|]|]; simpl.
  - split_and!; try done. split; [done|by intros (_ & ? & _)].
  - rewrite Hrun. destruct (delete_error env rt) as [err|]; simpl.
    + split_and!; try done; [split; [done|by intros (_ & _ & ?)]|by intros [?|?]].
    + split_and!; try done. by intros [?|?].
  - rewrite Hrun. destruct (delete_error env rt) as [err|]; simpl.
    + split_and!; try done; [split; [done|by intros (_ & _ & ?)]|by intros [?|?]].
    + split_and!; try done. by intros [?|?].
Qed.

Lemma SyncRouteTables_keeps_rows_witness :
  NoDup (Id <$> route_tables_tbl world_AB)
  ∧ ∃ sub kept new,
      route_tables_tbl (SyncRouteTables env_ok cred vpc1 [extB; extC] world_AB).2
        = kept ++ new
      ∧ sub `sublist_of` route_tables_tbl world_AB
      ∧ (∀ r, r ∈ route_tables_tbl world_AB →
           VpcId r ≠ vpc_Id vpc1 ∨ ExternalId r ∈ GetGlobalId <$> [extB; extC] →
           r ∈ sub)
      ∧ Forall2 (same_identity vpc1) sub kept
      ∧ Forall (λ r, VpcId r = vpc_Id vpc1
                     ∧ ExternalId r ∈ GetGlobalId <$> [extB; extC]
                     ∧ ExternalId r ∉ ExternalId <$> dbRouteTablesOf vpc1 world_AB) new.
Proof.
  split; [compute_done|].
  apply (SyncRouteTables_keeps_rows env_ok cred vpc1 [extB; extC] world_AB).
  compute_done.
Defined.

Lemma SyncRouteTables_no_remote_witness :
  ∃ res w',
    SyncRouteTables env_row3_in_use cred vpc1 [] world_five
      = ((Some [], Some [], res), w')
    ∧ DelErrs res = omap (delete_outcome env_row3_in_use) (dbRouteTablesOf vpc1 world_five)
    ∧ DelCnt res + DelErrCnt res = length (dbRouteTablesOf vpc1 world_five)
    ∧ AddCnt res = 0 ∧ AddErrs res = [] ∧ UpdateCnt res = 0
    ∧ UpdateErrs res = [] ∧ PassErrs res = []
    ∧ (∀ rt, rt ∈ dbRouteTablesOf vpc1 w' →
         rt ∈ dbRouteTablesOf vpc1 world_five
         ∧ delete_outcome env_row3_in_use rt ≠ None)
    ∧ (Forall (λ rt, delete_outcome env_row3_in_use rt = None)
         (dbRouteTablesOf vpc1 world_five) →
       dbRouteTablesOf vpc1 w' = []).
Proof.
  apply (SyncRouteTables_no_remote env_row3_in_use cred vpc1 world_five);
    [reflexivity|compute_done].
Defined.

Lemma SyncRouteTables_reconciles_witness :
  ∃ ls rs res w',
    SyncRouteTables env_ok cred vpc1 [extB; extC] world_AB
      = ((Some ls, Some rs, res), w')
    ∧ dbRouteTablesOf vpc1 w' = ls
    ∧ Forall2 (in_sync vpc1) ls rs
    ∧ rs ≡ₚ [extB; extC]
    ∧ ExternalId <$> dbRouteTablesOf vpc1 w' ≡ₚ GetGlobalId <$> [extB; extC]
    ∧ AddErrs res = [] ∧ UpdateErrs res = [] ∧ DelErrs res = [] ∧ PassErrs res = []
    ∧ DelCnt res + UpdateCnt res = length (dbRouteTablesOf vpc1 world_AB)
    ∧ UpdateCnt res + AddCnt res = length [extB; extC].
Proof.
  apply (SyncRouteTables_reconciles env_ok cred vpc1 [extB; extC] world_AB).
  - unfold never_fails. by split_and!.
  - repeat constructor; eexists; reflexivity.
  - compute_done.
  - compute_done.
  - compute_done.
Defined.

Lemma SyncRouteTables_converges_witness :
  ∃ ls rs res w1 w2,
    SyncRouteTables env_ok cred vpc1 [extB; extC] world_AB
      = ((Some ls, Some rs, res), w1)
    ∧ SyncRouteTables env_ok cred vpc1 [extB; extC] w1
      = ((Some ls, Some rs, mkSyncResult 0 [] 2 [] 0 [] []), w2)
    ∧ (NoDup (Id <$> route_tables_tbl w1) →
       route_tables_tbl w2 = route_tables_tbl w1).
Proof.
  apply (SyncRouteTables_converges env_ok cred vpc1 [extB; extC] world_AB).
  - unfold never_fails. by split_and!.
  - repeat constructor; eexists; reflexivity.
  - compute_done.
  - compute_done.
  - compute_done.
Defined.

(** The second pass over the sample world, run. *)
Example second_pass_is_quiet :
  let w1 := (SyncRouteTables env_ok cred vpc1 [extB; extC] world_AB).2 in
  let out := SyncRouteTables env_ok cred vpc1 [extB; extC] w1 in
  out.1.2 = mkSyncResult 0 [] 2 [] 0 [] []
  ∧ route_tables_tbl out.2 = route_tables_tbl w1.
Proof. vm_compute. done. Qed.

(** ** The rule comparator *)



Lemma string_lt_irrefl (a : string) : ¬ strict String.le a a.
Proof. intros [H1 H2]. done. Qed.











Lemma assign_priorities_Some slots rs out :
  assign_priorities slots rs = Some out →
  length rs ≤ length slots
  ∧ Forall2 (λ r o, ∃ p, p ∈ slots ∧ o = set_priority p r) rs out.
Proof.
  revert slots out. induction rs as [|r rs IH]; intros slots out; simpl.
  - destruct slots; intros [= ?]; subst out; (split; [simpl; lia|constructor]).
  - destruct slots as [|p slots]; [done|]. simpl.
    destruct (assign_priorities slots rs) as [rest|] eqn:Hrest; [|done].
    simpl. intros [= ?]; subst out. destruct (IH _ _ Hrest) as [Hlen Hall].
    split; [lia|]. constructor.
    + exists p. split; [left|done].
    + eapply Forall2_impl; [exact Hall|]. intros r' o (q & Hq & ->).
      exists q. split; [by right|done].
Qed.

Lemma assign_priorities_None slots rs :
  assign_priorities slots rs = None ↔ length slots < length rs.
Proof.
  revert slots. induction rs as [|r rs IH]; intros slots; simpl.
  - destruct slots; split; simpl; (done || lia).
  - destruct slots as [|p slots]; simpl; [split; [lia|done]|].
    rewrite <- Nat.succ_lt_mono, <- IH.
    destruct (assign_priorities slots rs); simpl; split; done.
Qed.

Lemma free_slots_bounds minPriority maxPriority kept p :
  p ∈ free_slots minPriority maxPriority kept →
  (minPriority ≤ p ≤ maxPriority)%Z ∧ p ∉ priority <$> kept.
Proof.
  unfold free_slots. rewrite list_elem_of_filter, elem_of_seqZ. intros [? ?].
  split; [lia|done].
Qed.

Lemma free_slots_length minPriority maxPriority kept :
  length (free_slots minPriority maxPriority kept)
  ≤ Z.to_nat (maxPriority - minPriority + 1).
Proof.
  unfold free_slots. rewrite <- (length_seqZ minPriority). apply length_filter.
Qed.

Lemma assign_priorities_elem slots rs out o :
  assign_priorities slots rs = Some out → o ∈ out →
  ∃ r p, r ∈ rs ∧ p ∈ slots ∧ o = set_priority p r.
Proof.
  revert slots out. induction rs as [|r rs IH]; intros slots out; simpl.
  - destruct slots; intros [= ?]; subst out; by intros ?%elem_of_nil.
  - destruct slots as [|p slots]; [done|]. simpl.
    destruct (assign_priorities slots rs) as [rest|] eqn:Hrest; [|done].
    simpl. intros [= ?]; subst out. intros [->|Ho]%elem_of_cons.
    + exists r, p. split_and!; [left|left|done].
    + destruct (IH _ _ Hrest Ho) as (r' & q & Hr & Hq & ->).
      exists r', q. split_and!; [by right|by right|done].
Qed.

Lemma assign_priorities_length slots rs out :
  assign_priorities slots rs = Some out → length out = length rs.
Proof.
  intros [_ Hall]%assign_priorities_Some. symmetry. by eapply Forall2_length.
Qed.




Section CompareRules_facts.
Variable effective : list Rule → list Rule.
Variables minPriority maxPriority : Z.
Variables localRules remoteRules : list Rule.
Variables defaultIn defaultOut : Rule.
Variables allowOnly includeIn includeOut : bool.

Abbreviation compare := (CompareRules effective minPriority maxPriority
  localRules remoteRules defaultIn defaultOut allowOnly includeIn includeOut).
Abbreviation to_add := (rules_to_add effective localRules remoteRules
  defaultIn defaultOut allowOnly includeIn includeOut).
Abbreviation to_delete := (rules_to_delete effective localRules remoteRules
  defaultIn defaultOut allowOnly includeIn includeOut).
Abbreviation kept := (kept_rules effective localRules remoteRules
  defaultIn defaultOut allowOnly includeIn includeOut).
Abbreviation slots d := (free_slots minPriority maxPriority (in_dir d kept)).
Abbreviation answers := (invocation_answers effective minPriority maxPriority
  localRules remoteRules defaultIn defaultOut allowOnly includeIn includeOut).
Abbreviation allows := (ordering_allows effective
  localRules remoteRules defaultIn defaultOut allowOnly includeIn includeOut).

Lemma CompareRules_Compared common inAdds outAdds inDels outDels :
  compare = Compared common inAdds outAdds inDels outDels →
  assign_priorities (slots DirIn) (in_dir DirIn to_add) = Some inAdds
  ∧ assign_priorities (slots DirOut) (in_dir DirOut to_add) = Some outAdds
  ∧ common = kept
  ∧ inDels = in_dir DirIn to_delete ∧ outDels = in_dir DirOut to_delete.
Proof.
  unfold CompareRules.
  destruct (assign_priorities (slots DirIn) _) as [ia|]; [|done].
  destruct (assign_priorities (slots DirOut) _) as [oa|]; [|done].
  by intros [= <- <- <- <- <-].
Qed.

Lemma CompareRules_exhausted :
  compare = PriorityExhaustedError
  ↔ ∃ d, length (slots d) < length (in_dir d to_add).
Proof.
  unfold CompareRules. split.
  - destruct (assign_priorities (slots DirIn) _) as [ia|] eqn:Hin.
    + destruct (assign_priorities (slots DirOut) _) as [oa|] eqn:Hout; [done|].
      intros _. exists DirOut. by apply assign_priorities_None.
    + intros _. exists DirIn. by apply assign_priorities_None.
  - intros [[] Hd]; apply assign_priorities_None in Hd; rewrite Hd; [done|].
    by destruct (assign_priorities (slots DirIn) _).
Qed.





(** Claim C5.  Every rule [CompareRules] returns in inAdds or outAdds has
    its priority in [minPriority, maxPriority].  When the rules to add of
    one direction are more than the interval has priorities, the comparison
    fails with [PriorityExhaustedError]; it fails exactly when some
    direction has more rules to add than free priorities. *)
Theorem CompareRules_priority_bounds :
  (∀ common inAdds outAdds inDels outDels r,
     compare = Compared common inAdds outAdds inDels outDels →
     r ∈ inAdds ++ outAdds →
     (minPriority ≤ priority r ≤ maxPriority)%Z)
  ∧ (∀ d, Z.to_nat (maxPriority - minPriority + 1) < length (in_dir d to_add) →
          compare = PriorityExhaustedError)
  ∧ (compare = PriorityExhaustedError
     ↔ ∃ d, length (free_slots minPriority maxPriority (in_dir d kept))
            < length (in_dir d to_add)).
Proof.
  split_and!.
  - intros common inAdds outAdds inDels outDels r Hc Hr.
    apply CompareRules_Compared in Hc as (Hin & Hout & _).
    apply elem_of_app in Hr as [Hr|Hr].
    + destruct (assign_priorities_elem _ _ _ _ Hin Hr) as (l & p & _ & Hp & ->).
      by apply free_slots_bounds in Hp as [? _].
    + destruct (assign_priorities_elem _ _ _ _ Hout Hr) as (l & p & _ & Hp & ->).
      by apply free_slots_bounds in Hp as [? _].
  - intros d Hd. apply CompareRules_exhausted. exists d.
    eapply Nat.le_lt_trans; [apply free_slots_length|done].
  - apply CompareRules_exhausted.
Qed.








End CompareRules_facts.

(** ** The rule comparator on the sample inputs *)

(** The specification's rule scenario: one local rule, no remote rule,
    priorities 1 to 100. *)
Example CompareRules_one_rule :
  CompareRules id 1 100 [rule DirIn Allow "tcp" 22 90] [] default_in default_out
    false true true
  = Compared [] [rule DirIn Allow "tcp" 22 1] [] [] [].
Proof. vm_compute. reflexivity. Qed.

(** [TestAliyunRuleSync]: the local and the remote rules differ in their
    priorities only, and nothing is to add or to delete. *)
Example CompareRules_aliyun_test :
  ∃ common,
    CompareRules id 1 100 aliyun_local aliyun_remote default_in default_out
      false true true
    = Compared common [] [] [] [].
Proof. eexists. vm_compute. reflexivity. Qed.

Lemma CompareRules_priority_bounds_witness :
  CompareRules id 1 3 aliyun_local [] default_in default_out false true true
    = PriorityExhaustedError
  ∧ ∀ r, r ∈ [rule DirIn Allow "tcp" 22 1] ++ [] → (1 ≤ priority r ≤ 100)%Z.
Proof.
  split.
  - apply (proj1 (proj2 (CompareRules_priority_bounds id 1 3 aliyun_local []
                           default_in default_out false true true)) DirIn).
    vm_compute. lia.
  - intros r.
    exact (proj1 (CompareRules_priority_bounds id 1 100
                    [rule DirIn Allow "tcp" 22 90] [] default_in default_out
                    false true true)
             [] [rule DirIn Allow "tcp" 22 1] [] [] [] r eq_refl).
Defined.




(** * Theorems on the other packages *)

(** ** Merging tag values *)

Section DataSource_facts.
Import DataSource.

Lemma count_elems_zero (slice : list string) (v : string) :
  default 0 (count_elems slice !! v) = 0 ↔ v ∉ slice.
Proof.
  unfold count_elems.
  assert (Hgen : ∀ m : gmap string nat, default 0 (foldl (λ m v, <[v := S (default 0 (m !! v))]> m) m slice !! v) = 0
                      ↔ default 0 (m !! v) = 0 ∧ v ∉ slice).
  { induction slice as [|x slice IH]; intros m; simpl.
    - split; [intros ?; split; [done|apply not_elem_of_nil]|by intros [? _]].
    - rewrite IH, not_elem_of_cons. destruct (decide (x = v)) as [->|Hx].
      + rewrite lookup_insert_eq. simpl. split; [by intros [? _]|by intros [_ [? _]]].
      + rewrite lookup_insert_ne by done. split.
        * intros [? ?]. by split_and!.
        * intros [? [? ?]]. by split. }
  rewrite Hgen, lookup_empty. simpl. tauto.
Qed.

Lemma union_filter (slice1 slice2 : list string) :
  union slice1 slice2 = slice1 ++ filter (λ v, v ∉ slice1) slice2.
Proof.
  unfold union. generalize (count_elems_zero slice1).
  generalize (count_elems slice1). intros m Hm.
  assert (Hgen : ∀ acc,
    foldl (λ acc v, if decide (default 0 (m !! v) = 0) then acc ++ [v] else acc) acc slice2
    = acc ++ filter (λ v, v ∉ slice1) slice2).
  { induction slice2 as [|v slice2 IH]; intros acc; simpl.
    - by rewrite app_nil_r.
    - rewrite IH, filter_cons. destruct (decide (default 0 (m !! v) = 0)) as [Hz|Hz].
      + rewrite decide_True by by apply Hm. by rewrite <- app_assoc.
      + rewrite decide_False; [done|]. intros Hn. by apply Hz, Hm. }
  apply Hgen.
Qed.

Lemma union_NoDup (slice1 slice2 : list string) :
  NoDup slice1 → NoDup slice2 → NoDup (union slice1 slice2).
Proof.
  intros H1 H2. rewrite union_filter. apply NoDup_app. split_and!; [done| |].
  - by intros v Hv [? _]%list_elem_of_filter.
  - eapply sublist_NoDup; [exact H2|apply sublist_filter].
Qed.

(** [union] keeps [slice1] and appends, in order, the elements of [slice2]
    that are not in [slice1]: what it answers holds exactly the elements of
    the two slices, and is free of duplicates when both slices are; an
    element that [slice2] repeats and [slice1] lacks is appended each
    time. *)
Theorem union_spec (slice1 slice2 : list string) :
  union slice1 slice2 = slice1 ++ filter (λ v, v ∉ slice1) slice2
  ∧ (∀ v, v ∈ union slice1 slice2 ↔ v ∈ slice1 ∨ v ∈ slice2)
  ∧ (NoDup slice1 → NoDup slice2 → NoDup (union slice1 slice2))
  ∧ (∀ v, v ∉ slice1 → union slice1 [v; v] = slice1 ++ [v; v]).
Proof.
  split_and!.
  - apply union_filter.
  - intros v. rewrite union_filter, elem_of_app, list_elem_of_filter.
    destruct (decide (v ∈ slice1)); tauto.
  - apply union_NoDup.
  - intros v Hv. rewrite union_filter. by rewrite !filter_cons_True.
Qed.

Lemma union_absorb (cur vals : list string) :
  union (union cur vals) vals = union cur vals ∧ union vals vals = vals.
Proof.
  rewrite !union_filter. split.
  - rewrite (filter_none (λ v, v ∉ cur ++ filter (λ v, v ∉ cur) vals)).
    + by rewrite app_nil_r.
    + apply Forall_forall. intros v Hv Hn. apply Hn.
      rewrite elem_of_app, list_elem_of_filter. destruct (decide (v ∈ cur)); tauto.
  - rewrite (filter_none (λ v, v ∉ vals)); [by rewrite app_nil_r|].
    apply Forall_forall. by intros v Hv Hn.
Qed.

Lemma tagValUnion_tag_lookup rtn TagValue t tag :
  tagValUnion_tag rtn TagValue t !! tag
  = if decide (t = tag) then merged rtn TagValue tag else TagValue !! tag.
Proof.
  unfold tagValUnion_tag, merged. destruct (decide (t = tag)) as [->|Hne].
  - destruct (rtn !! tag); [|done].
    destruct (TagValue !! tag); by rewrite lookup_insert_eq.
  - destruct (rtn !! t); [|done].
    destruct (TagValue !! t); by rewrite lookup_insert_ne.
Qed.

Lemma merged_tagValUnion_tag rtn TagValue t tag :
  merged rtn (tagValUnion_tag rtn TagValue t) tag = merged rtn TagValue tag.
Proof.
  unfold merged at 1. rewrite tagValUnion_tag_lookup.
  destruct (decide (t = tag)) as [->|Hne]; [|done].
  unfold merged. destruct (rtn !! tag) as [vals|] eqn:Hr; [|done].
  destruct (TagValue !! tag) as [cur|]; f_equal.
  - apply (proj1 (union_absorb cur vals)).
  - apply (proj2 (union_absorb vals vals)).
Qed.

(** After [tagValUnion] a tag that is in [TagKey] and has values in [rtn]
    holds those values, merged by [union] into the ones it had; every other
    tag holds what it held.  The result does not depend on how often a tag
    occurs in [TagKey], and lists free of duplicates stay so. *)
Theorem tagValUnion_lookup (TagKey : list string)
    (TagValue rtn : gmap string (list string)) (tag : string) :
  tagValUnion TagKey TagValue rtn !! tag
  = (if decide (tag ∈ TagKey) then merged rtn TagValue tag else TagValue !! tag)
  ∧ ((∀ t vals, TagValue !! t = Some vals → NoDup vals) →
     (∀ t vals, rtn !! t = Some vals → NoDup vals) →
     ∀ vals, tagValUnion TagKey TagValue rtn !! tag = Some vals → NoDup vals).
Proof.
  assert (Hlook : ∀ TagValue,
    tagValUnion TagKey TagValue rtn !! tag
    = if decide (tag ∈ TagKey) then merged rtn TagValue tag else TagValue !! tag).
  { unfold tagValUnion. induction TagKey as [|t ks IH]; intros TV; cbn [foldl].
    - destruct (decide (tag ∈ [])) as [Hin|_]; [|done]. by apply elem_of_nil in Hin.
    - rewrite IH, merged_tagValUnion_tag, tagValUnion_tag_lookup.
      destruct (decide (tag ∈ ks)) as [Hin|Hin].
      + by rewrite decide_True by by right.
      + destruct (decide (t = tag)) as [->|Hne].
        * by rewrite decide_True by left.
        * rewrite decide_False; [done|]. by intros [?|?]%elem_of_cons. }
  split; [apply Hlook|]. intros HTV Hrtn vals. rewrite Hlook.
  destruct (decide (tag ∈ TagKey)); [|apply HTV].
  unfold merged. destruct (rtn !! tag) as [rv|] eqn:Hr; [|apply HTV].
  destruct (TagValue !! tag) as [cur|] eqn:Hc; intros [= <-].
  - apply union_NoDup; eauto.
  - eauto.
Qed.

Example union_not_a_set_union :
  union ["a"; "b"] ["b"; "c"; "c"] = ["a"; "b"; "c"; "c"].
Proof. vm_compute. reflexivity. Qed.
End DataSource_facts.

(** ** Joining URL paths, reading responses *)

Section HttpUtils_facts.
Import HttpUtils.

Section Trim.
Variable cs : list ascii.

Lemma TrimLeft_app_cut l k :
  Forall (λ c, c ∈ cs) l → strings_TrimLeft (l ++ k) cs = strings_TrimLeft k cs.
Proof.
  induction 1 as [|c l Hc _ IH]; [done|]. simpl. by rewrite decide_True.
Qed.

Lemma TrimLeft_nil_iff l : strings_TrimLeft l cs = [] ↔ Forall (λ c, c ∈ cs) l.
Proof.
  induction l as [|c l IH]; simpl; [done|].
  destruct (decide (c ∈ cs)) as [Hc|Hc].
  - rewrite IH. split; [by constructor|by intros [_ ?]%Forall_cons].
  - split; [done|]. by intros [? _]%Forall_cons.
Qed.

Lemma TrimLeft_app_keep l k :
  strings_TrimLeft l cs ≠ [] →
  strings_TrimLeft (l ++ k) cs = strings_TrimLeft l cs ++ k.
Proof.
  induction l as [|c l IH]; simpl; [done|].
  destruct (decide (c ∈ cs)); [apply IH|done].
Qed.

Lemma TrimLeft_split l :
  ∃ cut, l = cut ++ strings_TrimLeft l cs ∧ Forall (λ c, c ∈ cs) cut
         ∧ ∀ c, head (strings_TrimLeft l cs) = Some c → c ∉ cs.
Proof.
  induction l as [|c l (cut & Hl & Hcut & Hhd)]; simpl.
  - exists []. split_and!; [done|constructor|done].
  - destruct (decide (c ∈ cs)) as [Hc|Hc].
    + exists (c :: cut). split_and!; [by rewrite Hl at 1|by constructor|done].
    + exists []. split_and!; [done|constructor|]. by intros ? [= <-].
Qed.

Lemma TrimLeft_head l :
  (∀ c, head l = Some c → c ∉ cs) → strings_TrimLeft l cs = l.
Proof.
  destruct l as [|c l]; [done|]. simpl. intros Hhd.
  by rewrite decide_False by by apply Hhd.
Qed.

Lemma TrimLeft_idemp l :
  strings_TrimLeft (strings_TrimLeft l cs) cs = strings_TrimLeft l cs.
Proof. destruct (TrimLeft_split l) as (_ & _ & _ & Hhd). by apply TrimLeft_head. Qed.

Lemma TrimRight_app_cut l k :
  Forall (λ c, c ∈ cs) k → strings_TrimRight (l ++ k) cs = strings_TrimRight l cs.
Proof.
  intros Hk. unfold strings_TrimRight. rewrite reverse_app, TrimLeft_app_cut; [done|].
  by apply Forall_reverse.
Qed.

Lemma TrimRight_nil_iff l : strings_TrimRight l cs = [] ↔ Forall (λ c, c ∈ cs) l.
Proof.
  unfold strings_TrimRight. rewrite <- (Forall_reverse _ l), <- TrimLeft_nil_iff.
  split; [|by intros ->].
  intros H. apply (f_equal reverse) in H. by rewrite reverse_involutive in H.
Qed.

Lemma TrimRight_app_keep l k :
  strings_TrimRight k cs ≠ [] →
  strings_TrimRight (l ++ k) cs = l ++ strings_TrimRight k cs.
Proof.
  intros Hk. unfold strings_TrimRight. rewrite reverse_app, TrimLeft_app_keep.
  - by rewrite reverse_app, reverse_involutive.
  - intros H. apply Hk. unfold strings_TrimRight. by rewrite H.
Qed.

Lemma TrimRight_split l :
  ∃ cut, l = strings_TrimRight l cs ++ cut ∧ Forall (λ c, c ∈ cs) cut
         ∧ ∀ c, last (strings_TrimRight l cs) = Some c → c ∉ cs.
Proof.
  destruct (TrimLeft_split (reverse l)) as (cut & Hl & Hcut & Hhd).
  exists (reverse cut). unfold strings_TrimRight. split_and!.
  - rewrite <- reverse_app, <- Hl. by rewrite reverse_involutive.
  - by apply Forall_reverse.
  - intros c. rewrite last_reverse. apply Hhd.
Qed.

Lemma TrimRight_idemp l :
  strings_TrimRight (strings_TrimRight l cs) cs = strings_TrimRight l cs.
Proof.
  unfold strings_TrimRight. by rewrite reverse_involutive, TrimLeft_idemp.
Qed.

Lemma TrimLeft_TrimRight l :
  strings_TrimRight (strings_TrimLeft l cs) cs
  = strings_TrimLeft (strings_TrimRight l cs) cs.
Proof.
  destruct (decide (strings_TrimLeft l cs = [])) as [Hnil|Hne].
  - rewrite Hnil. apply TrimLeft_nil_iff in Hnil.
    rewrite (proj2 (TrimRight_nil_iff l) Hnil). done.
  - destruct (TrimLeft_split l) as (cut & Hl & Hcut & Hhd).
    assert (Hne' : strings_TrimRight (strings_TrimLeft l cs) cs ≠ []).
    { intros H. apply TrimRight_nil_iff, TrimLeft_nil_iff in H.
      by rewrite TrimLeft_idemp in H. }
    rewrite Hl at 2. rewrite TrimRight_app_keep by done.
    rewrite TrimLeft_app_cut by done. symmetry. apply TrimLeft_head.
    intros c Hc. apply Hhd.
    destruct (TrimRight_split (strings_TrimLeft l cs)) as (cut' & Hl' & _).
    rewrite Hl'. destruct (strings_TrimRight (strings_TrimLeft l cs) cs); done.
Qed.
End Trim.

(** [JoinPath] puts exactly one slash at the joint: what it answers is the
    endpoint without its trailing slashes, a slash, and the path without its
    leading slashes; so it does not matter how many slashes the endpoint
    ends with or the path begins with, and nothing else is taken away. *)
Theorem JoinPath_joint (ep path : list ascii) :
  ∃ e p n m,
    JoinPath ep path = e ++ slash ++ p
    ∧ ep = e ++ replicate n "/"%char
    ∧ path = replicate m "/"%char ++ p
    ∧ last e ≠ Some "/"%char
    ∧ head p ≠ Some "/"%char
    ∧ ∀ n' m', JoinPath (e ++ replicate n' "/"%char) (replicate m' "/"%char ++ p)
               = JoinPath ep path.
Proof.
  assert (Hrep : ∀ l, Forall (λ c, c ∈ slash) l → l = replicate (length l) "/"%char).
  { induction 1 as [|c l Hc%list_elem_of_singleton _ IH]; [done|].
    simpl. by rewrite Hc, <- IH. }
  assert (Hall : ∀ k, Forall (λ c, c ∈ slash) (replicate k "/"%char)).
  { intros k. apply Forall_replicate. left. }
  destruct (TrimRight_split slash ep) as (cut1 & He & Hc1 & Hl1).
  destruct (TrimLeft_split slash path) as (cut2 & Hp & Hc2 & Hh2).
  exists (strings_TrimRight ep slash), (strings_TrimLeft path slash),
    (length cut1), (length cut2).
  split_and!.
  - done.
  - by rewrite <- (Hrep cut1).
  - by rewrite <- (Hrep cut2).
  - intros H. apply (Hl1 _ H). left.
  - intros H. apply (Hh2 _ H). left.
  - intros n' m'. unfold JoinPath.
    rewrite TrimRight_app_cut, TrimLeft_app_cut by done.
    by rewrite TrimRight_idemp, TrimLeft_idemp.
Qed.

(** Joining is associative: a path built from three pieces is the same
    whichever joint is made first. *)
Theorem JoinPath_assoc (a b c : list ascii) :
  JoinPath (JoinPath a b) c = JoinPath a (JoinPath b c).
Proof.
  unfold JoinPath.
  destruct (decide (strings_TrimLeft b slash = [])) as [Hnil|Hne].
  - assert (Hb : Forall (λ c, c ∈ slash) b) by by apply TrimLeft_nil_iff.
    assert (Hs : Forall (λ c, c ∈ slash) slash) by (repeat constructor).
    rewrite Hnil, (proj2 (TrimRight_nil_iff slash b) Hb).
    rewrite app_nil_r, app_nil_l.
    rewrite (TrimRight_app_cut slash _ slash) by done.
    rewrite (TrimLeft_app_cut slash slash) by done.
    by rewrite TrimRight_idemp, TrimLeft_idemp.
  - assert (Hnb : ¬ Forall (λ c, c ∈ slash) b) by by rewrite <- TrimLeft_nil_iff.
    assert (Hr : strings_TrimRight b slash ≠ []) by by rewrite TrimRight_nil_iff.
    assert (Hlr : strings_TrimRight (strings_TrimLeft b slash) slash ≠ []).
    { intros H. apply TrimRight_nil_iff, TrimLeft_nil_iff in H.
      by rewrite TrimLeft_idemp in H. }
    rewrite (TrimRight_app_keep slash (strings_TrimRight a slash)).
    2:{ rewrite (TrimRight_app_keep slash slash) by done. done. }
    rewrite (TrimRight_app_keep slash slash) by done.
    rewrite (TrimLeft_app_keep slash (strings_TrimRight b slash)).
    2:{ by rewrite <- TrimLeft_TrimRight. }
    rewrite <- TrimLeft_TrimRight. by rewrite <- !app_assoc.
Qed.

Example JoinPath_sample :
  JoinPath (String.list_ascii_of_string "http://host:8080//") (String.list_ascii_of_string "//v1/servers/")
  = String.list_ascii_of_string "http://host:8080/v1/servers/".
Proof. vm_compute. reflexivity. Qed.
(** What [ParseResponse] answers, read through [ErrorCode] and [Cause]: the
    error code is 0 exactly when there is no error, and then the headers
    and the body read are answered; with an error neither is.  Any status
    below 300 counts as success.  A transport error is the client error
    499; a status from 300 to 399 is the error of class redirect with the
    [Location] header as its details; a status from 400 is a client error
    below 500 and a server error from 500, with the body as details, or
    the status line when the body is empty. *)
Theorem ParseResponse_classified (resp : string + Response) :
  let '(header, body, err) := ParseResponse resp in
  (ErrorCode err = 0%Z ↔ err = None)
  ∧ (err = None ↔ ∃ r rbody, resp = inr r ∧ ReadAll r = inr rbody
                    ∧ (StatusCode r < 300)%Z
                    ∧ header = Some (Header r) ∧ body = Some rbody)
  ∧ (err ≠ None → header = None ∧ body = None)
  ∧ (∀ msg, resp = inl msg →
       ErrorCode err = 499%Z ∧ ErrorMsg err = msg
       ∧ ∃ ce, err = Some (ClientError ce) ∧ Cause ce = ErrClient)
  ∧ (∀ r rbody, resp = inr r → ReadAll r = inr rbody → (300 ≤ StatusCode r)%Z →
       ErrorCode err = StatusCode r
       ∧ ∃ ce, err = Some (ClientError ce)
           ∧ Cause ce = (if decide (StatusCode r < 400)%Z then ErrorOfClass "redirect"
                         else if decide (500 ≤ StatusCode r)%Z then ErrServer
                         else ErrClient)
           ∧ Details ce = (if decide (StatusCode r < 400)%Z then Location r
                           else if decide (rbody = "") then Status r else rbody)).
Proof.
  destruct resp as [msg|r]; simpl.
  - split_and!; try done.
    + split; [done|]. by intros (? & ? & ? & _).
    + intros ? [= <-]. split_and!; [done|done|]. eexists. split; [done|]. done.
  - destruct (ReadAll r) as [e|rbody] eqn:Hread; simpl.
    + split_and!; try done; [split; [done|]; intros (? & ? & [= <-] & ? & _); congruence|].
      intros r' rbody' [= <-] ?. congruence.
    + destruct (decide (StatusCode r < 300)%Z) as [Hlt|Hge].
      * split_and!; try done.
        -- split; [|done]. intros _. by exists r, rbody.
        -- intros r' rbody' [= <-] _ ?. lia.
      * destruct (decide (300 ≤ StatusCode r ∧ StatusCode r < 400)%Z) as [Hr|Hr]; simpl.
        -- split_and!; try done.
           ++ split; [lia|done].
           ++ split; [done|]. intros (? & ? & [= <-] & _ & ? & _). lia.
           ++ intros r' rbody' [= <-] Hrd _. rewrite Hread in Hrd.
              injection Hrd as <-. split; [done|].
              eexists. split; [done|]. simpl. unfold Cause. simpl.
              rewrite !decide_True by lia. done.
        -- split_and!; try done.
           ++ split; [lia|done].
           ++ split; [done|]. intros (? & ? & [= <-] & _ & ? & _). lia.
           ++ intros r' rbody' [= <-] Hrd _. rewrite Hread in Hrd.
              injection Hrd as <-. split; [done|].
              eexists. split; [done|]. simpl. unfold Cause. simpl.
              rewrite (decide_False (P:=(StatusCode r < 400)%Z)) by lia.
              split.
              ** destruct (decide (500 ≤ StatusCode r)%Z); [done|].
                 rewrite decide_True by lia. done.
              ** destruct rbody; repeat case_decide; simpl in *; try done; lia.
Qed.

End HttpUtils_facts.

(** ** Disk and server creation inputs *)

Section DiskApi_facts.
Import DiskApi.


(** From a server input to a disk input and back: the conversion panics
    exactly when the server input has no configuration or no disk;
    otherwise the way back keeps the first disk only and loses the project
    id and the domain id. *)
Theorem ToDiskCreateInput_ToServerCreateInput (req : ServerCreateInput) :
  (ToDiskCreateInput req = Panics
   ↔ s_ServerConfigs req = None ∨ Disks <$> s_ServerConfigs req = Some [])
  ∧ ∀ conf disk disks,
      s_ServerConfigs req = Some conf →
      Disks conf = disk :: disks →
      ∃ out, ToDiskCreateInput req = Returns out
        ∧ ToServerCreateInput out
          = mkServerCreateInput (s_Name req) (s_Project req) "" (s_Domain req) ""
              (Some (mkServerConfigs (PreferRegion conf) (PreferZone conf)
                       (PreferWire conf) (PreferHost conf) (Hypervisor conf)
                       [disk])).
Proof.
  unfold ToDiskCreateInput. split.
  - destruct (s_ServerConfigs req) as [conf|]; simpl.
    + destruct (Disks conf); simpl; split; try done.
      * by right.
      * by intros [?|[=]].
    + split; [by left|done].
  - intros conf disk disks -> ->. eexists. split; [done|]. done.
Qed.
End DiskApi_facts.

(** ** Suggestion rules *)

Section SuggestRules_facts.
Import SuggestRules.

Lemma Register_lookup (m : gmap string ISuggestSysRuleDriver)
    (drvs : list ISuggestSysRuleDriver) (t : string) :
  RegisterSuggestSysRuleDrivers m drvs !! t
  = match last (filter (λ d, GetType d = t) drvs) with
    | Some d => Some d
    | None => m !! t
    end.
Proof.
  unfold RegisterSuggestSysRuleDrivers. revert m.
  induction drvs as [|d drvs IH]; intros m; [done|].
  cbn [foldl]. rewrite IH, filter_cons.
  destruct (decide (GetType d = t)) as [Hd|Hd].
  - rewrite last_cons. destruct (last (filter _ drvs)); [done|].
    by rewrite <- Hd, lookup_insert_eq.
  - destruct (last (filter _ drvs)); [done|]. by rewrite lookup_insert_ne.
Qed.

(** After [RegisterSuggestSysRuleDrivers] the map holds, under a type, the
    last of the drivers given that has this type, and what it held before
    when none has; so every driver given is found under its type unless a
    later one replaces it, and a map in which each driver is filed under
    its own type stays so. *)
Theorem RegisterSuggestSysRuleDrivers_lookup
    (m : gmap string ISuggestSysRuleDriver) (drvs : list ISuggestSysRuleDriver) :
  (∀ t, RegisterSuggestSysRuleDrivers m drvs !! t
        = match last (filter (λ d, GetType d = t) drvs) with
          | Some d => Some d
          | None => m !! t
          end)
  ∧ (∀ d, d ∈ drvs → is_Some (RegisterSuggestSysRuleDrivers m drvs !! GetType d))
  ∧ ((∀ t d, m !! t = Some d → GetType d = t) →
     ∀ t d, RegisterSuggestSysRuleDrivers m drvs !! t = Some d → GetType d = t).
Proof.
  split_and!.
  - apply Register_lookup.
  - intros d Hd. rewrite Register_lookup.
    destruct (last (filter _ drvs)) as [d'|] eqn:Hl; [done|].
    apply last_None in Hl.
    assert (Hin : d ∈ filter (λ d0, GetType d0 = GetType d) drvs)
      by by apply list_elem_of_filter.
    rewrite Hl in Hin. by apply elem_of_nil in Hin.
  - intros Hm t d. rewrite Register_lookup.
    destruct (last (filter _ drvs)) as [d'|] eqn:Hl; [|apply Hm].
    intros [= ->]. apply last_Some in Hl as [l Hl].
    assert (d ∈ filter (λ d0, GetType d0 = t) drvs) as [? _]%list_elem_of_filter;
      [|done].
    rewrite Hl. apply elem_of_app. right. left.
Qed.

(** The two validations of a rule: both put 30s for an empty period before
    anything else; creation never panics and refuses a type without a
    registered driver; an update of a rule whose type has no registered
    driver panics as soon as the period parses.  Creation accepts exactly
    when the period parses and the driver registered for the input's type
    accepts the setting; an update accepts exactly when the period parses
    and the driver registered for the rule's type accepts the setting; both
    then answer the input with the period filled in.  The period is
    checked first: a period that does not parse is refused as an invalid
    period format by both, whatever the drivers; next creation refuses a
    type without a driver as not supported; last the driver's refusal is
    answered, wrapped, by both. *)
Theorem Validate_create_and_update (ParseDuration_ok : string → bool)
    (drivers : gmap string ISuggestSysRuleDriver)
    (ruleType : string) (data : RuleInput) :
  let data' := with_default_period data in
  Period data' ≠ ""
  ∧ (∀ out, ValidateCreateData ParseDuration_ok drivers data = inr out →
       out = data' ∧ ParseDuration_ok (Period out) = true
       ∧ ∃ dri, drivers !! rule_Type data = Some dri
                ∧ ValidateSetting dri (Setting data) = None)
  ∧ (drivers !! rule_Type data = None →
     ∃ err, ValidateCreateData ParseDuration_ok drivers data = inl err)
  ∧ (ValidateUpdateData ParseDuration_ok drivers ruleType data = Panics
     ↔ ParseDuration_ok (Period data') = true ∧ drivers !! ruleType = None)
  ∧ (ruleType = rule_Type data → is_Some (drivers !! ruleType) →
     ∃ err, ValidateUpdateData ParseDuration_ok drivers ruleType data
            = Returns (data', err)
       ∧ (err = None ↔ ValidateCreateData ParseDuration_ok drivers data = inr data'))
  ∧ (ValidateCreateData ParseDuration_ok drivers data = inr data'
     ↔ ParseDuration_ok (Period data') = true
       ∧ ∃ dri, drivers !! rule_Type data = Some dri
                ∧ ValidateSetting dri (Setting data) = None)
  ∧ (ValidateUpdateData ParseDuration_ok drivers ruleType data = Returns (data', None)
     ↔ ParseDuration_ok (Period data') = true
       ∧ ∃ dri, drivers !! ruleType = Some dri
                ∧ ValidateSetting dri (Setting data) = None)
  ∧ (ParseDuration_ok (Period data') = false →
     ValidateCreateData ParseDuration_ok drivers data
       = inl (InvalidPeriodFormat (Period data'))
     ∧ ValidateUpdateData ParseDuration_ok drivers ruleType data
       = Returns (data', Some (InvalidPeriodFormat (Period data'))))
  ∧ (ParseDuration_ok (Period data') = true → drivers !! rule_Type data = None →
     ValidateCreateData ParseDuration_ok drivers data
       = inl (NotSupportType (rule_Type data)))
  ∧ (∀ dri err, ParseDuration_ok (Period data') = true →
       ValidateSetting dri (Setting data) = Some err →
       (drivers !! rule_Type data = Some dri →
        ValidateCreateData ParseDuration_ok drivers data
          = inl (ValidateSettingError err))
       ∧ (drivers !! ruleType = Some dri →
          ValidateUpdateData ParseDuration_ok drivers ruleType data
            = Returns (data', Some (ValidateSettingError err)))).
Proof.
  unfold ValidateCreateData, ValidateUpdateData. cbn zeta.
  assert (Hty : rule_Type (with_default_period data) = rule_Type data)
    by (unfold with_default_period; by case_decide).
  assert (Hset : Setting (with_default_period data) = Setting data)
    by (unfold with_default_period; by case_decide).
  rewrite Hty, Hset. split_and!.
  - unfold with_default_period. by case_decide.
  - intros out. destruct (ParseDuration_ok _) eqn:Hp; simpl; [|done].
    destruct (drivers !! rule_Type data) as [dri|]; [|done].
    destruct (ValidateSetting dri _) eqn:Hv; [done|].
    intros [= <-]. split_and!; [done|done|by exists dri].
  - intros ->. destruct (ParseDuration_ok _); simpl; eauto.
  - destruct (ParseDuration_ok _); simpl; [|split; [done|by intros [? _]]].
    destruct (drivers !! ruleType) as [dri|]; [|done].
    destruct (ValidateSetting dri _); split; try done; by intros [_ ?].
  - intros -> [dri ->]. destruct (ParseDuration_ok _); simpl.
    + destruct (ValidateSetting dri _); eexists; (split; [done|]); done.
    + eexists. split; [done|]. done.
  - destruct (ParseDuration_ok _); simpl; [|split; [done|by intros [? _]]].
    destruct (drivers !! rule_Type data) as [dri|];
      [|split; [done|by intros (_ & ? & ? & _)]].
    destruct (ValidateSetting dri _) eqn:Hv; split; try done.
    + intros (_ & ? & [= <-] & Hn). by rewrite Hv in Hn.
    + intros _. split; [done|by exists dri].
  - destruct (ParseDuration_ok _); simpl; [|split; [done|by intros [? _]]].
    destruct (drivers !! ruleType) as [dri|];
      [|split; [done|by intros (_ & ? & ? & _)]].
    destruct (ValidateSetting dri _) eqn:Hv; split; try done.
    + intros (_ & ? & [= <-] & Hn). by rewrite Hv in Hn.
    + intros _. split; [done|by exists dri].
  - by intros ->.
  - by intros -> ->.
  - intros dri err -> Hv. simpl. split; intros ->; by rewrite Hv.
Qed.
End SuggestRules_facts.
